(** * cf-abacus resilience utilities: throttle, retry and router

    A shallow embedding of
    - [lib/utils/throttle/index.js]   (module [Throttle]),
    - the retry wrapper               (module [Retry]),
    - [lib/utils/router/index.js]     (module [Router]),
    together with the fragment of JavaScript values and of underscore
    that these three files rely on (modules [JS], [Underscore] and
    [Adapter]).  Each embedding is followed by the notions used to state
    its properties; the properties come last. *)

From Stdlib Require Import ZArith QArith Qminmax Qpower Lqa String List Bool
  Lia Numbers.DecimalString.
From stdpp Require Import base option list.
Import ListNotations.

Local Open Scope string_scope.
Local Open Scope Z_scope.

(** ** JavaScript values *)

Module JS.

(** Objects are the list of their own enumerable properties in insertion
    order.  A function has, besides, its intrinsic [name] and what it
    runs when it is called: application functions are opaque and
    identified by a number; the other constructors are the closures that
    the modelled files create, with the variables they close over.  A
    restricted object keeps its properties readable; it takes a new
    property only if it is [extensible], and no assignment to a name in
    [readonly] (a property that is not writable).  All properties are
    data properties. *)
#[warnings="-register-all"]
Inductive value :=
  | VUndefined
  | VNull
  | VBool (b : bool)
  | VNum (n : Z)
  | VStr (s : string)
  | VObj (props : list (string * value))
  | VFun (c : code) (name : string) (props : list (string * value))
  | VFixed (extensible : bool) (readonly : list string)
           (props : list (string * value))
with code :=
  | App (id : nat)
  | Bound (target this : value)
  | ThrottleWrapper (addr : nat)
  | RetryWrapper (target : value) (retries : Z)
                 (minTimeout maxTimeout factor : Q) (randomize : bool).

(** Outcome of a computation that may throw. *)
Inductive result (A : Type) :=
  | Ok (a : A)
  | Throw (exc : value).
Arguments Ok {A} a.
Arguments Throw {A} exc.

#[global] Instance result_ret : MRet result := fun _ a => Ok a.
#[global] Instance result_bind : MBind result := fun _ _ k r =>
  match r with
  | Ok a => k a
  | Throw e => Throw e
  end.

(** ToBoolean *)
Definition truthy (v : value) : bool :=
  match v with
  | VUndefined | VNull => false
  | VBool b => b
  | VNum n => negb (n =? 0)
  | VStr s => negb (String.eqb s "")
  | VObj _ | VFun _ _ _ | VFixed _ _ _ => true
  end.

(** [a || b] *)
Definition or (a b : value) : value := if truthy a then a else b.

Definition TypeError : value :=
  VObj [("name", VStr "TypeError")].

Fixpoint lookup (k : string) (ps : list (string * value)) : option value :=
  match ps with
  | [] => None
  | (k', v) :: ps' => if String.eqb k k' then Some v else lookup k ps'
  end.

Fixpoint update (k : string) (v : value) (ps : list (string * value))
  : list (string * value) :=
  match ps with
  | [] => [(k, v)]
  | (k', v') :: ps' =>
      if String.eqb k k' then (k, v) :: ps' else (k', v') :: update k v ps'
  end.

(** [v[k]] for the properties the modelled code reads ([name], [fname],
    [status], [statusCode], [bailout], [value] and collection members):
    reading from [undefined] or [null] throws, a primitive has none of
    them. *)
Definition get (v : value) (k : string) : result value :=
  match v with
  | VUndefined | VNull => Throw TypeError
  | VBool _ | VNum _ | VStr _ => Ok VUndefined
  | VObj ps | VFixed _ _ ps => Ok (default VUndefined (lookup k ps))
  | VFun _ n ps =>
      if String.eqb k "name" then Ok (VStr n)
      else Ok (default VUndefined (lookup k ps))
  end.

(** [v[k] = x] in strict mode (all modelled files start with
    ['use strict']): assigning a property of a primitive throws, and so
    does assigning a property that is not writable, adding a property to
    an object that is not extensible, and assigning the read-only [name]
    of a function. *)
Definition set (v : value) (k : string) (x : value) : result value :=
  match v with
  | VUndefined | VNull | VBool _ | VNum _ | VStr _ => Throw TypeError
  | VFixed ext ro ps =>
      if existsb (String.eqb k) ro then Throw TypeError
      else if match lookup k ps with Some _ => true | None => ext end
           then Ok (VFixed ext ro (update k x ps))
           else Throw TypeError
  | VObj ps => Ok (VObj (update k x ps))
  | VFun c n ps =>
      if String.eqb k "name" then Throw TypeError
      else Ok (VFun c n (update k x ps))
  end.

(** Total variants, for places where the receiver is known to be an
    object or a function. *)
Definition prop (v : value) (k : string) : value :=
  match get v k with
  | Ok x => x
  | Throw _ => VUndefined
  end.

Definition own_props (v : value) : list (string * value) :=
  match v with
  | VObj ps | VFun _ _ ps | VFixed _ _ ps => ps
  | _ => []
  end.

Definition with_props (v : value) (ps : list (string * value)) : value :=
  match v with
  | VObj _ => VObj ps
  | VFun c n _ => VFun c n ps
  | VFixed ext ro _ => VFixed ext ro ps
  | _ => v
  end.

(** [Object.freeze] of an object with the properties [ps]: no property
    can be added and none is writable.  ([Object.seal] gives
    [VFixed false [] ps].) *)
Definition frozen (ps : list (string * value)) : value :=
  VFixed false (List.map fst ps) ps.

(** Whether [v[k] = x] succeeds. *)
Definition takes (v : value) (k : string) : bool :=
  match set v k VUndefined with
  | Ok _ => true
  | Throw _ => false
  end.

(** The decimal digits of an integer. *)
Definition digits (n : Z) : string := NilZero.string_of_int (Z.to_int n).

(** The Number that a natural number denotes: itself below [2^53],
    otherwise the nearest double, a tie going to the even mantissa. *)
Definition nearest_double (n : Z) : Z :=
  if n <? 2 ^ 53 then n else
  let sh := Z.log2 n - 52 in
  let q := n / 2 ^ sh in
  let r := n mod 2 ^ sh in
  let half := 2 ^ (sh - 1) in
  (if (half <? r) || ((r =? half) && Z.odd q) then q + 1 else q) * 2 ^ sh.

(** The shortest decimal that denotes the double [x] of [d] digits: the
    significand, the number of its digits [k] and the number of digits
    of the integer part.  Of two candidates with [k] digits the closer
    one is taken. *)
Fixpoint shortest (fuel : nat) (k x d : Z) : Z * Z * Z :=
  match fuel with
  | O => (x, d, d)
  | S fuel' =>
      let p := 10 ^ (d - k) in
      let s := x / p in
      let below := nearest_double (s * p) =? x in
      let above := nearest_double ((s + 1) * p) =? x in
      let pick (s' : Z) :=
        if s' =? 10 ^ k then (10 ^ (k - 1), k, d + 1) else (s', k, d) in
      if below && above then
        (if x - s * p <? (s + 1) * p - x then pick s
         else if (s + 1) * p - x <? x - s * p then pick (s + 1)
         else if Z.even s then pick s else pick (s + 1))
      else if below then pick s
      else if above then pick (s + 1)
      else shortest fuel' (k + 1) x d
  end.

Fixpoint zeros (n : nat) : string :=
  match n with
  | O => ""
  | S n' => "0" ++ zeros n'
  end.

(** [Number.prototype.toString] on a natural number: the shortest
    digits that denote the double, in full up to 21 digits and with an
    exponent beyond. *)
Definition natural_to_string (n : Z) : string :=
  if n <? 2 ^ 53 then digits n else
  let x := nearest_double n in
  if 2 ^ 1024 <=? x then "Infinity" else
  let d := Z.of_nat (String.length (digits x)) in
  let '(s, k, e) := shortest (Z.to_nat d) 1 x d in
  if e <=? 21 then digits s ++ zeros (Z.to_nat (e - k))
  else match digits s with
       | String c rest =>
           String c (if String.eqb rest "" then "" else "." ++ rest)
             ++ "e+" ++ digits (e - 1)
       | EmptyString => ""
       end.

Definition number_to_string (n : Z) : string :=
  if n <? 0 then "-" ++ natural_to_string (- n) else natural_to_string n.

(** ToString.  A number is an integer here.  For an object the default
    [Object.prototype.toString] is taken; the text of a function is not
    modelled and stands as ["function"]. *)
Definition to_str (v : value) : string :=
  match v with
  | VUndefined => "undefined"
  | VNull => "null"
  | VBool true => "true"
  | VBool false => "false"
  | VNum n => number_to_string n
  | VStr s => s
  | VObj _ | VFixed _ _ _ => "[object Object]"
  | VFun _ _ _ => "function"
  end.

(** [a + b] when one operand is a string *)
Definition concat (a b : value) : value := VStr (to_str a ++ to_str b).

(** A value that is neither an object nor a function. *)
Definition primitive (v : value) : bool :=
  match v with
  | VUndefined | VNull | VBool _ | VNum _ | VStr _ => true
  | _ => false
  end.

(** An object or a function in its ordinary state, which takes the
    assignment of any property (but the [name] of a function); a
    restricted object is told apart. *)
Definition is_object (v : value) : bool :=
  match v with
  | VObj _ | VFun _ _ _ => true
  | _ => false
  end.

End JS.

(** ** The underscore functions used by the wrappers *)

Module Underscore.
Import JS.

Definition isFunction (v : value) : bool :=
  match v with
  | VFun _ _ _ => true
  | _ => false
  end.

(** [_.pairs(obj)]: the own enumerable [[key, value]] pairs, none for a
    primitive. *)
Definition pairs (o : value) : list (string * value) := own_props o.

(** [names.sort()] on property names: ascending in code unit order. *)
Fixpoint insert (k : string) (l : list string) : list string :=
  match l with
  | [] => [k]
  | k' :: l' => if String.leb k k' then k :: l else k' :: insert k l'
  end.

Fixpoint sort (l : list string) : list string :=
  match l with
  | [] => []
  | k :: l' => insert k (sort l')
  end.

(** [_.functions(obj)]: the sorted names of the function-valued
    properties. *)
Definition functions (o : value) : list string :=
  sort (List.map fst (List.filter (fun p => isFunction (snd p)) (own_props o))).

(** [result[key] = value] *)
Definition assign (ps : list (string * value)) (p : string * value) :=
  update (fst p) (snd p) ps.

(** [_.object(list)] *)
Definition object (l : list (string * value)) : value :=
  VObj (fold_left assign l []).

(** [_.extend(destination, source1, source2, ...)]: copies the
    properties of the sources, in order, into the destination. *)
Definition extend (dest : value) (sources : list value) : value :=
  with_props dest
    (fold_left (fun ps s => fold_left assign (own_props s) ps)
       sources (own_props dest)).

(** [_.bind(f, o)]: a TypeError unless [f] is a function.  The bound
    function has no enumerable property of its own. *)
Definition bind (f o : value) : result value :=
  match f with
  | VFun _ n _ => Ok (VFun (Bound f o) ("bound " ++ n) [])
  | _ => Throw TypeError
  end.

End Underscore.

(** ** Binding a member while retaining its name

    [nbind] is defined, with the same text, by the throttle and by the
    retry wrapper:
    [(o, k) => extend(bind(o[k], o), { fname:
       (o.name || o.fname ? (o.name || o.fname) + '.' : '') +
       (o[k].name || o[k].fname || k) })]. *)

Module Adapter.
Import JS Underscore.

Definition owner_prefix (o : value) : value :=
  let owner := JS.or (prop o "name") (prop o "fname") in
  if truthy owner then concat owner (VStr ".") else VStr "".

Definition member_name (o : value) (k : string) : value :=
  JS.or (JS.or (prop (prop o k) "name") (prop (prop o k) "fname")) (VStr k).

Definition nbind_fname (o : value) (k : string) : value :=
  concat (owner_prefix o) (member_name o k).

Definition nbind (o : value) (k : string) : result value :=
  b ← bind (prop o k) o;
  mret (extend b [VObj [("fname", nbind_fname o k)]]).

End Adapter.

(** ** lib/utils/throttle/index.js *)

Module Throttle.
Import JS Underscore Adapter.

(** The variables closed over by one call of [throttlefn]: the wrapped
    function, the limit, [running] and [queue].  A queued call
    descriptor ([callargs]) is identified by a number that stands for
    its arguments and its trailing callback. *)
Record cell := Cell {
  fn : value;
  max : Z;
  running : Z;
  queue : list nat
}.

(** Every call of [throttlefn] creates its own [running] and [queue]:
    the store holds one cell per call, and the wrapper it returns refers
    to its cell by address. *)
Abbreviation store := (list cell).

(** What the caller's callback does when the wrapper forwards a
    completion to it: return; throw; call throttled functions (given as
    wrapper address and call) and return; or hand such calls to
    [process.nextTick] and return. *)
Inductive cb_action :=
  | CbReturn
  | CbThrow (exc : value)
  | CbSubmit (calls : list (nat * nat))
  | CbDefer (calls : list (nat * nat)).

(** Effects in program order. *)
Inductive effect :=
  | Queued (a c : nat)
  | Started (a c : nat)
  | Forwarded (a c : nat) (err val : value)
  | Raised (a c : nat) (exc : value)
  | Decremented (a : nat)
  | Scheduled (a c : nat).

(** The process: the cells, the [process.nextTick] queue (every task in
    it is a call [run(callargs)] of some wrapper), and the trace of
    effects.  [flying] lists the executions of wrapped functions that
    have been started and have not called back yet, [leaked] the
    completions whose caller callback threw; neither is read by the
    code. *)
Record world := World {
  cells : store;
  ticks : list (nat * nat);
  flying : list (nat * nat);
  leaked : list (nat * nat);
  trace : list effect
}.

Definition boot (s : store) : world := World s [] [] [] [].

Definition set_cell (a : nat) (cl : cell) (w : world) : world :=
  World (<[a := cl]> (cells w)) (ticks w) (flying w) (leaked w) (trace w).

Definition emit (e : effect) (w : world) : world :=
  World (cells w) (ticks w) (flying w) (leaked w) (trace w ++ [e]).

Definition defer (t : nat * nat) (w : world) : world :=
  World (cells w) (ticks w ++ [t]) (flying w) (leaked w) (trace w).

Definition defer_all (l : list (nat * nat)) (w : world) : world :=
  World (cells w) (ticks w ++ l) (flying w) (leaked w) (trace w).

Definition takeoff (t : nat * nat) (w : world) : world :=
  World (cells w) (ticks w) (flying w ++ [t]) (leaked w) (trace w).

Definition leak (t : nat * nat) (w : world) : world :=
  World (cells w) (ticks w) (flying w) (leaked w ++ [t]) (trace w).

Definition same (t u : nat * nat) : bool :=
  Nat.eqb (fst t) (fst u) && Nat.eqb (snd t) (snd u).

Fixpoint member (t : nat * nat) (l : list (nat * nat)) : bool :=
  match l with
  | [] => false
  | u :: l' => same t u || member t l'
  end.

Fixpoint remove1 (t : nat * nat) (l : list (nat * nat)) : list (nat * nat) :=
  match l with
  | [] => []
  | u :: l' => if same t u then l' else u :: remove1 t l'
  end.

Definition touchdown (t : nat * nat) (w : world) : world :=
  World (cells w) (ticks w) (remove1 t (flying w)) (leaked w) (trace w).

(** Number of entries of [l] at wrapper [a]. *)
Fixpoint count (a : nat) (l : list (nat * nat)) : Z :=
  match l with
  | [] => 0
  | u :: l' => (if Nat.eqb a (fst u) then 1 else 0) + count a l'
  end.

(** [run(callargs)]: queue the call when [running === max], otherwise
    count it and apply the wrapped function, which is asynchronous: it
    returns before it calls back. *)
Definition run (a c : nat) (w : world) : option world :=
  cl ← cells w !! a;
  if running cl =? max cl then
    Some (emit (Queued a c)
            (set_cell a (Cell (fn cl) (max cl) (running cl) (queue cl ++ [c])) w))
  else
    Some (emit (Started a c)
            (takeoff (a, c)
               (set_cell a (Cell (fn cl) (max cl) (running cl + 1) (queue cl)) w))).

(** Calls of wrappers, one after the other. *)
Fixpoint run_all (l : list (nat * nat)) (w : world) : option world :=
  match l with
  | [] => Some w
  | (a, c) :: l' => w' ← run a c w; run_all l' w'
  end.

(** The statements after [cb(err, val)] in the intercepting callback:
    [running = running - 1; if(queue.length) { const next =
    queue.shift(); process.nextTick(() => run(next)); }]. *)
Definition settle (a : nat) (w : world) : option world :=
  cl ← cells w !! a;
  let w1 :=
    emit (Decremented a)
      (set_cell a (Cell (fn cl) (max cl) (running cl - 1) (queue cl)) w) in
  match queue cl with
  | [] => Some w1
  | next :: rest =>
      Some (emit (Scheduled a next)
              (defer (a, next)
                 (set_cell a (Cell (fn cl) (max cl) (running cl - 1) rest) w1)))
  end.

Section Callbacks.

(** The behaviour of the callback of each call. *)
Variable cbs : nat -> cb_action.

(** The intercepting callback [function(err, val) { cb(err, val); ... }]
    of call [c] started through wrapper [a]. *)
Definition callback (a c : nat) (err val : value) (w : world) : option world :=
  let w1 := emit (Forwarded a c err val) w in
  match cbs c with
  | CbReturn => settle a w1
  | CbThrow exc => Some (emit (Raised a c exc) (leak (a, c) w1))
  | CbSubmit l => w2 ← run_all l w1; settle a w2
  | CbDefer l => settle a (defer_all l w1)
  end.

(** What can happen in the process: a call of a wrapper, a wrapped
    function calling back, and the next [process.nextTick] task. *)
Inductive event :=
  | Submit (a c : nat)
  | Complete (a c : nat) (err val : value)
  | Tick.

(** One event.  A wrapped function calls back only for an execution in
    flight (it invokes its callback once per application), and a tick
    needs a task; otherwise the event cannot happen. *)
Definition step (w : world) (e : event) : option world :=
  match e with
  | Submit a c => run a c w
  | Complete a c err val =>
      if member (a, c) (flying w)
      then callback a c err val (touchdown (a, c) w)
      else None
  | Tick =>
      match ticks w with
      | [] => None
      | (a, c) :: rest =>
          run a c (World (cells w) rest (flying w) (leaked w) (trace w))
      end
  end.

Fixpoint exec (w : world) (es : list event) : option world :=
  match es with
  | [] => Some w
  | e :: es' => w' ← step w e; exec w' es'
  end.

End Callbacks.

(** [throttlefn(fn, max)]: fresh [running = 0] and [queue = []], and the
    anonymous wrapper [function() { return run(arguments); }]. *)
Definition throttlefn (f : value) (mx : Z) (s : store) : value * store :=
  (VFun (ThrottleWrapper (List.length s)) "" [], (s ++ [Cell f mx 0 []])%list).

(** [map(functions(fn), (k) => [k, throttlefn(nbind(fn, k), max)])] *)
Fixpoint wrap_members (o : value) (mx : Z) (ks : list string) (s : store)
  : result (list (string * value) * store) :=
  match ks with
  | [] => Ok ([], s)
  | k :: ks' =>
      b ← nbind o k;
      let (w, s1) := throttlefn b mx s in
      r ← wrap_members o mx ks' s1;
      mret ((k, w) :: fst r, snd r)
  end.

(** [throttle(fn, max)] *)
Definition throttle (f : value) (mx : Z) (s : store) : result (value * store) :=
  let (dest, s1) :=
    if isFunction f then throttlefn f mx s else (VObj [], s) in
  r ← wrap_members f mx (functions f) s1;
  mret (extend dest [object (pairs f); object (fst r)], snd r).

End Throttle.

(** ** Notions used to state the properties of the throttle *)

Module ThrottleNotions.
Import JS Underscore Adapter Throttle.

(** The calls of wrapper [a] among tasks given as address and call. *)
Definition at_wrapper (a : nat) (l : list (nat * nat)) : list nat :=
  omap (fun t => if Nat.eqb (fst t) a then Some (snd t) else None) l.

(** Two calls are queued behind a running one when the limit is 1. *)
Definition one_at_a_time : world :=
  World [Cell (VFun (App 0) "get" []) 1 1 [2; 3]%nat] [] [(0, 1)]%nat []
        [Started 0 1; Queued 0 2; Queued 0 3].

(** The calls started, in the order of the trace. *)
Definition started (tr : list effect) : list (nat * nat) :=
  omap (fun e => match e with Started a c => Some (a, c) | _ => None end) tr.

(** The line of wrapper [a]: the calls it has started, the dequeued call
    that waits for its tick, and the calls in its queue. *)
Definition line (a : nat) (w : world) : list nat :=
  at_wrapper a (started (trace w)) ++ at_wrapper a (ticks w)
    ++ default [] (queue <$> cells w !! a).

(** Every wrapper with a queued call, but possibly [a0], is at its
    limit. *)
Definition full_when_queued (a0 : option nat) (w : world) : Prop :=
  forall a cl, Some a <> a0 -> cells w !! a = Some cl -> queue cl <> [] ->
               running cl = max cl.

(** Either no task waits for its tick, or one dequeued call does and its
    wrapper has the slot free for it. *)
Definition orderly (w : world) : Prop :=
  (ticks w = [] /\ full_when_queued None w)
  \/ (exists a c cl,
        ticks w = [(a, c)] /\ cells w !! a = Some cl
        /\ running cl = max cl - 1 /\ full_when_queued (Some a) w).

(** The limits of the cells, by address. *)
Definition limits (w : world) : list Z := max <$> cells w.

(** Cells as [throttlefn] creates them. *)
Definition fresh (s : store) : Prop :=
  Forall (fun cl => running cl = 0 /\ queue cl = []) s.

(** The accounts of every cell are in order: [running] counts the
    executions in flight and the completions whose callback threw, plus
    what is owed at the address (one for the completion being handled),
    and it does not exceed a limit that is not negative. *)
Definition accounted (owed : nat -> Z) (w : world) : Prop :=
  forall a cl, cells w !! a = Some cl ->
    running cl = count a (flying w) + count a (leaked w) + owed a
    /\ (0 <= max cl -> running cl <= max cl).

(** Nothing is owed anywhere; one is owed at [a0]. *)
Definition nothing (a : nat) : Z := 0.

Definition one_at (a0 a : nat) : Z := if Nat.eqb a a0 then 1 else 0.

(** The wrappers that [wrap_members] creates for the names [ks] when the
    store holds [n] cells. *)
Fixpoint wrappers (n : nat) (ks : list string) : list (string * value) :=
  match ks with
  | [] => []
  | k :: ks' => (k, VFun (ThrottleWrapper n) "" []) :: wrappers (S n) ks'
  end.

(** A cell as [throttlefn(nbind(o, k), max)] creates it. *)
Definition cell_of (o : value) (mx : Z) (k : string) (cl : cell) : Prop :=
  nbind o k = Ok (fn cl) /\ max cl = mx /\ running cl = 0 /\ queue cl = [].

Section Schedules.

Variable cbs : nat -> cb_action.

(** The world at the moment the caller's callback returns, when it
    does. *)
Definition forwarded (a c : nat) (err val : value) (w : world) : option world :=
  let w1 := emit (Forwarded a c err val) w in
  match cbs c with
  | CbReturn => Some w1
  | CbThrow _ => None
  | CbSubmit l => run_all l w1
  | CbDefer l => Some (defer_all l w1)
  end.

(** The calls that reach wrapper [a] with an event: the call submitted,
    or those that the callback of a completion submits. *)
Definition arrivals (a : nat) (e : event) : list nat :=
  match e with
  | Submit a' c => at_wrapper a [(a', c)]
  | Complete _ c _ _ =>
      match cbs c with
      | CbSubmit l => at_wrapper a l
      | _ => []
      end
  | Tick => []
  end.

(** An event is quiet when it submits nothing while a dequeued call
    waits for its tick, and defers nothing. *)
Definition quiet (w : world) (e : event) : Prop :=
  match e with
  | Submit _ _ => ticks w = []
  | Complete _ c _ _ => ticks w = [] /\ forall l, cbs c = CbDefer l -> l = []
  | Tick => True
  end.

(** A schedule is calm when each of its events is quiet at the moment it
    happens. *)
Fixpoint calm (w : world) (es : list event) : Prop :=
  match es with
  | [] => True
  | e :: es' =>
      quiet w e
      /\ match step cbs w e with
         | Some w' => calm w' es'
         | None => True
         end
  end.

End Schedules.

End ThrottleNotions.

(** ** The retry wrapper *)

Module Retry.
Import JS Underscore Adapter.

(** The options of the [retry] package; the delays and the factor are
    any numbers, taken here as rationals, the delays in milliseconds. *)
Record config := Config {
  retries : Z;
  minTimeout : Q;
  maxTimeout : Q;
  factor : Q;
  randomize : bool
}.

(** [function(v, d) { return v === undefined ? d : v; }], with [None]
    for an argument that is [undefined]. *)
Definition def {A} (v : option A) (d : A) : A :=
  match v with
  | None => d
  | Some x => x
  end.

(** [options(retries, min, max, factor, random)] *)
Definition options (retries : option Z) (min max factor : option Q)
  (random : option bool) : config :=
  Config (def retries 5) (def min 50%Q) (def max 500%Q) (def factor 2%Q)
         (def random true).

(** Modelled from the spec: the backoff of the operation object that
    [_retry.operation(opt)] returns; the [retry] package is not part of
    the repository.  Attempt [k] (k >= 1) is preceded by the delay
    [min(maxDelay, minDelay * factor^(k-1))]. *)
Definition delay (opt : config) (k : nat) : Q :=
  Qmin (maxTimeout opt) (minTimeout opt * factor opt ^ (Z.of_nat k - 1)).

(** Modelled from the spec: the state of one operation of the [retry]
    package, that is the policy, the index of the current attempt and
    the ordered list of the errors so far. *)
Record operation := Operation {
  policy : config;
  index : nat;
  errors : list value
}.

(** Modelled from the spec: [_retry.operation(opt)], a new operation
    at attempt 0 with no error yet. *)
Definition operation_new (opt : config) : operation := Operation opt 0 [].

(** One logical invocation in time: an application of the wrapped
    function, a timer armed for the next attempt, the caller's callback. *)
Inductive event :=
  | Attempt (k : nat) (t : Q)
  | Timer (k : nat) (ms : Q) (t : Q)
  | Callback (err val : value) (t : Q).

(** Modelled from the spec: "the actual wait is drawn from [0, d_k]
    inclusive".  The draw of attempt [k] is a share of the bound: the
    random number of the draw brought into [0, 1]. *)
Definition share (x : Q) : Q := Qmax 0 (Qmin 1 x).

Definition drawn (u : nat -> Q) (k : nat) (bound : Q) : Q :=
  share (u k) * bound.

(** Modelled from the spec: "scheduling must not fire earlier".  The
    host fires the timer of attempt [k] when it is due or later, by a
    time that is not negative. *)
Definition overdue (l : nat -> Q) (k : nat) : Q := Qmax 0 (l k).

Section Invocation.

(** The wait before attempt [k], given its bound, when the wait is
    drawn. *)
Variable draw : nat -> Q -> Q.

(** The time between the moment the timer of attempt [k] is due and
    the moment it fires. *)
Variable late : nat -> Q.

(** What attempt [k] of the wrapped function passes to its callback,
    and after how long. *)
Variable app : nat -> value * value * Q.

(** Modelled from the spec: with [randomize] the actual wait is drawn
    for the bound [d_k] (by [drawn], from [0, d_k]), otherwise it is
    [d_k]. *)
Definition wait (opt : config) (k : nat) : Q :=
  if randomize opt then draw k (delay opt k) else delay opt k.

(** Modelled from the spec: [op.retry(err)] of the [retry] package.
    Without an error it answers false.  With one, the error is appended
    to the list; if attempts remain (there are at most [retries + 1])
    the next one is scheduled after the wait and the answer is true
    (here [Some] of the wait), otherwise the answer is false. *)
Definition op_retry (err : value) (op : operation) : option Q * operation :=
  if truthy err then
    let errs := (errors op ++ [err])%list in
    if Z.of_nat (index op) <? retries (policy op)
    then (Some (wait (policy op) (S (index op))),
          Operation (policy op) (S (index op)) errs)
    else (None, Operation (policy op) (index op) errs)
  else (None, op).

(** The intercepting callback of [retryfn]:
    [(err, val) => { if(op.retry(err)) return;
                     cb(err ? op.errors()[0] : undefined, val); }].
    Left: the wait of the scheduled attempt; right: what [cb] receives. *)
Definition intercept (err val : value) (op : operation)
  : operation * (Q + value * value) :=
  match op_retry err op with
  | (Some ms, op') => (op', inl ms)
  | (None, op') =>
      (op', inr (if truthy err
                 then default VUndefined (errors op' !! 0%nat)
                 else VUndefined,
                 val))
  end.

(** [op.attempt(...)]: apply the wrapped function now, and again every
    time the intercepting callback has scheduled another attempt.  The
    fuel bounds the applications; [wrapper] gives [retries + 1], which
    is enough for the callback to be reached. *)
Fixpoint attempt (fuel : nat) (op : operation) (t : Q) : list event :=
  match fuel with
  | O => []
  | S fuel' =>
      let '(err, val, dur) := app (index op) in
      Attempt (index op) t ::
        match intercept err val op with
        | (op', inl ms) =>
            Timer (index op') ms (t + dur)
              :: attempt fuel' op' (t + dur + ms + late (index op'))
        | (_, inr (e, v)) => [Callback e v (t + dur)]
        end
  end.

(** A call, at time [t], of the wrapper that [retryfn] returns. *)
Definition wrapper (opt : config) (t : Q) : list event :=
  attempt (S (Z.to_nat (retries opt))) (operation_new opt) t.

End Invocation.

(** [retryfn(fn, retries, min, max, factor, random)] as a value: the
    wrapper with [wrapper.fname = fn.fname || fn.name]. *)
Definition retryfn (f : value) (retries : option Z)
  (min max factor : option Q) (random : option bool) : result value :=
  let opt := options retries min max factor random in
  fname ← get f "fname";
  name ← (if truthy fname then mret fname else get f "name");
  set (VFun (RetryWrapper f (Retry.retries opt) (minTimeout opt)
               (maxTimeout opt) (Retry.factor opt) (randomize opt))
          "wrapper" [])
      "fname" name.

(** [map(functions(fn), (k) => [k, retryfn(nbind(fn, k), ...)])] *)
Fixpoint wrap_members (o : value) (retries : option Z)
  (min max factor : option Q) (random : option bool) (ks : list string)
  : result (list (string * value)) :=
  match ks with
  | [] => Ok []
  | k :: ks' =>
      b ← nbind o k;
      w ← retryfn b retries min max factor random;
      ps ← wrap_members o retries min max factor random ks';
      mret ((k, w) :: ps)
  end.

(** [retry(fn, retries, min, max, factor, random)] *)
Definition retry (f : value) (retries : option Z) (min max factor : option Q)
  (random : option bool) : result value :=
  dest ← (if isFunction f then retryfn f retries min max factor random
          else mret (VObj []));
  ps ← wrap_members f retries min max factor random (functions f);
  mret (extend dest [object (pairs f); object ps]).

End Retry.

(** ** Notions used to state the properties of the retry wrapper *)

Module RetryNotions.
Import JS Retry.

(** The attempts made and the calls of the caller's callback, in the
    order of the trace. *)
Definition applied (tr : list event) : list nat :=
  omap (fun e => match e with Attempt k _ => Some k | _ => None end) tr.

Definition called_back (tr : list event) : list (value * value) :=
  omap (fun e => match e with Callback e v _ => Some (e, v) | _ => None end) tr.

End RetryNotions.

(** ** lib/utils/router/index.js *)

Module Router.
Import JS Underscore.

(** The two [next] functions of a request: the one passed to an adapted
    handler, and the one captured by the fault scope of [catchall]. *)
Inductive sink :=
  | Chain
  | Scope.

(** The arguments of the middleware before its trailing [next] (Express
    passes the request and the response), and the calls of [next] so
    far: [None] for [next()], [Some err] for [next(err)]. *)
Record state := State {
  args : list value;
  nexts : list (sink * option value)
}.

Inductive outcome :=
  | Done
  | Raised (exc : value).

Definition call_next (s : sink) (e : option value) (st : state) : state :=
  State (args st) (nexts st ++ [(s, e)]).

(** [if(!trusted && !err.status && !err.statusCode) err.bailout = true;]
    as it stands both in [error] and in the handler of the domain. *)
Definition mark (trusted : bool) (err : value) : result value :=
  if trusted then Ok err else
  status ← get err "status";
  if truthy status then Ok err else
  statusCode ← get err "statusCode";
  if truthy statusCode then Ok err else
  set err "bailout" (VBool true).

(** [const error = (err, type) => { ...; next(err); }] *)
Definition error (trusted : bool) (err : value) (st : state) : state * outcome :=
  match mark trusted err with
  | Ok err' => (call_next Chain (Some err') st, Done)
  | Throw exc => (st, Raised exc)
  end.

(** The callback handed to the handler:
    [(err, value) => { if(err) error(err, 'generator error');
       else if(value) { res.value = value; next(); } }]
    where [res = arguments[1]]. *)
Definition callback (trusted : bool) (err val : value) (st : state)
  : state * outcome :=
  if truthy err then error trusted err st
  else if truthy val then
    match set (default VUndefined (args st !! 1%nat)) "value" val with
    | Ok res' =>
        (call_next Chain None (State (<[1%nat := res']> (args st)) (nexts st)),
         Done)
    | Throw exc => (st, Raised exc)
    end
  else (st, Done).

(** What the handler [mfunc] does while it is applied: it returns (a
    completion may follow later), it throws, or it calls back and goes
    on. *)
Inductive handler :=
  | Return
  | Raise (exc : value)
  | CallBack (err val : value) (rest : handler).

(** [mfunc.apply(undefined, params.concat([callback]))]; an exception
    thrown by the callback passes through the handler. *)
Fixpoint apply (trusted : bool) (m : handler) (st : state) : state * outcome :=
  match m with
  | Return => (st, Done)
  | Raise exc => (st, Raised exc)
  | CallBack err val rest =>
      match callback trusted err val st with
      | (st', Done) => apply trusted rest st'
      | thrown => thrown
      end
  end.

(** The middleware returned by [callbackify(m, trusted)]:
    [try { mfunc.apply(...) } catch(exc) { error(exc, 'exception'); }]. *)
Definition callbackify (m : handler) (trusted : bool) (st : state)
  : state * outcome :=
  match apply trusted m st with
  | (st', Raised exc) => error trusted exc st'
  | done => done
  end.

(** The handler that [catchall(trusted)] installs on the domain:
    [(err) => { if(...) err.bailout = true; next(err); }]. *)
Definition on_error (trusted : bool) (err : value) (st : state)
  : state * outcome :=
  match mark trusted err with
  | Ok err' => (call_next Scope (Some err') st, Done)
  | Throw exc => (st, Raised exc)
  end.

(** [catchall(trusted)(req, res, next)]: [d.run(next)]. *)
Definition catchall (trusted : bool) (st : state) : state :=
  call_next Scope None st.

(** What happens inside the scope of one request: the chain calls an
    adapted handler, a handler calls back after it has returned, or an
    exception escapes from asynchronous code. An exception thrown by a
    late callback is caught by the domain. *)
Inductive occurrence :=
  | Invoke (m : handler)
  | Later (err val : value)
  | Fault (exc : value).

Definition occur (trusted : bool) (o : occurrence) (st : state)
  : state * outcome :=
  match o with
  | Invoke m => callbackify m trusted st
  | Later err val =>
      match callback trusted err val st with
      | (st', Raised exc) => on_error trusted exc st'
      | done => done
      end
  | Fault exc => on_error trusted exc st
  end.

End Router.

(** ** Notions used to state the properties of the router *)

Module RouterNotions.
Import JS Router.

(** The errors delivered to [next]. *)
Definition delivered (st : state) : list value :=
  omap snd (nexts st).

(** The test of [mark] on an error object, and the error as [next]
    receives it. *)
Definition needs_bailout (trusted : bool) (err : value) : bool :=
  negb trusted && negb (truthy (prop err "status"))
    && negb (truthy (prop err "statusCode")).

Definition flagged (trusted : bool) (err : value) : value :=
  if needs_bailout trusted err
  then with_props err (update "bailout" (VBool true) (own_props err))
  else err.

(** The state after [res.value = value; next()]. *)
Definition attached (res val : value) (st : state) : state :=
  call_next Chain None
    (State (<[1%nat := with_props res (update "value" val (own_props res))]>
              (args st))
           (nexts st)).

(** A request as Express starts it: a request object, an empty response
    object, and no call of [next] yet. *)
Definition fresh_request : state :=
  State [VObj [("url", VStr "/v1/metering")]; VObj []] [].

End RouterNotions.

(** ** Further notions: the ledger of a throttled function *)

Module ThrottleLedger.
Import JS Throttle ThrottleNotions.

Section Handed.

Variable cbs : nat -> cb_action.

(** The calls handed to wrapper [a] with an event: the call submitted,
    or those that the callback of a completion submits or hands to
    [process.nextTick]. *)
Definition handed (a : nat) (e : event) : list nat :=
  match e with
  | Submit a' c => at_wrapper a [(a', c)]
  | Complete _ c _ _ =>
      match cbs c with
      | CbSubmit l | CbDefer l => at_wrapper a l
      | _ => []
      end
  | Tick => []
  end.

End Handed.

(** The calls that wrapper [a] has started, in order. *)
Definition started_at (a : nat) (w : world) : list nat :=
  at_wrapper a (started (trace w)).

(** The calls of wrapper [a] that wait on the next-tick queue. *)
Definition waiting_at (a : nat) (w : world) : list nat :=
  at_wrapper a (ticks w).

(** The calls in the queue of wrapper [a]. *)
Definition queue_at (a : nat) (w : world) : list nat :=
  default [] (queue <$> cells w !! a).

(** Every wrapper with a queued call, counting its calls that wait for
    their tick, is exactly at its limit, and every wrapper with a call
    that waits for its tick is within its limit. *)
Definition paced (w : world) : Prop :=
  forall a cl, cells w !! a = Some cl ->
    (queue cl <> [] ->
     running cl + Z.of_nat (length (waiting_at a w)) = max cl)
    /\ (waiting_at a w <> [] ->
        running cl + Z.of_nat (length (waiting_at a w)) <= max cl).

Section Steady.

Variable cbs : nat -> cb_action.

(** An event is steady when it hands no call to a wrapper one of whose
    dequeued calls waits for its tick, and defers nothing. *)
Definition steady (w : world) (e : event) : Prop :=
  match e with
  | Submit a _ => waiting_at a w = []
  | Complete _ c _ _ =>
      match cbs c with
      | CbSubmit l => Forall (fun t => waiting_at (fst t) w = []) l
      | CbDefer l => l = []
      | _ => True
      end
  | Tick => True
  end.

(** A schedule is steady when each of its events is, at the moment it
    happens. *)
Fixpoint steadily (w : world) (es : list event) : Prop :=
  match es with
  | [] => True
  | e :: es' =>
      steady w e
      /\ match step cbs w e with
         | Some w' => steadily w' es'
         | None => True
         end
  end.

End Steady.

(** Every wrapper with a queued call is at or above its limit, counting
    the tasks that wait for their tick. *)
Definition no_idle_slot (w : world) : Prop :=
  forall a cl, cells w !! a = Some cl -> queue cl <> [] ->
    max cl <= running cl + Z.of_nat (length (waiting_at a w)).

(** Four calls under a limit of 2: the first two have completed, one
    after the other, before the ticks of the two dequeued calls. *)
Definition two_in_turn : world :=
  World [Cell (VFun (App 0) "get" []) 2 2 []] [] [(0, 3); (0, 4)]%nat []
        [Started 0 1; Started 0 2; Queued 0 3; Queued 0 4;
         Forwarded 0 1 VUndefined VUndefined; Decremented 0; Scheduled 0 3;
         Forwarded 0 2 VUndefined VUndefined; Decremented 0; Scheduled 0 4;
         Started 0 3; Started 0 4].

(** Two calls under a limit of 0, and under a limit of -1. *)
Definition both_queued : world :=
  World [Cell (VFun (App 0) "get" []) 0 0 [1; 2]%nat] [] [] []
        [Queued 0 1; Queued 0 2].

Definition both_started : world :=
  World [Cell (VFun (App 0) "get" []) (-1) 2 []] [] [(0, 1); (0, 2)]%nat []
        [Started 0 1; Started 0 2].

End ThrottleLedger.

(** ** Further notions: what a handler makes of a request *)

Module RouterLedger.
Import JS Router.

(** The number of times a handler reaches [next]: once for every
    callback with a truthy error or a truthy value, and once for a
    final throw. *)
Fixpoint effective (m : handler) : nat :=
  match m with
  | Return => 0
  | Raise _ => 1
  | CallBack err val rest =>
      (if truthy err || truthy val then 1 else 0) + effective rest
  end.

(** The errors that the handler reports through its callback or throws,
    in order. *)
Fixpoint reported (m : handler) : list value :=
  match m with
  | Return => []
  | Raise exc => [exc]
  | CallBack err val rest =>
      if truthy err then err :: reported rest else reported rest
  end.



(** The errors that the handler reports or throws can take the bailout
    flag. *)
Fixpoint proper (m : handler) : bool :=
  match m with
  | Return => true
  | Raise exc => takes exc "bailout"
  | CallBack err val rest =>
      (negb (truthy err) || takes err "bailout") && proper rest
  end.

End RouterLedger.

(** * Properties *)

Local Open Scope list_scope.

(** ** Property lists *)

Module JSFacts.
Import JS.

(** Numbers print as JavaScript prints them: in full up to 21 digits,
    with the shortest digits that denote the double, and with an
    exponent beyond. *)
Example numbers_print :
  List.map to_str
    [VNum 0; VNum (-12); VNum (2 ^ 53 + 1); VNum (2 ^ 64);
     VNum (10 ^ 21 - 1); VNum (10 ^ 21); VNum (2 ^ 70)]
  = ["0"; "-12"; "9007199254740992"; "18446744073709552000";
     "1e+21"; "1e+21"; "1.1805916207174113e+21"].
Proof. vm_compute. reflexivity. Qed.

Lemma lookup_update_eq (k : string) (v : value) (ps : list (string * value)) :
  lookup k (update k v ps) = Some v.
Proof.
  induction ps as [|[k' v'] ps IH]; simpl.
  - rewrite String.eqb_refl. reflexivity.
  - destruct (String.eqb k k') eqn:E; simpl.
    + rewrite String.eqb_refl. reflexivity.
    + rewrite E. exact IH.
Qed.

Lemma lookup_update_ne (k k' : string) (v : value) (ps : list (string * value)) :
  k <> k' -> lookup k' (update k v ps) = lookup k' ps.
Proof.
  intros Hne. induction ps as [|[k0 v0] ps IH]; simpl.
  - destruct (String.eqb k' k) eqn:E; [|reflexivity].
    apply String.eqb_eq in E. congruence.
  - destruct (String.eqb k k0) eqn:E; simpl.
    + apply String.eqb_eq in E. subst k0.
      destruct (String.eqb k' k) eqn:E'; [|reflexivity].
      apply String.eqb_eq in E'. congruence.
    + destruct (String.eqb k' k0); [reflexivity|exact IH].
Qed.

End JSFacts.

(** ** Collections of members *)

Module UnderscoreFacts.
Import JS JSFacts Underscore.

Lemma lookup_None (k : string) (ps : list (string * value)) :
  ~ In k (List.map fst ps) -> lookup k ps = None.
Proof.
  induction ps as [|[k' v'] ps IH]; simpl; [reflexivity|]. intros Hn.
  destruct (String.eqb_spec k k') as [->|Hne]; [tauto|]. apply IH. tauto.
Qed.

Lemma lookup_Some_In (k : string) (v : value) (ps : list (string * value)) :
  lookup k ps = Some v -> In (k, v) ps.
Proof.
  induction ps as [|[k' v'] ps IH]; simpl; [discriminate|].
  destruct (String.eqb_spec k k') as [->|Hne].
  - intros [= ->]. left. reflexivity.
  - intros H. right. apply IH. exact H.
Qed.

Lemma lookup_In_keys (k : string) (v : value) (ps : list (string * value)) :
  lookup k ps = Some v -> In k (List.map fst ps).
Proof.
  intros H. apply lookup_Some_In in H. apply in_map_iff. exists (k, v). auto.
Qed.

Lemma lookup_listed (k : string) (ps : list (string * value)) :
  In k (List.map fst ps) -> exists v, lookup k ps = Some v.
Proof.
  induction ps as [|[k' v'] ps IH]; simpl; [tauto|]. intros Hin.
  destruct (String.eqb_spec k k') as [->|Hne]; [eauto|].
  apply IH. destruct Hin as [->|Hin]; [congruence|exact Hin].
Qed.

Lemma lookup_update (k k' : string) (v : value) (ps : list (string * value)) :
  lookup k (update k' v ps) = if String.eqb k k' then Some v else lookup k ps.
Proof.
  destruct (String.eqb_spec k k') as [->|Hne].
  - apply lookup_update_eq.
  - apply lookup_update_ne. congruence.
Qed.

(** Copying the properties [l], whose names differ, over [acc]. *)
Lemma lookup_fold_assign (k : string) (l : list (string * value)) :
  List.NoDup (List.map fst l) ->
  forall acc,
    lookup k (fold_left assign l acc)
    = match lookup k l with Some v => Some v | None => lookup k acc end.
Proof.
  induction l as [|[k' v'] l IH]; simpl; intros Hnd acc; [reflexivity|].
  apply List.NoDup_cons_iff in Hnd as [Hnotin Hnd].
  rewrite (IH Hnd). unfold assign. simpl. rewrite lookup_update.
  destruct (String.eqb_spec k k') as [->|Hne]; [|reflexivity].
  rewrite (lookup_None _ _ Hnotin). reflexivity.
Qed.

Lemma update_fresh (k : string) (v : value) (acc : list (string * value)) :
  ~ In k (List.map fst acc) -> update k v acc = acc ++ [(k, v)].
Proof.
  induction acc as [|[k' v'] acc IH]; simpl; intros Hn; [reflexivity|].
  destruct (String.eqb_spec k k') as [->|Hne]; [tauto|].
  rewrite IH by tauto. reflexivity.
Qed.

Lemma fold_assign_fresh (l : list (string * value)) :
  forall acc,
    List.NoDup (List.map fst (acc ++ l)) -> fold_left assign l acc = acc ++ l.
Proof.
  induction l as [|[k v] l IH]; simpl; intros acc Hnd.
  - rewrite app_nil_r. reflexivity.
  - unfold assign at 2. simpl. rewrite update_fresh.
    + rewrite IH; rewrite <- app_assoc; [reflexivity|exact Hnd].
    + rewrite List.map_app in Hnd. simpl in Hnd.
      apply List.NoDup_remove_2 in Hnd. intros Hin. apply Hnd.
      apply in_or_app. left. exact Hin.
Qed.

(** [object(pairs(o))] copies a collection. *)
Lemma object_copy (l : list (string * value)) :
  List.NoDup (List.map fst l) -> object l = VObj l.
Proof.
  intros Hnd. unfold object. f_equal. apply (fold_assign_fresh l []). exact Hnd.
Qed.

Lemma insert_In (x k : string) (l : list string) :
  In x (insert k l) <-> x = k \/ In x l.
Proof.
  induction l as [|k' l IH]; simpl; [intuition|].
  destruct (String.leb k k'); simpl; [intuition|]. rewrite IH. intuition.
Qed.

Lemma sort_In (x : string) (l : list string) : In x (sort l) <-> In x l.
Proof.
  induction l as [|k l IH]; simpl; [reflexivity|].
  rewrite insert_In, IH. intuition.
Qed.

Lemma insert_NoDup (k : string) (l : list string) :
  ~ In k l -> List.NoDup l -> List.NoDup (insert k l).
Proof.
  induction l as [|k' l IH]; simpl; intros Hn Hnd.
  - constructor; [simpl; tauto|constructor].
  - destruct (String.leb k k').
    + constructor; [simpl; tauto|exact Hnd].
    + apply List.NoDup_cons_iff in Hnd as [Hk' Hnd].
      constructor; [rewrite insert_In; intuition congruence|].
      apply IH; tauto.
Qed.

Lemma sort_NoDup (l : list string) : List.NoDup l -> List.NoDup (sort l).
Proof.
  induction l as [|k l IH]; simpl; intros Hnd; [constructor|].
  apply List.NoDup_cons_iff in Hnd as [Hk Hnd].
  apply insert_NoDup; [rewrite sort_In; exact Hk|apply IH; exact Hnd].
Qed.

Lemma function_names_In (k : string) (ps : list (string * value)) :
  List.NoDup (List.map fst ps) ->
  In k (List.map fst (List.filter (fun p => isFunction (snd p)) ps))
  <-> exists v, lookup k ps = Some v /\ isFunction v = true.
Proof.
  induction ps as [|[k' v'] ps IH]; simpl; intros Hnd.
  - split; [tauto|]. intros (v & H & _). discriminate.
  - apply List.NoDup_cons_iff in Hnd as [Hnotin Hnd]. specialize (IH Hnd).
    destruct (String.eqb_spec k k') as [->|Hne].
    + split.
      * destruct (isFunction v') eqn:Hf; simpl.
        -- intros _. exists v'. auto.
        -- intros Hin. apply IH in Hin as (v & Hv & _).
           apply lookup_In_keys in Hv. tauto.
      * intros (v & [= <-] & Hf). rewrite Hf. simpl. auto.
    + destruct (isFunction v'); simpl; rewrite IH; intuition congruence.
Qed.

Lemma function_names_NoDup (ps : list (string * value)) :
  List.NoDup (List.map fst ps) ->
  List.NoDup (List.map fst (List.filter (fun p => isFunction (snd p)) ps)).
Proof.
  induction ps as [|[k v] ps IH]; simpl; intros Hnd; [constructor|].
  apply List.NoDup_cons_iff in Hnd as [Hnotin Hnd].
  destruct (isFunction v); simpl; [|apply IH; exact Hnd].
  constructor; [|apply IH; exact Hnd].
  intros Hin. apply Hnotin. apply in_map_iff in Hin as ([k' v'] & <- & Hin).
  apply filter_In in Hin as [Hin _]. apply in_map_iff. exists (k', v'). auto.
Qed.

(** The names listed by [functions] are those of the function-valued
    members, each once. *)
Lemma functions_In (k : string) (ps : list (string * value)) :
  List.NoDup (List.map fst ps) ->
  In k (functions (VObj ps))
  <-> exists v, lookup k ps = Some v /\ isFunction v = true.
Proof.
  intros Hnd. unfold functions. simpl. rewrite sort_In.
  apply function_names_In. exact Hnd.
Qed.

Lemma functions_NoDup (ps : list (string * value)) :
  List.NoDup (List.map fst ps) -> List.NoDup (functions (VObj ps)).
Proof.
  intros Hnd. unfold functions. simpl. apply sort_NoDup.
  apply function_names_NoDup. exact Hnd.
Qed.

(** A collection wrapped by [extend({}, object(pairs(o)), object(ws))]:
    a member is looked up among the wrappers first. *)
Lemma extend_lookup (k : string) (ps ws : list (string * value)) :
  List.NoDup (List.map fst ps) ->
  List.NoDup (List.map fst ws) ->
  prop (extend (VObj []) [object (pairs (VObj ps)); object ws]) k
  = default VUndefined
      (match lookup k ws with Some v => Some v | None => lookup k ps end).
Proof.
  intros Hps Hws. unfold pairs. simpl own_props.
  rewrite (object_copy ps Hps), (object_copy ws Hws).
  unfold prop, extend. simpl. f_equal.
  rewrite (lookup_fold_assign k ws Hws).
  rewrite (fold_assign_fresh ps [] Hps). reflexivity.
Qed.

End UnderscoreFacts.

(** ** Router *)

Module RouterFacts.
Import JS JSFacts Router RouterNotions.

Lemma mark_object (trusted : bool) (err : value) :
  is_object err = true -> mark trusted err = Ok (flagged trusted err).
Proof.
  intros Hobj. unfold mark, flagged, needs_bailout, prop.
  destruct trusted; [reflexivity|].
  destruct err as [| | | | |ps|c n ps|ext ro ps]; try discriminate; simpl.
  - destruct (truthy (default VUndefined (lookup "status" ps))); [reflexivity|].
    destruct (truthy (default VUndefined (lookup "statusCode" ps))); reflexivity.
  - destruct (truthy (default VUndefined (lookup "status" ps))); [reflexivity|].
    destruct (truthy (default VUndefined (lookup "statusCode" ps))); reflexivity.
Qed.

Lemma object_truthy (v : value) : is_object v = true -> truthy v = true.
Proof. destruct v; simpl; congruence. Qed.

Lemma error_object (trusted : bool) (err : value) (st : state) :
  is_object err = true ->
  error trusted err st = (call_next Chain (Some (flagged trusted err)) st, Done).
Proof. intros H. unfold error. rewrite (mark_object _ _ H). reflexivity. Qed.

Lemma on_error_object (trusted : bool) (err : value) (st : state) :
  is_object err = true ->
  on_error trusted err st
  = (call_next Scope (Some (flagged trusted err)) st, Done).
Proof. intros H. unfold on_error. rewrite (mark_object _ _ H). reflexivity. Qed.

Lemma delivered_call_next (s : sink) (e : option value) (st : state) :
  delivered (call_next s e st)
  = (delivered st ++ match e with Some x => [x] | None => [] end)%list.
Proof.
  unfold delivered, call_next. simpl. rewrite omap_app. simpl.
  destruct e; reflexivity.
Qed.

Lemma callback_success (trusted : bool) (err val res : value) (st : state) :
  truthy err = false ->
  args st !! 1%nat = Some res ->
  is_object res = true ->
  callback trusted err val st
  = if truthy val then (attached res val st, Done) else (st, Done).
Proof.
  intros Herr Hres Hobj. unfold callback, attached. rewrite Herr, Hres. simpl.
  destruct (truthy val); [|reflexivity].
  destruct res; try discriminate; reflexivity.
Qed.

Lemma callback_falsy (trusted : bool) (err val : value) (st : state) :
  truthy err = false -> truthy val = false ->
  callback trusted err val st = (st, Done).
Proof. intros Herr Hval. unfold callback. rewrite Herr, Hval. reflexivity. Qed.

(** C3 (as stated, refuted): a handler that completes successfully with
    no value, be it while it is applied or later, leaves the request as
    it was: [next] is not called. *)
Lemma no_value_does_not_continue :
  callbackify (CallBack VUndefined VUndefined Return) true fresh_request
  = (fresh_request, Done)
  /\ callbackify (CallBack VUndefined VUndefined Return) false fresh_request
     = (fresh_request, Done)
  /\ occur false (Later VUndefined VUndefined) fresh_request
     = (fresh_request, Done)
  /\ nexts fresh_request = [].
Proof. repeat split. Qed.

(** C3 (amended): when a handler completes with no error, the adapter
    attaches the value to the response and calls [next()] with no
    argument if the value is truthy; otherwise, and so when there is no
    value, it changes nothing and does not call [next]. *)
Theorem success_continues_when_truthy
  (trusted : bool) (err val res : value) (st : state) :
  truthy err = false ->
  args st !! 1%nat = Some res ->
  is_object res = true ->
  let after := if truthy val then (attached res val st, Done) else (st, Done) in
  callback trusted err val st = after
  /\ callbackify (CallBack err val Return) trusted st = after
  /\ occur trusted (Later err val) st = after
  /\ (truthy val = true ->
      nexts (fst after) = (nexts st ++ [(Chain, None)])%list
      /\ exists res', args (fst after) !! 1%nat = Some res'
                      /\ prop res' "value" = val)
  /\ (truthy val = false -> nexts (fst after) = nexts st).
Proof.
  intros Herr Hres Hobj after.
  assert (Hcb : callback trusted err val st = after)
    by (apply callback_success; assumption).
  split; [exact Hcb|].
  split.
  { unfold callbackify. simpl. rewrite Hcb. subst after.
    destruct (truthy val); reflexivity. }
  split.
  { simpl. rewrite Hcb. subst after. destruct (truthy val); reflexivity. }
  subst after. split.
  - intros Hval. rewrite Hval. simpl. split; [reflexivity|].
    exists (with_props res (update "value" val (own_props res))). split.
    + apply list_lookup_insert_eq. apply lookup_lt_Some in Hres. exact Hres.
    + destruct res; try discriminate; unfold prop; simpl;
        rewrite lookup_update_eq; reflexivity.
  - intros Hval. rewrite Hval. reflexivity.
Qed.

Lemma success_continues_when_truthy_witness :
  truthy VUndefined = false
  /\ args fresh_request !! 1%nat = Some (VObj [])
  /\ is_object (VObj []) = true
  /\ callback false VUndefined (VNum 42) fresh_request
     = (attached (VObj []) (VNum 42) fresh_request, Done).
Proof.
  split; [reflexivity|]. split; [reflexivity|]. split; [reflexivity|].
  exact (proj1 (success_continues_when_truthy false VUndefined (VNum 42)
                  (VObj []) fresh_request eq_refl eq_refl eq_refl)).
Defined.

(** C10: continuation after a successful completion follows the
    truthiness of the value: with no error and a falsy value, such as
    [0], the empty string, [false] or [null], the value is not attached,
    [next] is not called, and the request is left exactly as in the
    no-value case. *)
Theorem falsy_value_is_dropped (trusted : bool) (err val : value) (st : state) :
  truthy err = false ->
  truthy val = false ->
  callback trusted err val st = (st, Done)
  /\ callback trusted err val st = callback trusted err VUndefined st
  /\ callbackify (CallBack err val Return) trusted st = (st, Done)
  /\ occur trusted (Later err val) st = (st, Done)
  /\ Forall (fun v => truthy v = false) [VNum 0; VStr ""; VBool false; VNull].
Proof.
  intros Herr Hval.
  assert (H : callback trusted err val st = (st, Done))
    by (apply callback_falsy; assumption).
  split; [exact H|]. split.
  { rewrite H. symmetry. apply callback_falsy; [assumption|reflexivity]. }
  split; [unfold callbackify; simpl; rewrite H; reflexivity|].
  split; [simpl; rewrite H; reflexivity|].
  repeat constructor.
Qed.

Lemma falsy_value_is_dropped_witness :
  truthy VNull = false /\ truthy (VNum 0) = false
  /\ callback false VNull (VNum 0) fresh_request = (fresh_request, Done).
Proof.
  split; [reflexivity|]. split; [reflexivity|].
  exact (proj1 (falsy_value_is_dropped false VNull (VNum 0) fresh_request
                  eq_refl eq_refl)).
Defined.

(** An error that needs no flag is handed on as it is. *)
Lemma mark_unflagged (trusted : bool) (err : value) :
  needs_bailout trusted err = false -> mark trusted err = Ok err.
Proof.
  unfold needs_bailout, mark, prop. destruct trusted; [reflexivity|].
  destruct err as [| | | | |ps|c n ps|ext ro ps]; try discriminate; simpl;
    destruct (truthy (default VUndefined (lookup "status" ps)));
    try reflexivity;
    destruct (truthy (default VUndefined (lookup "statusCode" ps)));
    try reflexivity; discriminate.
Qed.

(** An error that can take the flag receives it when it needs it. *)
Lemma mark_takes (trusted : bool) (err : value) :
  takes err "bailout" = true -> mark trusted err = Ok (flagged trusted err).
Proof.
  intros Htakes.
  destruct (needs_bailout trusted err) eqn:Hneed.
  2: { unfold flagged. rewrite Hneed. exact (mark_unflagged trusted err Hneed). }
  destruct err as [| | | | |ps|c n ps|ext ro ps];
    try (cbv in Htakes; discriminate Htakes);
    try (apply mark_object; reflexivity).
  unfold flagged. rewrite Hneed. unfold needs_bailout, prop in Hneed.
  unfold mark. destruct trusted; [discriminate|]. cbn [get] in *.
  cbn [negb andb mbind result_bind] in *.
  destruct (truthy (default VUndefined (lookup "status" ps))); [discriminate|].
  destruct (truthy (default VUndefined (lookup "statusCode" ps)));
    [discriminate|].
  unfold takes in Htakes. cbn [set] in *.
  destruct (existsb (String.eqb "bailout") ro); [discriminate|].
  destruct (match lookup "bailout" ps with Some _ => true | None => ext end);
    [reflexivity|discriminate].
Qed.

Lemma mark_settled (trusted : bool) (err : value) :
  needs_bailout trusted err = false \/ takes err "bailout" = true ->
  mark trusted err = Ok (flagged trusted err).
Proof.
  intros [Hno|Htakes]; [|exact (mark_takes trusted err Htakes)].
  unfold flagged. rewrite Hno. exact (mark_unflagged trusted err Hno).
Qed.

(** C5 (as stated, refuted): a string or a frozen error object thrown
    by an untrusted handler is never delivered to [next], the adapter
    raises a TypeError instead; an error whose [status] field is present
    but falsy receives the bailout flag; and a handler that reports an
    error and then throws has two errors delivered in one request. *)
Lemma bailout_rule_fails :
  callbackify (Raise (VStr "boom")) false fresh_request
  = (fresh_request, Raised TypeError)
  /\ callbackify (Raise (frozen [("message", VStr "gone")])) false
       fresh_request
     = (fresh_request, Raised TypeError)
  /\ delivered fresh_request = []
  /\ lookup "status" [("message", VStr "gone"); ("status", VNum 0)]
     = Some (VNum 0)
  /\ callbackify
       (Raise (VObj [("message", VStr "gone"); ("status", VNum 0)]))
       false fresh_request
     = (call_next Chain
          (Some (VObj [("message", VStr "gone"); ("status", VNum 0);
                       ("bailout", VBool true)]))
          fresh_request,
        Done)
  /\ delivered
       (fst (callbackify
               (CallBack (VObj [("status", VNum 503)]) VUndefined
                  (Raise (VObj [("status", VNum 500)])))
               false fresh_request))
     = [VObj [("status", VNum 503)]; VObj [("status", VNum 500)]].
Proof. repeat split. Qed.

(** C5 (amended): an error that can take the bailout flag (an object on
    which the assignment of [bailout] succeeds: not a primitive value,
    not frozen) or that needs none, whether the handler throws it,
    passes it to its callback (while it is applied or later) or the
    fault scope catches it, is delivered by one call [next(error)]; on
    the way the bailout flag is put on it if and only if the router is
    untrusted and neither its [status] nor its [statusCode] is truthy.
    With a trusted router the error reaches [next] as it was thrown. *)
Theorem error_object_reaches_next_once
  (trusted : bool) (err val : value) (st : state) :
  truthy err = true ->
  needs_bailout trusted err = false \/ takes err "bailout" = true ->
  let e := flagged trusted err in
  callbackify (Raise err) trusted st = (call_next Chain (Some e) st, Done)
  /\ callbackify (CallBack err val Return) trusted st
     = (call_next Chain (Some e) st, Done)
  /\ occur trusted (Later err val) st = (call_next Chain (Some e) st, Done)
  /\ occur trusted (Fault err) st = (call_next Scope (Some e) st, Done)
  /\ (forall s, delivered (call_next s (Some e) st) = (delivered st ++ [e])%list)
  /\ (needs_bailout trusted err = true
      <-> trusted = false /\ truthy (prop err "status") = false
          /\ truthy (prop err "statusCode") = false)
  /\ (needs_bailout trusted err = true -> prop e "bailout" = VBool true)
  /\ (needs_bailout trusted err = false -> e = err)
  /\ (trusted = true -> e = err).
Proof.
  intros Htruthy Hcan e.
  pose proof (mark_settled trusted err Hcan) as Hmark.
  assert (Herror : error trusted err st = (call_next Chain (Some e) st, Done)).
  { unfold error. rewrite Hmark. reflexivity. }
  assert (Hcb : callback trusted err val st = (call_next Chain (Some e) st, Done)).
  { unfold callback. rewrite Htruthy. exact Herror. }
  split; [unfold callbackify; simpl; exact Herror|].
  split; [unfold callbackify; simpl; rewrite Hcb; reflexivity|].
  split; [simpl; rewrite Hcb; reflexivity|].
  split; [simpl; unfold on_error; rewrite Hmark; reflexivity|].
  split; [intros s; apply delivered_call_next|].
  split.
  { unfold needs_bailout. rewrite !andb_true_iff, !negb_true_iff. tauto. }
  split.
  { intros Hneed. destruct Hcan as [Hno|Htakes]; [congruence|].
    subst e. unfold flagged. rewrite Hneed.
    destruct err; try discriminate; unfold prop; simpl;
      rewrite lookup_update_eq; reflexivity. }
  split.
  { intros Hneed. subst e. unfold flagged. rewrite Hneed. reflexivity. }
  intros ->. reflexivity.
Qed.

Lemma error_object_reaches_next_once_witness :
  truthy (VObj [("message", VStr "down")]) = true
  /\ takes (VObj [("message", VStr "down")]) "bailout" = true
  /\ callbackify (Raise (VObj [("message", VStr "down")])) false fresh_request
     = (call_next Chain
          (Some (VObj [("message", VStr "down"); ("bailout", VBool true)]))
          fresh_request,
        Done).
Proof.
  split; [reflexivity|]. split; [reflexivity|].
  exact (proj1 (error_object_reaches_next_once false
                  (VObj [("message", VStr "down")]) VUndefined fresh_request
                  eq_refl (or_intror eq_refl))).
Defined.

End RouterFacts.

(** ** Retry *)

Module RetryFacts.
Import JS JSFacts Retry RetryNotions.

Section Attempts.

Variable draw : nat -> Q -> Q.
Variable late : nat -> Q.
Variable app : nat -> value * value * Q.
Variable opt : config.

Abbreviation err_of k := (fst (fst (app k))).
Abbreviation val_of k := (snd (fst (app k))).
Abbreviation dur_of k := (snd (app k)).

Lemma op_retry_again (op : operation) (e : value) :
  policy op = opt ->
  truthy e = true ->
  Z.of_nat (index op) < retries opt ->
  op_retry draw e op
  = (Some (wait draw opt (S (index op))),
     Operation opt (S (index op)) (errors op ++ [e])).
Proof.
  intros Hp He Hlt. unfold op_retry. rewrite He, Hp.
  destruct (Z.ltb_spec (Z.of_nat (index op)) (retries opt)); [reflexivity|lia].
Qed.

Lemma op_retry_exhausted (op : operation) (e : value) :
  policy op = opt ->
  truthy e = true ->
  retries opt <= Z.of_nat (index op) ->
  op_retry draw e op = (None, Operation opt (index op) (errors op ++ [e])).
Proof.
  intros Hp He Hge. unfold op_retry. rewrite He, Hp.
  destruct (Z.ltb_spec (Z.of_nat (index op)) (retries opt)); [lia|reflexivity].
Qed.

Lemma attempt_unfold (fuel : nat) (op : operation) (t : Q) :
  attempt draw late app (S fuel) op t
  = Attempt (index op) t ::
      match intercept draw (err_of (index op)) (val_of (index op)) op with
      | (op', inl ms) =>
          Timer (index op') ms (t + dur_of (index op))
            :: attempt draw late app fuel op'
                 (t + dur_of (index op) + ms + late (index op'))
      | (_, inr (e, v)) => [Callback e v (t + dur_of (index op))]
      end.
Proof. simpl. destruct (app (index op)) as [[e v] d]. reflexivity. Qed.

(** When every attempt fails, the attempts run up to the last index and
    the callback receives the head of the error list. *)
Lemma attempt_all_fail (r : nat) :
  (forall k, truthy (err_of k) = true) ->
  r = Z.to_nat (retries opt) ->
  forall (fuel : nat) (op : operation) (t : Q),
    policy op = opt ->
    (index op + fuel = S r)%nat ->
    (1 <= fuel)%nat ->
    applied (attempt draw late app fuel op t) = seq (index op) fuel
    /\ called_back (attempt draw late app fuel op t)
       = [(default VUndefined ((errors op ++ [err_of (index op)]) !! 0%nat),
           val_of r)].
Proof.
  intros Hfail Hr. induction fuel as [|fuel IH]; intros op t Hp Hidx Hfuel; [lia|].
  rewrite attempt_unfold. unfold intercept.
  destruct (Z.ltb_spec (Z.of_nat (index op)) (retries opt)) as [Hlt|Hge].
  - rewrite (op_retry_again op _ Hp (Hfail _) Hlt). simpl.
    assert (Hfuel' : (1 <= fuel)%nat) by lia.
    destruct (IH (Operation opt (S (index op)) (errors op ++ [err_of (index op)]))
                 (t + dur_of (index op) + wait draw opt (S (index op))
                  + late (S (index op)))%Q
                 eq_refl ltac:(simpl; lia) Hfuel') as [IHa IHc].
    simpl in IHa, IHc. split.
    + f_equal. exact IHa.
    + rewrite IHc. f_equal. f_equal.
      rewrite <- app_assoc.
      destruct (errors op) as [|e0 es]; reflexivity.
  - rewrite (op_retry_exhausted op _ Hp (Hfail _) Hge). simpl.
    rewrite (Hfail (index op)). simpl.
    assert (index op = r /\ fuel = 0%nat) as [Hi ->] by lia.
    rewrite Hi. split; reflexivity.
Qed.

(** Up to attempt [k], reached after [k] failures, the trace arms the
    timer of attempt [k] with its wait and applies the function when the
    timer fires. *)
Lemma attempt_reaches (k : nat) :
  (forall j, (j < k)%nat -> truthy (err_of j) = true) ->
  Z.of_nat k <= retries opt ->
  forall (fuel : nat) (op : operation) (t : Q),
    policy op = opt ->
    (index op < k)%nat ->
    (k < index op + fuel)%nat ->
    exists pre post armed,
      attempt draw late app fuel op t
      = (pre ++ Timer k (wait draw opt k) armed
             :: Attempt k (armed + wait draw opt k + late k) :: post)%list.
Proof.
  intros Hfail Hk. induction fuel as [|fuel IH]; intros op t Hp Hlt Hfuel; [lia|].
  rewrite attempt_unfold. unfold intercept.
  rewrite (op_retry_again op _ Hp (Hfail _ Hlt)) by lia. simpl.
  destruct (Nat.eq_dec (S (index op)) k) as [Heq|Hne].
  - destruct fuel as [|fuel]; [lia|].
    rewrite attempt_unfold. simpl index. rewrite Heq.
    eexists [Attempt (index op) t], _, _. simpl. reflexivity.
  - destruct (IH (Operation opt (S (index op)) (errors op ++ [err_of (index op)]))
                 (t + dur_of (index op) + wait draw opt (S (index op))
                  + late (S (index op)))%Q
                 eq_refl ltac:(simpl; lia) ltac:(simpl; lia))
      as (pre & post & armed & Heq).
    rewrite Heq.
    eexists (Attempt (index op) t
               :: Timer (S (index op)) (wait draw opt (S (index op)))
                    (t + dur_of (index op)) :: pre), post, armed.
    reflexivity.
Qed.

Lemma delay_nonneg (k : nat) :
  (0 <= minTimeout opt)%Q -> (0 <= maxTimeout opt)%Q -> (0 <= factor opt)%Q ->
  (0 <= delay opt k)%Q.
Proof.
  intros Hmin Hmax Hf. unfold delay. apply Q.min_glb; [exact Hmax|].
  apply Qmult_le_0_compat; [exact Hmin|]. apply Qpower_0_le. exact Hf.
Qed.

(** Whatever the wrapped function does, the caller's callback is called
    exactly once. *)
Lemma attempt_calls_back_once :
  forall (fuel : nat) (op : operation) (t : Q),
    policy op = opt ->
    (Z.to_nat (retries opt) < index op + fuel)%nat ->
    (1 <= fuel)%nat ->
    length (called_back (attempt draw late app fuel op t)) = 1%nat.
Proof.
  induction fuel as [|fuel IH]; intros op t Hp Hidx Hfuel; [lia|].
  rewrite attempt_unfold. unfold intercept, op_retry. rewrite Hp.
  destruct (truthy (err_of (index op))); [|reflexivity].
  destruct (Z.ltb_spec (Z.of_nat (index op)) (retries opt)) as [Hlt|Hge];
    [|reflexivity].
  simpl. apply IH; simpl; [reflexivity|lia|lia].
Qed.

End Attempts.

Lemma wrapper_calls_back_once
  (draw : nat -> Q -> Q) (late : nat -> Q) (app : nat -> value * value * Q)
  (opt : config) (t : Q) :
  length (called_back (wrapper draw late app opt t)) = 1%nat.
Proof.
  unfold wrapper.
  apply (attempt_calls_back_once draw late app opt); simpl; [reflexivity|lia|lia].
Qed.

(** *** Wrapping a collection *)

Lemma retryfn_bound (f o : value) (n : string) (F : value)
  (retries : option Z) (min max factor : option Q) (random : option bool) :
  exists w,
    retryfn (VFun (Bound f o) n [("fname", F)]) retries min max factor random
    = Ok w
    /\ Underscore.isFunction w = true
    /\ prop w "fname" = JS.or F (VStr n).
Proof.
  unfold retryfn. simpl. unfold JS.or.
  destruct (truthy F); simpl; eexists; repeat split.
Qed.

Lemma retried_members_ok (o : value) (retries : option Z) (min max factor : option Q)
  (random : option bool) (ks : list string) :
  (forall k, In k ks -> Underscore.isFunction (prop o k) = true) ->
  exists ws,
    wrap_members o retries min max factor random ks = Ok ws
    /\ List.map fst ws = ks
    /\ forall k w, lookup k ws = Some w ->
         Underscore.isFunction w = true
         /\ exists c n p,
              prop o k = VFun c n p
              /\ prop w "fname"
                 = JS.or (Adapter.nbind_fname o k) (VStr ("bound " ++ n)).
Proof.
  induction ks as [|k ks IH]; intros Hfun.
  - exists []. repeat split; discriminate.
  - destruct IH as (ws & Hws & Hkeys & Hall).
    { intros k' Hin. apply Hfun. right. exact Hin. }
    pose proof (Hfun k (or_introl eq_refl)) as Hk.
    destruct (prop o k) as [| | | | | |c n p|] eqn:Hp; try discriminate.
    destruct (retryfn_bound (VFun c n p) o ("bound " ++ n)
                (Adapter.nbind_fname o k) retries min max factor random)
      as (w & Hw & Hwf & Hname).
    exists ((k, w) :: ws).
    assert (Hnb : Adapter.nbind o k
                  = Ok (VFun (Bound (VFun c n p) o) ("bound " ++ n)
                          [("fname", Adapter.nbind_fname o k)])).
    { unfold Adapter.nbind. rewrite Hp. reflexivity. }
    cbn [wrap_members]. rewrite Hnb. cbn [mbind result_bind].
    rewrite Hw. cbn [mbind result_bind]. rewrite Hws.
    split; [reflexivity|]. split; [simpl; rewrite Hkeys; reflexivity|].
    intros k' w' Hl. simpl in Hl.
    destruct (String.eqb_spec k' k) as [->|Hne].
    + injection Hl as <-. split; [exact Hwf|]. exists c, n, p. auto.
    + apply Hall. exact Hl.
Qed.

(** What [retry] answers for a collection: every name is kept, a member
    that is not callable is unchanged, and a callable member is replaced
    by a wrapper whose [fname] is the name computed by [nbind]. *)
Lemma retry_collection (ps : list (string * value))
  (retries : option Z) (min max factor : option Q) (random : option bool) :
  List.NoDup (List.map fst ps) ->
  exists r,
    retry (VObj ps) retries min max factor random = Ok r
    /\ (forall k x, lookup k ps = Some x -> Underscore.isFunction x = false ->
                   prop r k = x)
    /\ (forall k, lookup k ps = None -> prop r k = VUndefined)
    /\ (forall k c n p, lookup k ps = Some (VFun c n p) ->
          Underscore.isFunction (prop r k) = true
          /\ prop (prop r k) "fname"
             = JS.or (Adapter.nbind_fname (VObj ps) k) (VStr ("bound " ++ n))).
Proof.
  intros Hnd.
  destruct (retried_members_ok (VObj ps) retries min max factor random
              (Underscore.functions (VObj ps)))
    as (ws & Hws & Hkeys & Hall).
  { intros k Hin.
    apply (UnderscoreFacts.functions_In k ps Hnd) in Hin as (v & Hv & Hf).
    unfold prop. simpl. rewrite Hv. exact Hf. }
  assert (Hwnd : List.NoDup (List.map fst ws)).
  { rewrite Hkeys. apply UnderscoreFacts.functions_NoDup. exact Hnd. }
  assert (Hnone : forall k,
             (forall v, lookup k ps = Some v -> Underscore.isFunction v = false) ->
             lookup k ws = None).
  { intros k Hno. apply UnderscoreFacts.lookup_None. rewrite Hkeys. intros Hin.
    apply (UnderscoreFacts.functions_In k ps Hnd) in Hin as (v & Hv & Hf).
    rewrite (Hno v Hv) in Hf. discriminate. }
  exists (Underscore.extend (VObj [])
            [Underscore.object (Underscore.pairs (VObj ps));
             Underscore.object ws]).
  split.
  { unfold retry. simpl Underscore.isFunction. cbv iota.
    cbn [mbind mret result_bind result_ret]. rewrite Hws. reflexivity. }
  split.
  { intros k x Hk Hf.
    rewrite (UnderscoreFacts.extend_lookup k ps ws Hnd Hwnd), Hnone, Hk;
      [reflexivity|]. intros v Hv. congruence. }
  split.
  { intros k Hk.
    rewrite (UnderscoreFacts.extend_lookup k ps ws Hnd Hwnd), Hnone, Hk;
      [reflexivity|]. intros v Hv. congruence. }
  intros k c n p Hk.
  rewrite (UnderscoreFacts.extend_lookup k ps ws Hnd Hwnd).
  destruct (lookup k ws) as [w|] eqn:Hw.
  - destruct (Hall k w Hw) as (Hf & c' & n' & p' & Hp & Hname).
    unfold prop in Hp. simpl in Hp. rewrite Hk in Hp. simpl in Hp.
    injection Hp as <- <- <-. simpl. split; [exact Hf|exact Hname].
  - exfalso.
    assert (Hin : In k (List.map fst ws)).
    { rewrite Hkeys. apply (UnderscoreFacts.functions_In k ps Hnd).
      eexists. split; [exact Hk|reflexivity]. }
    destruct (UnderscoreFacts.lookup_listed k ws Hin) as [w Hw'].
    rewrite Hw' in Hw. discriminate.
Qed.

(** C2 (as stated, refuted): the function fails three times, each time
    passing a value along with its error; the caller receives the first
    error together with the value of the last attempt. *)
Lemma exhausted_call_forwards_value :
  let app (k : nat) := (VNum (Z.of_nat k + 1), VStr "stale", 0%Q) in
  let tr := wrapper (fun _ d => d) (fun _ => 0%Q) app
              (options (Some 2) None None None (Some false)) 0 in
  applied tr = [0; 1; 2]%nat
  /\ called_back tr = [(VNum 1, VStr "stale")]
  /\ VStr "stale" <> VUndefined.
Proof. repeat split. discriminate. Qed.

(** C2 (amended): with [retries = r], a function that fails on every
    attempt is applied exactly [r + 1] times, after which the caller's
    callback is called exactly once, with the error of attempt 0 and
    with the second argument that the last attempt passed along with its
    error: no result when the function reports its failure with an
    error alone. *)
Theorem exhausted_retries_report_first_error
  (draw : nat -> Q -> Q) (late : nat -> Q) (app : nat -> value * value * Q)
  (opt : config) (t : Q) :
  0 <= retries opt ->
  (forall k, truthy (fst (fst (app k))) = true) ->
  let r := Z.to_nat (retries opt) in
  let tr := wrapper draw late app opt t in
  applied tr = seq 0 (S r)
  /\ Z.of_nat (length (applied tr)) = retries opt + 1
  /\ called_back tr = [(fst (fst (app 0%nat)), snd (fst (app r)))]
  /\ (snd (fst (app r)) = VUndefined ->
      called_back tr = [(fst (fst (app 0%nat)), VUndefined)]).
Proof.
  intros Hr Hfail r tr.
  destruct (attempt_all_fail draw late app opt r Hfail eq_refl (S r)
              (operation_new opt) t eq_refl ltac:(simpl; lia) ltac:(lia))
    as [Ha Hc].
  change (applied tr = seq 0 (S r)) in Ha.
  change (called_back tr = [(fst (fst (app 0%nat)), snd (fst (app r)))]) in Hc.
  split; [exact Ha|]. split; [rewrite Ha, length_seq; lia|].
  split; [exact Hc|]. intros Hv. rewrite Hc, Hv. reflexivity.
Qed.

Lemma exhausted_retries_report_first_error_witness :
  let app (k : nat) := (VNum (Z.of_nat k + 1), VUndefined, 3%Q) in
  let opt := options None None None None None in
  0 <= retries opt
  /\ (forall k, truthy (fst (fst (app k))) = true)
  /\ called_back (wrapper (fun _ d => (d / 2)%Q) (fun _ => 1%Q) app opt 0)
     = [(VNum 1, VUndefined)].
Proof.
  intros app opt.
  assert (Hr : 0 <= retries opt) by (simpl; lia).
  assert (Hfail : forall k, truthy (fst (fst (app k))) = true).
  { intros k. simpl. destruct (Z.eqb_spec (Z.of_nat k + 1) 0); [lia|reflexivity]. }
  split; [exact Hr|]. split; [exact Hfail|].
  exact (proj1 (proj2 (proj2
    (exhausted_retries_report_first_error (fun _ d => (d / 2)%Q)
       (fun _ => 1%Q) app opt 0 Hr Hfail)))).
Defined.

(** The share of a draw lies in [0, 1], and a timer is never early. *)
Lemma share_bounds (x : Q) : (0 <= share x <= 1)%Q.
Proof.
  unfold share. split; [apply Q.le_max_l|].
  apply Q.max_lub; [discriminate|apply Q.le_min_l].
Qed.

Lemma drawn_bounds (u : nat -> Q) (k : nat) (bound : Q) :
  (0 <= bound)%Q -> (0 <= drawn u k bound <= bound)%Q.
Proof.
  intros Hb. unfold drawn. destruct (share_bounds (u k)) as [H0 H1]. split.
  - apply Qmult_le_0_compat; assumption.
  - rewrite <- (Qmult_1_l bound) at 2. apply Qmult_le_compat_r; assumption.
Qed.

Lemma overdue_nonneg (l : nat -> Q) (k : nat) : (0 <= overdue l k)%Q.
Proof. apply Q.le_max_l. Qed.

(** C6: attempt 0 is applied at the time of the call, with no timer
    before it.  Attempt [k >= 1], reached after [k] failures, is
    preceded by a timer; the function is not applied before the timer
    has run its wait; without [randomize] the wait is
    [min(max, min * factor^(k-1))], and with [randomize] it lies
    between 0 and that value, both included (for delays and a factor
    that are not negative).  The delays, the factor and [randomize] are
    the arguments of [retry], or 50, 500, 2 and [true] for those left
    out; at most 5 retries are made when their number is left out. *)
Theorem backoff_before_attempt
  (u l : nat -> Q) (app : nat -> value * value * Q)
  (retries : option Z) (min max factor : option Q) (random : option bool)
  (t : Q) (k : nat) :
  let d := Qmin (default 500%Q max)
             (default 50%Q min * default 2%Q factor ^ (Z.of_nat k - 1)) in
  let tr := wrapper (drawn u) (overdue l) app
              (options retries min max factor random) t in
  (1 <= k)%nat -> Z.of_nat k <= default 5 retries ->
  (forall j, (j < k)%nat -> truthy (fst (fst (app j))) = true) ->
  (exists post, tr = Attempt 0 t :: post)
  /\ exists pre post armed fired ms,
       tr = pre ++ Timer k ms armed :: Attempt k fired :: post
       /\ (armed + ms <= fired)%Q
       /\ (default true random = false -> ms = d)
       /\ (default true random = true ->
           (0 <= default 50 min)%Q -> (0 <= default 500 max)%Q ->
           (0 <= default 2 factor)%Q ->
           (0 <= ms <= d)%Q).
Proof.
  intros d tr Hk Hkr Hfail.
  set (opt := options retries min max factor random) in *.
  assert (Hret : Retry.retries opt = default 5 retries)
    by (destruct retries; reflexivity).
  assert (Hd : delay opt k = d)
    by (destruct min, max, factor; reflexivity).
  assert (Hrand : randomize opt = default true random)
    by (destruct random; reflexivity).
  split.
  { subst tr. unfold wrapper. rewrite attempt_unfold. eexists. reflexivity. }
  assert (Hkr' : Z.of_nat k <= Retry.retries opt) by (rewrite Hret; exact Hkr).
  assert (Hfuel : (k < 0 + S (Z.to_nat (Retry.retries opt)))%nat) by lia.
  destruct (attempt_reaches (drawn u) (overdue l) app opt k Hfail Hkr'
              (S (Z.to_nat (Retry.retries opt))) (operation_new opt) t eq_refl
              Hk Hfuel)
    as (pre & post & armed & Heq).
  exists pre, post, armed,
    (armed + wait (drawn u) opt k + overdue l k)%Q, (wait (drawn u) opt k).
  split; [exact Heq|]. split.
  { pose proof (overdue_nonneg l k) as Hl. lra. }
  unfold wait. rewrite Hrand, Hd. split.
  - intros ->. reflexivity.
  - intros -> Hmin Hmax Hfac. apply drawn_bounds. rewrite <- Hd.
    apply delay_nonneg; destruct min, max, factor; assumption.
Qed.

Lemma backoff_before_attempt_witness :
  let app (j : nat) := (VStr "down", VUndefined, 1%Q) in
  exists pre post armed fired ms,
    wrapper (drawn (fun _ => 1 # 2)) (overdue (fun _ => 2%Q)) app
      (options None None None (Some (3 # 2)) (Some false)) 0
    = pre ++ Timer 3 ms armed :: Attempt 3 fired :: post
    /\ (armed + ms <= fired)%Q
    /\ ms = Qmin 500 (50 * (3 # 2) ^ 2).
Proof.
  intros app.
  destruct (proj2 (backoff_before_attempt (fun _ => 1 # 2) (fun _ => 2%Q) app
                     None None None (Some (3 # 2)) (Some false) 0 3%nat
                     ltac:(lia) ltac:(simpl; lia)
                     ltac:(intros j _; reflexivity)))
    as (pre & post & armed & fired & ms & Heq & Hle & Hd & _).
  exists pre, post, armed, fired, ms.
  split; [exact Heq|]. split; [exact Hle|]. exact (Hd eq_refl).
Defined.

(** With the defaults of [options] and no [randomize], the waits of a
    call that always fails are 50, 100, 200, 400 and 500 milliseconds;
    with a factor of 3/2 and a limit of 100 milliseconds they are 50,
    75 and 100 milliseconds. *)
Example default_backoff :
  let app (j : nat) := (VStr "down", VUndefined, 0%Q) in
  let waits tr :=
    omap (fun e => match e with Timer _ ms _ => Some ms | _ => None end) tr in
  waits (wrapper (fun _ b => b) (fun _ => 0%Q) app
           (options None None None None (Some false)) 0)
  = [50; 100; 200; 400; 500]%Q
  /\ Forall2 Qeq
       (waits (wrapper (fun _ b => b) (fun _ => 0%Q) app
                 (options (Some 3) None (Some 100%Q) (Some (3 # 2)) (Some false))
                 0))
       [50; 75; 100]%Q.
Proof. split; [reflexivity|]. repeat constructor. Qed.

End RetryFacts.

(** ** Throttle: the accounts of the cells *)

Module ThrottleAccounts.
Import JS Throttle ThrottleNotions.

Lemma count_app (a : nat) (l l' : list (nat * nat)) :
  count a (l ++ l') = count a l + count a l'.
Proof. induction l as [|u l IH]; simpl; [reflexivity|]. rewrite IH. lia. Qed.

Lemma count_nonneg (a : nat) (l : list (nat * nat)) : 0 <= count a l.
Proof. induction l as [|u l IH]; simpl; [lia|]. destruct (Nat.eqb a (fst u)); lia. Qed.

Lemma count_remove1 (a : nat) (t : nat * nat) (l : list (nat * nat)) :
  member t l = true ->
  count a (remove1 t l) = count a l - one_at (fst t) a.
Proof.
  unfold one_at. induction l as [|u l IH]; simpl; [discriminate|].
  intros Hm. destruct (same t u) eqn:Hs.
  - unfold same in Hs. apply andb_true_iff in Hs as [Hf _].
    apply Nat.eqb_eq in Hf. rewrite Hf. lia.
  - simpl in Hm. simpl. rewrite (IH Hm). lia.
Qed.

Lemma one_at_same (a : nat) : one_at a a = 1.
Proof. unfold one_at. rewrite Nat.eqb_refl. reflexivity. Qed.

Lemma one_at_other (a a' : nat) : a <> a' -> one_at a a' = 0.
Proof.
  intros Hne. unfold one_at. destruct (Nat.eqb_spec a' a); [congruence|reflexivity].
Qed.

Lemma count_one (a a' c : nat) : count a' [(a, c)] = one_at a a'.
Proof. unfold one_at. simpl. lia. Qed.

(** [run] keeps the accounts, whatever is owed. *)
Lemma run_accounted (owed : nat -> Z) (a c : nat) (w w' : world) :
  accounted owed w -> run a c w = Some w' -> accounted owed w'.
Proof.
  intros Hinv Hrun. unfold run in Hrun.
  destruct (cells w !! a) as [cl|] eqn:Hcl; simpl in Hrun; [|discriminate].
  destruct (Hinv a cl Hcl) as [Hbal Hbound].
  pose proof (lookup_lt_Some _ _ _ Hcl) as Hlt.
  destruct (Z.eqb_spec (running cl) (max cl)) as [Heq|Hne];
    injection Hrun as <-; intros a' cl' Hcl'; simpl in *.
  - destruct (decide (a = a')) as [<-|Hna].
    + rewrite list_lookup_insert_eq in Hcl' by exact Hlt.
      injection Hcl' as <-. simpl. auto.
    + rewrite list_lookup_insert_ne in Hcl' by exact Hna. apply Hinv. exact Hcl'.
  - rewrite count_app, count_one.
    destruct (decide (a = a')) as [<-|Hna].
    + rewrite list_lookup_insert_eq in Hcl' by exact Hlt.
      injection Hcl' as <-. simpl. rewrite one_at_same. split; lia.
    + rewrite list_lookup_insert_ne in Hcl' by exact Hna.
      rewrite (one_at_other _ _ Hna). destruct (Hinv a' cl' Hcl'). split; lia.
Qed.

Lemma run_all_accounted (owed : nat -> Z) (l : list (nat * nat)) :
  forall w w', accounted owed w -> run_all l w = Some w' -> accounted owed w'.
Proof.
  induction l as [|[a c] l IH]; simpl; intros w w' Hinv Hrun.
  - injection Hrun as <-. exact Hinv.
  - destruct (run a c w) as [w1|] eqn:H1; simpl in Hrun; [|discriminate].
    eapply IH; [|exact Hrun]. eapply run_accounted; eauto.
Qed.

Lemma emit_accounted (owed : nat -> Z) (e : effect) (w : world) :
  accounted owed w -> accounted owed (emit e w).
Proof. intros Hinv a cl Hcl. exact (Hinv a cl Hcl). Qed.

(** The decrement settles what was owed at the address. *)
Lemma settle_accounted (a : nat) (w w' : world) :
  accounted (one_at a) w -> settle a w = Some w' -> accounted nothing w'.
Proof.
  intros Hinv Hs. unfold settle in Hs.
  destruct (cells w !! a) as [cl|] eqn:Hcl; simpl in Hs; [|discriminate].
  destruct (Hinv a cl Hcl) as [Hbal Hbound]. rewrite one_at_same in Hbal.
  pose proof (lookup_lt_Some _ _ _ Hcl) as Hlt.
  pose proof (count_nonneg a (flying w)) as Hf.
  pose proof (count_nonneg a (leaked w)) as Hl.
  destruct (queue cl) as [|next rest];
    injection Hs as <-; intros a' cl' Hcl'; simpl in *; unfold nothing.
  - destruct (decide (a = a')) as [<-|Hna].
    + rewrite list_lookup_insert_eq in Hcl' by exact Hlt.
      injection Hcl' as <-. simpl. split; lia.
    + rewrite list_lookup_insert_ne in Hcl' by exact Hna.
      destruct (Hinv a' cl' Hcl') as [Hb' Hm'].
      rewrite (one_at_other _ _ Hna) in Hb'. split; [lia|exact Hm'].
  - rewrite list_insert_insert_eq in Hcl'.
    destruct (decide (a = a')) as [<-|Hna].
    + rewrite list_lookup_insert_eq in Hcl' by exact Hlt.
      injection Hcl' as <-. simpl. split; lia.
    + rewrite list_lookup_insert_ne in Hcl' by exact Hna.
      destruct (Hinv a' cl' Hcl') as [Hb' Hm'].
      rewrite (one_at_other _ _ Hna) in Hb'. split; [lia|exact Hm'].
Qed.

Lemma touchdown_accounted (a c : nat) (w : world) :
  accounted nothing w -> member (a, c) (flying w) = true ->
  accounted (one_at a) (touchdown (a, c) w).
Proof.
  intros Hinv Hm a' cl' Hcl'. simpl in *.
  destruct (Hinv a' cl' Hcl') as [Hb Hm']. unfold nothing in Hb.
  rewrite (count_remove1 _ _ _ Hm). simpl. split; [lia|exact Hm'].
Qed.

Lemma leak_accounted (a c : nat) (w : world) :
  accounted (one_at a) w -> accounted nothing (leak (a, c) w).
Proof.
  intros Hinv a' cl' Hcl'. simpl in *.
  destruct (Hinv a' cl' Hcl') as [Hb Hm']. unfold nothing.
  rewrite count_app, count_one. split; [lia|exact Hm'].
Qed.

Lemma callback_accounted (cbs : nat -> cb_action) (a c : nat) (err val : value)
  (w w' : world) :
  accounted (one_at a) w -> callback cbs a c err val w = Some w' ->
  accounted nothing w'.
Proof.
  intros Hinv Hcb. unfold callback in Hcb.
  apply (emit_accounted _ (Forwarded a c err val)) in Hinv.
  destruct (cbs c) as [|exc|l|l].
  - eapply settle_accounted; eauto.
  - injection Hcb as <-. apply emit_accounted. apply leak_accounted. exact Hinv.
  - destruct (run_all l _) as [w2|] eqn:H2; simpl in Hcb; [|discriminate].
    eapply settle_accounted; [|exact Hcb]. eapply run_all_accounted; eauto.
  - eapply settle_accounted; [|exact Hcb].
    intros a' cl' Hcl'. exact (Hinv a' cl' Hcl').
Qed.

Lemma step_accounted (cbs : nat -> cb_action) (e : event) (w w' : world) :
  accounted nothing w -> step cbs w e = Some w' -> accounted nothing w'.
Proof.
  intros Hinv Hstep. destruct e as [a c|a c err val|]; simpl in Hstep.
  - eapply run_accounted; eauto.
  - destruct (member (a, c) (flying w)) eqn:Hm; [|discriminate].
    eapply callback_accounted; [|exact Hstep].
    apply touchdown_accounted; assumption.
  - destruct (ticks w) as [|[a c] rest]; [discriminate|].
    eapply run_accounted; [|exact Hstep].
    intros a' cl' Hcl'. exact (Hinv a' cl' Hcl').
Qed.

Lemma exec_accounted (cbs : nat -> cb_action) (es : list event) :
  forall w w', accounted nothing w -> exec cbs w es = Some w' ->
               accounted nothing w'.
Proof.
  induction es as [|e es IH]; simpl; intros w w' Hinv Hex.
  - injection Hex as <-. exact Hinv.
  - destruct (step cbs w e) as [w1|] eqn:H1; simpl in Hex; [|discriminate].
    eapply IH; [|exact Hex]. eapply step_accounted; eauto.
Qed.

Lemma boot_accounted (s : store) : fresh s -> accounted nothing (boot s).
Proof.
  intros Hfresh a cl Hcl. simpl in *.
  destruct (proj1 (Forall_lookup _ _) Hfresh a cl Hcl) as [Hr _].
  unfold nothing. rewrite Hr. split; lia.
Qed.

(** The limits never change. *)
Lemma insert_limits (a : nat) (cl cl' : cell) (s : list cell) :
  s !! a = Some cl -> max cl' = max cl ->
  max <$> <[a := cl']> s = max <$> s.
Proof.
  intros Hcl Hmax. rewrite list_fmap_insert, Hmax.
  apply list_insert_id. rewrite list_lookup_fmap, Hcl. reflexivity.
Qed.

Lemma run_limits (a c : nat) (w w' : world) :
  run a c w = Some w' -> limits w' = limits w.
Proof.
  unfold run. intros Hrun.
  destruct (cells w !! a) as [cl|] eqn:Hcl; simpl in Hrun; [|discriminate].
  destruct (running cl =? max cl); injection Hrun as <-;
    unfold limits; simpl; apply (insert_limits a cl); auto.
Qed.

Lemma run_all_limits (l : list (nat * nat)) :
  forall w w', run_all l w = Some w' -> limits w' = limits w.
Proof.
  induction l as [|[a c] l IH]; simpl; intros w w' Hrun.
  - injection Hrun as <-. reflexivity.
  - destruct (run a c w) as [w1|] eqn:H1; simpl in Hrun; [|discriminate].
    rewrite (IH _ _ Hrun). eapply run_limits; eauto.
Qed.

Lemma settle_limits (a : nat) (w w' : world) :
  settle a w = Some w' -> limits w' = limits w.
Proof.
  unfold settle. intros Hs.
  destruct (cells w !! a) as [cl|] eqn:Hcl; simpl in Hs; [|discriminate].
  destruct (queue cl) as [|next rest]; injection Hs as <-;
    unfold limits; simpl.
  - apply (insert_limits a cl); auto.
  - rewrite list_insert_insert_eq. apply (insert_limits a cl); auto.
Qed.

Lemma step_limits (cbs : nat -> cb_action) (e : event) (w w' : world) :
  step cbs w e = Some w' -> limits w' = limits w.
Proof.
  intros Hstep. destruct e as [a c|a c err val|]; simpl in Hstep.
  - eapply run_limits; eauto.
  - destruct (member (a, c) (flying w)); [|discriminate].
    unfold callback in Hstep. destruct (cbs c) as [|exc|l|l].
    + apply settle_limits in Hstep. exact Hstep.
    + injection Hstep as <-. reflexivity.
    + destruct (run_all l _) as [w2|] eqn:H2; simpl in Hstep; [|discriminate].
      apply settle_limits in Hstep. apply run_all_limits in H2.
      rewrite Hstep, H2. reflexivity.
    + apply settle_limits in Hstep. exact Hstep.
  - destruct (ticks w) as [|[a c] rest]; [discriminate|].
    apply run_limits in Hstep. exact Hstep.
Qed.

Lemma exec_limits (cbs : nat -> cb_action) (es : list event) :
  forall w w', exec cbs w es = Some w' -> limits w' = limits w.
Proof.
  induction es as [|e es IH]; simpl; intros w w' Hex.
  - injection Hex as <-. reflexivity.
  - destruct (step cbs w e) as [w1|] eqn:H1; simpl in Hex; [|discriminate].
    rewrite (IH _ _ Hex). eapply step_limits; eauto.
Qed.

Lemma limit_kept (w w' : world) (a : nat) (cl : cell) :
  limits w' = limits w -> cells w !! a = Some cl ->
  exists cl', cells w' !! a = Some cl' /\ max cl' = max cl.
Proof.
  unfold limits. intros Hl Hcl.
  assert (H : (max <$> cells w') !! a = Some (max cl))
    by (rewrite Hl, list_lookup_fmap, Hcl; reflexivity).
  rewrite list_lookup_fmap in H.
  destruct (cells w' !! a) as [cl'|]; [|discriminate].
  exists cl'. split; [reflexivity|]. simpl in H. congruence.
Qed.

(** A throwing callback is never forgotten. *)
Lemma run_leaked (a c : nat) (w w' : world) :
  run a c w = Some w' -> leaked w' = leaked w.
Proof.
  unfold run. intros Hrun.
  destruct (cells w !! a) as [cl|]; simpl in Hrun; [|discriminate].
  destruct (running cl =? max cl); injection Hrun as <-; reflexivity.
Qed.

Lemma run_all_leaked (l : list (nat * nat)) :
  forall w w', run_all l w = Some w' -> leaked w' = leaked w.
Proof.
  induction l as [|[a c] l IH]; simpl; intros w w' Hrun.
  - injection Hrun as <-. reflexivity.
  - destruct (run a c w) as [w1|] eqn:H1; simpl in Hrun; [|discriminate].
    rewrite (IH _ _ Hrun). eapply run_leaked; eauto.
Qed.

Lemma settle_leaked (a : nat) (w w' : world) :
  settle a w = Some w' -> leaked w' = leaked w.
Proof.
  unfold settle. intros Hs.
  destruct (cells w !! a) as [cl|]; simpl in Hs; [|discriminate].
  destruct (queue cl); injection Hs as <-; reflexivity.
Qed.

Lemma step_leaked (cbs : nat -> cb_action) (e : event) (w w' : world) (a : nat) :
  step cbs w e = Some w' -> count a (leaked w) <= count a (leaked w').
Proof.
  intros Hstep. destruct e as [a0 c|a0 c err val|]; simpl in Hstep.
  - rewrite (run_leaked _ _ _ _ Hstep). lia.
  - destruct (member (a0, c) (flying w)); [|discriminate].
    unfold callback in Hstep. destruct (cbs c) as [|exc|l|l].
    + rewrite (settle_leaked _ _ _ Hstep). simpl. lia.
    + injection Hstep as <-. simpl. rewrite count_app.
      pose proof (count_nonneg a [(a0, c)]). lia.
    + destruct (run_all l _) as [w2|] eqn:H2; simpl in Hstep; [|discriminate].
      rewrite (settle_leaked _ _ _ Hstep), (run_all_leaked _ _ _ H2). simpl. lia.
    + rewrite (settle_leaked _ _ _ Hstep). simpl. lia.
  - destruct (ticks w) as [|[a0 c] rest]; [discriminate|].
    rewrite (run_leaked _ _ _ _ Hstep). simpl. lia.
Qed.

Lemma exec_leaked (cbs : nat -> cb_action) (es : list event) (a : nat) :
  forall w w', exec cbs w es = Some w' -> count a (leaked w) <= count a (leaked w').
Proof.
  induction es as [|e es IH]; simpl; intros w w' Hex.
  - injection Hex as <-. lia.
  - destruct (step cbs w e) as [w1|] eqn:H1; simpl in Hex; [|discriminate].
    pose proof (step_leaked cbs e w w1 a H1). pose proof (IH _ _ Hex). lia.
Qed.

(** The running count never exceeds a limit that is not negative, and
    neither does the number of executions in flight. *)
Lemma running_within_limit (cbs : nat -> cb_action) (s : store)
  (es : list event) (w : world) (a : nat) (cl : cell) :
  fresh s -> exec cbs (boot s) es = Some w -> cells w !! a = Some cl ->
  0 <= max cl ->
  running cl <= max cl /\ count a (flying w) <= max cl.
Proof.
  intros Hfresh Hex Hcl Hmax.
  destruct (exec_accounted cbs es _ _ (boot_accounted s Hfresh) Hex a cl Hcl)
    as [Hb Hm].
  pose proof (count_nonneg a (leaked w)). unfold nothing in Hb.
  split; [auto|]. specialize (Hm Hmax). lia.
Qed.

End ThrottleAccounts.

(** ** Throttle: completions *)

Module ThrottleCompletion.
Import JS Throttle ThrottleNotions ThrottleAccounts.

Lemma run_trace (a c : nat) (w w' : world) :
  run a c w = Some w' -> exists more, trace w' = trace w ++ more.
Proof.
  unfold run. intros Hrun.
  destruct (cells w !! a) as [cl|]; simpl in Hrun; [|discriminate].
  destruct (running cl =? max cl); injection Hrun as <-; simpl; eauto.
Qed.

Lemma run_all_trace (l : list (nat * nat)) :
  forall w w', run_all l w = Some w' -> exists more, trace w' = trace w ++ more.
Proof.
  induction l as [|[a c] l IH]; simpl; intros w w' Hrun.
  - injection Hrun as <-. exists []. rewrite app_nil_r. reflexivity.
  - destruct (run a c w) as [w1|] eqn:H1; simpl in Hrun; [|discriminate].
    destruct (run_trace _ _ _ _ H1) as [m1 E1].
    destruct (IH _ _ Hrun) as [m2 E2].
    exists (m1 ++ m2). rewrite E2, E1, app_assoc. reflexivity.
Qed.

Lemma started_app (l l' : list effect) :
  started (l ++ l') = started l ++ started l'.
Proof. unfold started. apply omap_app. Qed.

(** C7 (as stated, refuted): the caller's callback runs before the
    decrement.  Here it submits call 4 to the same wrapper: [running] is
    still at the limit, so call 4 is queued; had the decrement come
    first, call 4 would have started. *)
Lemma callback_runs_before_decrement :
  let cbs (c : nat) := if Nat.eqb c 1 then CbSubmit [(0, 4)]%nat else CbReturn in
  exists w,
    step cbs one_at_a_time (Complete 0 1 VUndefined (VStr "one")) = Some w
    /\ trace w
       = trace one_at_a_time
         ++ [Forwarded 0 1 VUndefined (VStr "one"); Queued 0 4;
             Decremented 0; Scheduled 0 2]
    /\ trace w
       <> trace one_at_a_time
          ++ [Decremented 0; Forwarded 0 1 VUndefined (VStr "one");
              Started 0 4; Scheduled 0 2].
Proof.
  eexists. split; [vm_compute; reflexivity|].
  split; [reflexivity|]. simpl. intros H. discriminate H.
Qed.

(** C7 (amended): on every completion of a throttled call the wrapper
    first forwards the error and the result to the caller's callback;
    once the callback has returned it decrements the running count; and
    then, if the queue is not empty, it takes the oldest queued call out
    and puts it on the next-tick queue: the call is not started within
    the completion. *)
Theorem completion_forwards_then_settles
  (cbs : nat -> cb_action) (w mid : world) (a c : nat) (err val : value)
  (cl : cell) :
  member (a, c) (flying w) = true ->
  forwarded cbs a c err val (touchdown (a, c) w) = Some mid ->
  cells mid !! a = Some cl ->
  let oldest := match queue cl with [] => [] | next :: _ => [next] end in
  exists w',
    step cbs w (Complete a c err val) = Some w'
    /\ (exists during, trace mid = trace w ++ Forwarded a c err val :: during)
    /\ trace w' = trace mid ++ Decremented a :: (Scheduled a <$> oldest)
    /\ cells w'
       = <[a := Cell (fn cl) (max cl) (running cl - 1) (tail (queue cl))]>
           (cells mid)
    /\ ticks w' = ticks mid ++ (pair a <$> oldest)
    /\ flying w' = flying mid
    /\ started (trace w') = started (trace mid).
Proof.
  intros Hm Hfwd Hcl oldest.
  assert (Hcb : callback cbs a c err val (touchdown (a, c) w) = settle a mid).
  { unfold callback, forwarded in *. destruct (cbs c) as [|exc|l|l].
    - injection Hfwd as <-. reflexivity.
    - discriminate.
    - rewrite Hfwd. reflexivity.
    - injection Hfwd as <-. reflexivity. }
  assert (Hduring : exists during,
             trace mid = trace w ++ Forwarded a c err val :: during).
  { unfold forwarded in Hfwd. destruct (cbs c) as [|exc|l|l].
    - injection Hfwd as <-. exists []. reflexivity.
    - discriminate.
    - destruct (run_all_trace _ _ _ Hfwd) as [more E]. exists more.
      rewrite E. simpl. rewrite <- app_assoc. reflexivity.
    - injection Hfwd as <-. exists []. reflexivity. }
  simpl step. rewrite Hm, Hcb. unfold settle. rewrite Hcl. simpl.
  subst oldest. destruct (queue cl) as [|next rest]; eexists;
    (split; [reflexivity|]); (split; [exact Hduring|]); simpl.
  - repeat split.
    + symmetry. apply app_nil_r.
    + rewrite started_app. apply app_nil_r.
  - rewrite list_insert_insert_eq, <- app_assoc. repeat split.
    rewrite started_app. apply app_nil_r.
Qed.

Lemma completion_forwards_then_settles_witness :
  let cbs (c : nat) := CbReturn in
  let mid := emit (Forwarded 0 1 VUndefined (VStr "one"))
               (touchdown (0, 1)%nat one_at_a_time) in
  member (0, 1)%nat (flying one_at_a_time) = true
  /\ forwarded cbs 0 1 VUndefined (VStr "one")
       (touchdown (0, 1)%nat one_at_a_time) = Some mid
  /\ exists w',
       step cbs one_at_a_time (Complete 0 1 VUndefined (VStr "one")) = Some w'
       /\ trace w' = trace mid ++ [Decremented 0; Scheduled 0 2]
       /\ ticks w' = [(0, 2)]%nat
       /\ flying w' = [].
Proof.
  intros cbs mid. split; [reflexivity|]. split; [reflexivity|].
  destruct (completion_forwards_then_settles cbs one_at_a_time mid 0 1
              VUndefined (VStr "one")
              (Cell (VFun (App 0) "get" []) 1 1 [2; 3]%nat)
              eq_refl eq_refl eq_refl)
    as (w' & Hstep & _ & Htrace & _ & Hticks & Hfly & _).
  exists w'. repeat split; assumption.
Defined.

(** C9: the running count is decremented, and the next queued call
    dequeued, only once the caller's callback has returned.  When the
    callback throws, the cells and the next-tick queue are left as they
    were, so nothing is decremented and no queued call is scheduled;
    from then on the running count stays above the executions in flight
    by one more than before, and under a limit that is not negative the
    executions in flight can never again number more than the limit
    less the callbacks that threw. *)
Theorem throwing_callback_keeps_its_slot
  (cbs : nat -> cb_action) (s : store) (es : list event) (w : world)
  (a c : nat) (err val exc : value) (cl : cell) :
  fresh s ->
  exec cbs (boot s) es = Some w ->
  cells w !! a = Some cl ->
  member (a, c) (flying w) = true ->
  cbs c = CbThrow exc ->
  exists w',
    step cbs w (Complete a c err val) = Some w'
    /\ cells w' = cells w
    /\ ticks w' = ticks w
    /\ trace w' = trace w ++ [Forwarded a c err val; Raised a c exc]
    /\ count a (leaked w') = count a (leaked w) + 1
    /\ forall es' w'', exec cbs w' es' = Some w'' ->
         exists cl'',
           cells w'' !! a = Some cl'' /\ max cl'' = max cl
           /\ count a (leaked w) + 1 <= count a (leaked w'')
           /\ running cl'' = count a (flying w'') + count a (leaked w'')
           /\ (0 <= max cl ->
               count a (flying w'') <= max cl - (count a (leaked w) + 1)).
Proof.
  intros Hfresh Hex Hcl Hm Hthrow.
  pose proof (exec_accounted cbs es _ _ (boot_accounted s Hfresh) Hex) as Hinv.
  eexists. split.
  { simpl. rewrite Hm. unfold callback. rewrite Hthrow. reflexivity. }
  simpl. split; [reflexivity|]. split; [reflexivity|].
  split; [rewrite <- app_assoc; reflexivity|].
  split; [rewrite count_app, count_one, one_at_same; reflexivity|].
  intros es' w'' Hex'.
  match type of Hex' with exec _ ?w1 _ = _ => set (w' := w1) in * end.
  assert (Hstep : step cbs w (Complete a c err val) = Some w').
  { simpl. rewrite Hm. unfold callback. rewrite Hthrow. reflexivity. }
  pose proof (step_accounted cbs _ _ _ Hinv Hstep) as Hinv'.
  pose proof (exec_accounted cbs es' _ _ Hinv' Hex') as Hinv''.
  pose proof (exec_limits cbs es' _ _ Hex') as Hl.
  assert (Hcl' : cells w' !! a = Some cl) by exact Hcl.
  destruct (limit_kept _ _ a cl Hl Hcl') as (cl'' & Hcl'' & Hmax).
  pose proof (exec_leaked cbs es' a _ _ Hex') as Hleak.
  assert (Hw' : count a (leaked w') = count a (leaked w) + 1).
  { subst w'. simpl. rewrite count_app, count_one, one_at_same. reflexivity. }
  destruct (Hinv'' a cl'' Hcl'') as [Hb Hbound]. unfold nothing in Hb.
  exists cl''. split; [exact Hcl''|]. split; [exact Hmax|].
  split; [lia|]. split; [lia|].
  intros H0. rewrite Hmax in Hbound. specialize (Hbound H0). lia.
Qed.

Lemma throwing_callback_keeps_its_slot_witness :
  let cbs (c : nat) := if Nat.eqb c 1 then CbThrow (VStr "oops") else CbReturn in
  let s := [Cell (VFun (App 0) "get" []) 1 0 []] in
  fresh s
  /\ exec cbs (boot s) [Submit 0 1; Submit 0 2; Submit 0 3] = Some one_at_a_time
  /\ exists w',
       step cbs one_at_a_time (Complete 0 1 VUndefined VUndefined) = Some w'
       /\ cells w' = cells one_at_a_time
       /\ ticks w' = [].
Proof.
  intros cbs s.
  assert (Hfresh : fresh s) by (repeat constructor).
  split; [exact Hfresh|]. split; [reflexivity|].
  destruct (throwing_callback_keeps_its_slot cbs s
              [Submit 0 1; Submit 0 2; Submit 0 3] one_at_a_time 0 1
              VUndefined VUndefined (VStr "oops")
              (Cell (VFun (App 0) "get" []) 1 1 [2; 3]%nat)
              Hfresh eq_refl eq_refl eq_refl eq_refl)
    as (w' & Hstep & Hcells & Hticks & _).
  exists w'. repeat split; assumption.
Defined.

End ThrottleCompletion.

(** ** Throttle: order of the queued calls *)

Module ThrottleOrder.
Import JS Throttle ThrottleNotions ThrottleCompletion.

Lemma at_wrapper_app (a : nat) (l l' : list (nat * nat)) :
  at_wrapper a (l ++ l') = at_wrapper a l ++ at_wrapper a l'.
Proof. apply omap_app. Qed.

Lemma at_wrapper_same (a c : nat) : at_wrapper a [(a, c)] = [c].
Proof. unfold at_wrapper. simpl. rewrite Nat.eqb_refl. reflexivity. Qed.

Lemma at_wrapper_other (a a' c : nat) : a <> a' -> at_wrapper a' [(a, c)] = [].
Proof.
  intros Hne. unfold at_wrapper. simpl.
  destruct (Nat.eqb_spec a a'); [congruence|reflexivity].
Qed.

Lemma boot_orderly (s : store) : fresh s -> orderly (boot s).
Proof.
  intros Hfresh. left. split; [reflexivity|]. intros a cl _ Hcl Hq.
  destruct (proj1 (Forall_lookup _ _) Hfresh a cl Hcl) as [_ Hq']. congruence.
Qed.

Lemma boot_line (s : store) (a : nat) : fresh s -> line a (boot s) = [].
Proof.
  intros Hfresh. unfold line. simpl.
  destruct (s !! a) as [cl|] eqn:Hcl; [|reflexivity]. simpl.
  exact (proj2 (proj1 (Forall_lookup _ _) Hfresh a cl Hcl)).
Qed.

Lemma started_snoc (tr : list effect) (e : effect) :
  started (tr ++ [e])
  = started tr ++ match e with Started a c => [(a, c)] | _ => [] end.
Proof. rewrite started_app. destruct e; reflexivity. Qed.

Ltac shape :=
  unfold line;
  cbn [cells ticks trace flying leaked emit set_cell takeoff defer defer_all
       touchdown leak];
  rewrite ?started_snoc, ?list_insert_insert_eq, ?at_wrapper_app, ?app_nil_r.

Ltac tidy :=
  cbn [fmap option_fmap option_map default from_option id queue app];
  rewrite ?app_nil_r; repeat rewrite <- app_assoc; rewrite ?app_nil_r;
  try reflexivity.

(** A call that arrives while no task waits for its tick goes to the
    end of the line. *)
Lemma run_quiet (a c : nat) (w w' : world) :
  ticks w = [] -> full_when_queued None w -> run a c w = Some w' ->
  ticks w' = [] /\ full_when_queued None w'
  /\ forall a', line a' w' = line a' w ++ at_wrapper a' [(a, c)].
Proof.
  intros Ht Hfull Hrun. unfold run in Hrun.
  destruct (cells w !! a) as [cl|] eqn:Hcl; simpl in Hrun; [|discriminate].
  pose proof (lookup_lt_Some _ _ _ Hcl) as Hlt.
  destruct (Z.eqb_spec (running cl) (max cl)) as [Heq|Hne]; injection Hrun as <-.
  - split; [exact Ht|]. split.
    + intros a' cl' _ Hcl' Hq. simpl in Hcl'.
      destruct (decide (a = a')) as [<-|Hna].
      * rewrite list_lookup_insert_eq in Hcl' by exact Hlt.
        injection Hcl' as <-. exact Heq.
      * rewrite list_lookup_insert_ne in Hcl' by exact Hna.
        apply (Hfull a' cl'); [discriminate|exact Hcl'|exact Hq].
    + intros a'. shape. destruct (decide (a = a')) as [<-|Hna].
      * rewrite list_lookup_insert_eq by exact Hlt.
        rewrite Hcl, at_wrapper_same. tidy.
      * rewrite list_lookup_insert_ne by exact Hna.
        rewrite (at_wrapper_other _ _ _ Hna). tidy.
  - assert (Hq : queue cl = []).
    { destruct (queue cl) as [|x q] eqn:Hq; [reflexivity|]. exfalso. apply Hne.
      apply (Hfull a cl); [discriminate|exact Hcl|]. rewrite Hq. discriminate. }
    split; [exact Ht|]. split.
    + intros a' cl' _ Hcl' Hq'. simpl in Hcl'.
      destruct (decide (a = a')) as [<-|Hna].
      * rewrite list_lookup_insert_eq in Hcl' by exact Hlt.
        injection Hcl' as <-. simpl in Hq'. congruence.
      * rewrite list_lookup_insert_ne in Hcl' by exact Hna.
        apply (Hfull a' cl'); [discriminate|exact Hcl'|exact Hq'].
    + intros a'. shape. rewrite Ht. destruct (decide (a = a')) as [<-|Hna].
      * rewrite list_lookup_insert_eq by exact Hlt.
        rewrite Hcl, at_wrapper_same. tidy. rewrite Hq. tidy.
      * rewrite list_lookup_insert_ne by exact Hna.
        rewrite (at_wrapper_other _ _ _ Hna). tidy.
Qed.

Lemma run_all_quiet (l : list (nat * nat)) :
  forall w w',
    ticks w = [] -> full_when_queued None w -> run_all l w = Some w' ->
    ticks w' = [] /\ full_when_queued None w'
    /\ forall a', line a' w' = line a' w ++ at_wrapper a' l.
Proof.
  induction l as [|[a c] l IH]; intros w w' Ht Hfull Hrun; cbn [run_all] in Hrun.
  - injection Hrun as <-. split; [exact Ht|]. split; [exact Hfull|].
    intros a'. change (at_wrapper a' []) with (@nil nat).
    rewrite app_nil_r. reflexivity.
  - destruct (run a c w) as [w1|] eqn:H1; simpl in Hrun; [|discriminate].
    destruct (run_quiet _ _ _ _ Ht Hfull H1) as (Ht1 & Hfull1 & Hline1).
    destruct (IH _ _ Ht1 Hfull1 Hrun) as (Ht' & Hfull' & Hline').
    split; [exact Ht'|]. split; [exact Hfull'|]. intros a'.
    rewrite Hline', Hline1, <- app_assoc.
    change ((a, c) :: l) with ([(a, c)] ++ l). rewrite at_wrapper_app.
    reflexivity.
Qed.

(** The decrement moves the oldest queued call to the tick queue and
    leaves the lines as they are. *)
Lemma settle_quiet (a : nat) (w w' : world) :
  ticks w = [] -> full_when_queued None w -> settle a w = Some w' ->
  orderly w' /\ forall a', line a' w' = line a' w.
Proof.
  intros Ht Hfull Hs. unfold settle in Hs.
  destruct (cells w !! a) as [cl|] eqn:Hcl; simpl in Hs; [|discriminate].
  pose proof (lookup_lt_Some _ _ _ Hcl) as Hlt.
  destruct (queue cl) as [|next rest] eqn:Hq; injection Hs as <-.
  - split.
    + left. split; [exact Ht|]. intros a' cl' _ Hcl' Hq'. simpl in Hcl'.
      destruct (decide (a = a')) as [<-|Hna].
      * rewrite list_lookup_insert_eq in Hcl' by exact Hlt.
        injection Hcl' as <-. simpl in Hq'. congruence.
      * rewrite list_lookup_insert_ne in Hcl' by exact Hna.
        apply (Hfull a' cl'); [discriminate|exact Hcl'|exact Hq'].
    + intros a'. shape. destruct (decide (a = a')) as [<-|Hna].
      * rewrite list_lookup_insert_eq by exact Hlt. rewrite Hcl. tidy.
        rewrite Hq. tidy.
      * rewrite list_lookup_insert_ne by exact Hna. tidy.
  - assert (Hfullcl : running cl = max cl).
    { apply (Hfull a cl); [discriminate|exact Hcl|]. rewrite Hq. discriminate. }
    split.
    + right. exists a, next, (Cell (fn cl) (max cl) (running cl - 1) rest).
      simpl. rewrite Ht, list_insert_insert_eq.
      split; [reflexivity|].
      split; [apply list_lookup_insert_eq; exact Hlt|].
      split; [simpl; lia|].
      intros a' cl' Hne Hcl' Hq'. simpl in Hcl'.
      rewrite list_insert_insert_eq in Hcl'.
      rewrite list_lookup_insert_ne in Hcl' by congruence.
      apply (Hfull a' cl'); [discriminate|exact Hcl'|exact Hq'].
    + intros a'. shape. rewrite Ht. destruct (decide (a = a')) as [<-|Hna].
      * rewrite list_lookup_insert_eq by exact Hlt.
        rewrite Hcl, at_wrapper_same. tidy. rewrite Hq. tidy.
      * rewrite list_lookup_insert_ne by exact Hna.
        rewrite (at_wrapper_other _ _ _ Hna). tidy.
Qed.

(** At its tick the dequeued call finds its slot and starts. *)
Lemma tick_orderly (cbs : nat -> cb_action) (w w' : world) :
  orderly w -> step cbs w Tick = Some w' ->
  orderly w' /\ forall a', line a' w' = line a' w.
Proof.
  intros [[Ht _]|(a & c & cl & Ht & Hcl & Hrun & Hfull)] Hstep;
    simpl in Hstep; rewrite Ht in Hstep; [discriminate|].
  unfold run in Hstep. simpl in Hstep. rewrite Hcl in Hstep. simpl in Hstep.
  pose proof (lookup_lt_Some _ _ _ Hcl) as Hlt.
  destruct (Z.eqb_spec (running cl) (max cl)) as [Heq|Hne]; [lia|].
  injection Hstep as <-. split.
  - left. split; [reflexivity|]. intros a' cl' _ Hcl' Hq'. simpl in Hcl'.
    destruct (decide (a = a')) as [<-|Hna].
    + rewrite list_lookup_insert_eq in Hcl' by exact Hlt.
      injection Hcl' as <-. simpl. lia.
    + rewrite list_lookup_insert_ne in Hcl' by exact Hna.
      apply (Hfull a' cl'); [congruence|exact Hcl'|exact Hq'].
  - intros a'. shape. rewrite Ht. destruct (decide (a = a')) as [<-|Hna].
    + rewrite list_lookup_insert_eq by exact Hlt.
      rewrite Hcl, !at_wrapper_same. tidy.
    + rewrite list_lookup_insert_ne by exact Hna.
      rewrite !(at_wrapper_other _ _ _ Hna). tidy.
Qed.

Lemma step_orderly (cbs : nat -> cb_action) (e : event) (w w' : world) :
  orderly w -> quiet cbs w e -> step cbs w e = Some w' ->
  orderly w' /\ forall a', line a' w' = line a' w ++ arrivals cbs a' e.
Proof.
  intros Hord Hquiet Hstep. destruct e as [a c|a c err val|].
  - simpl in Hquiet, Hstep.
    destruct Hord as [[_ Hfull]|(a0 & c0 & _ & Ht & _)]; [|congruence].
    destruct (run_quiet _ _ _ _ Hquiet Hfull Hstep) as (Ht' & Hfull' & Hline).
    split; [left; auto|exact Hline].
  - simpl in Hquiet, Hstep. destruct Hquiet as [Ht Hdefer].
    destruct Hord as [[_ Hfull]|(a0 & c0 & _ & Ht0 & _)]; [|congruence].
    destruct (member (a, c) (flying w)); [|discriminate].
    unfold callback in Hstep. simpl arrivals.
    set (w1 := emit (Forwarded a c err val) (touchdown (a, c) w)) in *.
    assert (Hline1 : forall a', line a' w1 = line a' w).
    { intros a'. unfold line. simpl. rewrite started_app. simpl.
      rewrite app_nil_r. reflexivity. }
    destruct (cbs c) as [|exc|l|l] eqn:Hcb.
    + destruct (settle_quiet a w1 w' Ht Hfull Hstep) as [Hord' Hline'].
      split; [exact Hord'|]. intros a'.
      rewrite Hline', Hline1, app_nil_r. reflexivity.
    + injection Hstep as <-. split; [left; split; [exact Ht|exact Hfull]|].
      intros a'. unfold line. simpl. rewrite !started_app. simpl.
      rewrite !app_nil_r. reflexivity.
    + destruct (run_all l w1) as [w2|] eqn:H2; simpl in Hstep; [|discriminate].
      destruct (run_all_quiet l w1 w2 Ht Hfull H2) as (Ht2 & Hfull2 & Hline2).
      destruct (settle_quiet a w2 w' Ht2 Hfull2 Hstep) as [Hord' Hline'].
      split; [exact Hord'|]. intros a'. rewrite Hline', Hline2, Hline1.
      reflexivity.
    + rewrite (Hdefer l eq_refl) in Hstep.
      assert (Hsame : defer_all [] w1 = w1).
      { unfold defer_all. simpl. rewrite app_nil_r. reflexivity. }
      rewrite Hsame in Hstep.
      destruct (settle_quiet a w1 w' Ht Hfull Hstep) as [Hord' Hline'].
      split; [exact Hord'|]. intros a'.
      rewrite Hline', Hline1, app_nil_r. reflexivity.
  - destruct (tick_orderly cbs w w' Hord Hstep) as [Hord' Hline'].
    split; [exact Hord'|]. intros a'. rewrite Hline'. simpl.
    rewrite app_nil_r. reflexivity.
Qed.

Lemma exec_orderly (cbs : nat -> cb_action) (es : list event) :
  forall w w',
    orderly w -> calm cbs w es -> exec cbs w es = Some w' ->
    orderly w'
    /\ forall a, line a w' = line a w ++ flat_map (arrivals cbs a) es.
Proof.
  induction es as [|e es IH]; simpl; intros w w' Hord Hcalm Hex.
  - injection Hex as <-. split; [exact Hord|]. intros a.
    rewrite app_nil_r. reflexivity.
  - destruct Hcalm as [Hquiet Hcalm].
    destruct (step cbs w e) as [w1|] eqn:H1; simpl in Hex; [|discriminate].
    destruct (step_orderly cbs e w w1 Hord Hquiet H1) as [Hord1 Hline1].
    destruct (IH w1 w' Hord1 Hcalm Hex) as [Hord' Hline'].
    split; [exact Hord'|]. intros a.
    rewrite Hline', Hline1, <- app_assoc. reflexivity.
Qed.

Example calm_schedule :
  let cbs (c : nat) := if Nat.eqb c 1 then CbSubmit [(0, 4)]%nat else CbReturn in
  let es := [Submit 0 1; Submit 0 2; Submit 0 3;
             Complete 0 1 VUndefined VUndefined; Tick;
             Complete 0 2 VUndefined VUndefined; Tick] in
  let s := [Cell (VFun (App 0) "get" []) 1 0 []] in
  calm cbs (boot s) es
  /\ exists w, exec cbs (boot s) es = Some w
              /\ started (trace w) = [(0, 1); (0, 2); (0, 3)]%nat
              /\ queue <$> cells w = [[4%nat]].
Proof.
  split; [vm_compute; intuition discriminate|].
  eexists. split; [vm_compute; reflexivity|]. split; reflexivity.
Qed.

(** As long as nothing is submitted while a dequeued call waits for its
    tick, the calls of a wrapper start in the order in which they were
    submitted: those started, the one that waits for its tick and those
    still queued are, in this order, the calls submitted so far. *)
Lemma calm_calls_keep_their_order (cbs : nat -> cb_action) (s : store)
  (es : list event) (w : world) (a : nat) :
  fresh s -> calm cbs (boot s) es -> exec cbs (boot s) es = Some w ->
  line a w = flat_map (arrivals cbs a) es.
Proof.
  intros Hfresh Hcalm Hex.
  destruct (exec_orderly cbs es _ _ (boot_orderly s Hfresh) Hcalm Hex)
    as [_ Hline].
  rewrite Hline, (boot_line s a Hfresh). reflexivity.
Qed.

(** C4 (the code at the failing input): with limit 1, calls 2 and 3 are
    queued behind call 1, whose callback hands call 4 to
    [process.nextTick].  When call 1 completes, the callback runs first,
    then call 2 is dequeued and its [run] is handed to
    [process.nextTick] in turn, behind call 4.  At the next tick call 4
    takes the free slot; at the following one call 2 finds
    [running === max] and is pushed to the back of the queue, behind
    call 3.  Call 3 starts before call 2, against their submission
    order. *)
Lemma dequeued_call_is_overtaken :
  let cbs (c : nat) := if Nat.eqb c 1 then CbDefer [(0, 4)]%nat else CbReturn in
  exists w,
    exec cbs (boot [Cell (VFun (App 0) "get" []) 1 0 []])
      [Submit 0 1; Submit 0 2; Submit 0 3;
       Complete 0 1 VUndefined (VStr "one"); Tick; Tick;
       Complete 0 4 VUndefined (VStr "four"); Tick]
    = Some w
    /\ started (trace w) = [(0, 1); (0, 4); (0, 3)]%nat
    /\ queue <$> cells w = [[2%nat]]
    /\ running <$> cells w = [1]
    /\ trace w
       = [Started 0 1; Queued 0 2; Queued 0 3;
          Forwarded 0 1 VUndefined (VStr "one"); Decremented 0; Scheduled 0 2;
          Started 0 4; Queued 0 2;
          Forwarded 0 4 VUndefined (VStr "four"); Decremented 0; Scheduled 0 3;
          Started 0 3].
Proof.
  eexists. split; [vm_compute; reflexivity|].
  split; [reflexivity|]. split; [reflexivity|]. split; reflexivity.
Qed.

End ThrottleOrder.

(** ** Throttle: collections *)

Module ThrottleCollection.
Import JS JSFacts Underscore UnderscoreFacts Adapter Throttle ThrottleNotions
  ThrottleAccounts.

Lemma nbind_function (o : value) (k : string) :
  isFunction (prop o k) = true -> exists b, nbind o k = Ok b.
Proof.
  intros Hf. unfold nbind, bind. destruct (prop o k); try discriminate.
  simpl. eexists. reflexivity.
Qed.

Lemma throttled_members_ok (o : value) (mx : Z) (ks : list string) :
  forall s,
    (forall k, In k ks -> isFunction (prop o k) = true) ->
    exists cs,
      wrap_members o mx ks s = Ok (wrappers (length s) ks, s ++ cs)
      /\ Forall2 (cell_of o mx) ks cs.
Proof.
  induction ks as [|k ks IH]; intros s Hfun.
  - exists []. simpl. rewrite app_nil_r. split; [reflexivity|constructor].
  - destruct (nbind_function o k) as [b Hb]; [apply Hfun; left; reflexivity|].
    destruct (IH (s ++ [Cell b mx 0 []])) as (cs & Hwm & Hcs).
    { intros k' Hin. apply Hfun. right. exact Hin. }
    exists (Cell b mx 0 [] :: cs). simpl. rewrite Hb. simpl. rewrite Hwm. simpl.
    rewrite length_app, Nat.add_1_r, <- app_assoc. simpl.
    split; [reflexivity|]. constructor; [|exact Hcs]. repeat split. exact Hb.
Qed.

Lemma wrappers_keys (n : nat) (ks : list string) :
  List.map fst (wrappers n ks) = ks.
Proof.
  revert n. induction ks as [|k ks IH]; intros n; simpl; [reflexivity|].
  rewrite IH. reflexivity.
Qed.

Lemma wrappers_lookup (k : string) (x : value) (ks : list string) :
  forall n,
    lookup k (wrappers n ks) = Some x ->
    exists i, ks !! i = Some k /\ x = VFun (ThrottleWrapper (n + i)) "" [].
Proof.
  induction ks as [|k' ks IH]; intros n; simpl; [discriminate|].
  destruct (String.eqb_spec k k') as [->|Hne].
  - intros [= <-]. exists 0%nat. rewrite Nat.add_0_r. auto.
  - intros H. destruct (IH _ H) as (i & Hi & ->). exists (S i).
    rewrite Nat.add_succ_r. auto.
Qed.

Lemma wrappers_lookup_In (k : string) (ks : list string) :
  In k ks ->
  forall n, exists i,
    ks !! i = Some k
    /\ lookup k (wrappers n ks) = Some (VFun (ThrottleWrapper (n + i)) "" []).
Proof.
  induction ks as [|k' ks IH]; simpl; [tauto|]. intros Hin n.
  destruct (String.eqb_spec k k') as [->|Hne].
  - exists 0%nat. rewrite Nat.add_0_r. auto.
  - destruct Hin as [->|Hin]; [congruence|].
    destruct (IH Hin (S n)) as (i & Hi & Hl). exists (S i).
    rewrite Nat.add_succ_r. auto.
Qed.

Lemma cells_fresh (o : value) (mx : Z) (ks : list string) (cs : list cell) :
  Forall2 (cell_of o mx) ks cs ->
  fresh cs /\ Forall (fun cl => max cl = mx) cs.
Proof.
  induction 1 as [|k cl ks cs (_ & Hmax & Hrun & Hq) _ [IHf IHm]].
  - split; constructor.
  - split; constructor; auto.
Qed.

(** What [throttle] answers for a collection, and where a throttled
    member comes from. *)
Lemma throttle_collection (ps : list (string * value)) (mx : Z) :
  List.NoDup (List.map fst ps) ->
  exists cs,
    throttle (VObj ps) mx []
    = Ok (extend (VObj [])
            [object (pairs (VObj ps));
             object (wrappers 0 (functions (VObj ps)))],
          cs)
    /\ Forall2 (cell_of (VObj ps) mx) (functions (VObj ps)) cs
    /\ forall k,
         prop (extend (VObj [])
                 [object (pairs (VObj ps));
                  object (wrappers 0 (functions (VObj ps)))]) k
         = default VUndefined
             (match lookup k (wrappers 0 (functions (VObj ps))) with
              | Some v => Some v
              | None => lookup k ps
              end).
Proof.
  intros Hnd.
  destruct (throttled_members_ok (VObj ps) mx (functions (VObj ps)) [])
    as (cs & Hwm & Hcs).
  { intros k Hin. apply (functions_In k ps Hnd) in Hin as (v & Hv & Hf).
    unfold prop. simpl. rewrite Hv. exact Hf. }
  exists cs. split; [|split; [exact Hcs|]].
  - unfold throttle. simpl isFunction. cbv iota. rewrite Hwm. reflexivity.
  - intros k. apply extend_lookup; [exact Hnd|].
    rewrite wrappers_keys. apply functions_NoDup. exact Hnd.
Qed.

Lemma not_listed (k : string) (ps : list (string * value)) :
  List.NoDup (List.map fst ps) ->
  (forall v, lookup k ps = Some v -> isFunction v = false) ->
  lookup k (wrappers 0 (functions (VObj ps))) = None.
Proof.
  intros Hnd Hno. apply lookup_None. rewrite wrappers_keys. intros Hin.
  apply (functions_In k ps Hnd) in Hin as (v & Hv & Hf).
  rewrite (Hno v Hv) in Hf. discriminate.
Qed.

(** C1 (as stated, refuted): a collection of two functions wrapped with
    limit 1.  Each member has a cell of its own; a call of each is
    started at once, and two executions are in flight together. *)
Lemma members_do_not_share_a_limit :
  let o := VObj [("get", VFun (App 0) "get" []); ("put", VFun (App 1) "put" [])] in
  exists v s w,
    throttle o 1 [] = Ok (v, s)
    /\ prop v "get" = VFun (ThrottleWrapper 0) "" []
    /\ prop v "put" = VFun (ThrottleWrapper 1) "" []
    /\ exec (fun _ => CbReturn) (boot s) [Submit 0 1; Submit 1 2] = Some w
    /\ flying w = [(0, 1); (1, 2)]%nat
    /\ running <$> cells w = [1; 1]
    /\ ~ (Z.of_nat (length (flying w)) <= 1).
Proof.
  eexists _, _, _. split; [vm_compute; reflexivity|].
  split; [reflexivity|]. split; [reflexivity|].
  split; [vm_compute; reflexivity|].
  split; [reflexivity|]. split; [reflexivity|]. simpl. lia.
Qed.

(** C1 (amended): [throttle] applied to a collection answers a
    collection with the same names, in which a member that is not
    callable is unchanged and every callable member is replaced by a
    wrapper with a running count and a queue of its own, under the
    limit [max]: two members never share a cell.  At any instant the
    running count and the executions in flight of each member, taken
    alone, do not exceed [max]. *)
Theorem members_throttled_separately (ps : list (string * value)) (mx : Z) :
  List.NoDup (List.map fst ps) ->
  0 <= mx ->
  exists v s,
    throttle (VObj ps) mx [] = Ok (v, s)
    /\ (forall k x, lookup k ps = Some x -> isFunction x = false ->
                   prop v k = x)
    /\ (forall k x, lookup k ps = Some x -> isFunction x = true ->
          exists a cl,
            prop v k = VFun (ThrottleWrapper a) "" []
            /\ s !! a = Some cl /\ cell_of (VObj ps) mx k cl)
    /\ (forall k, lookup k ps = None -> prop v k = VUndefined)
    /\ (forall k1 k2 a1 a2,
          k1 <> k2 ->
          prop v k1 = VFun (ThrottleWrapper a1) "" [] ->
          prop v k2 = VFun (ThrottleWrapper a2) "" [] ->
          a1 <> a2)
    /\ (forall cbs es w a cl,
          exec cbs (boot s) es = Some w -> cells w !! a = Some cl ->
          max cl = mx /\ running cl <= mx /\ count a (flying w) <= mx).
Proof.
  intros Hnd Hmx.
  destruct (throttle_collection ps mx Hnd) as (cs & Hth & Hcs & Hprop).
  remember (functions (VObj ps)) as ks eqn:Hks.
  eexists _, cs. split; [exact Hth|].
  assert (Hwrapped : forall k a,
             default VUndefined
               (match lookup k (wrappers 0 ks) with
                | Some v => Some v
                | None => lookup k ps
                end) = VFun (ThrottleWrapper a) "" [] ->
             ks !! a = Some k).
  { intros k a H. destruct (lookup k (wrappers 0 ks)) as [x|] eqn:Hw.
    - destruct (wrappers_lookup _ _ _ _ Hw) as (i & Hi & ->).
      simpl in H. injection H as <-. exact Hi.
    - destruct (lookup k ps) as [x|] eqn:Hp; [|discriminate]. simpl in H.
      subst x. exfalso.
      assert (Hin : In k ks).
      { subst ks. apply (functions_In k ps Hnd). eexists.
        split; [exact Hp|reflexivity]. }
      destruct (wrappers_lookup_In k ks Hin 0) as (i & _ & Hl).
      rewrite Hl in Hw. discriminate. }
  split.
  { intros k x Hk Hf. pose proof (not_listed k ps Hnd) as Hnl.
    rewrite <- Hks in Hnl. rewrite Hprop, Hnl, Hk; [reflexivity|].
    intros v Hv. congruence. }
  split.
  { intros k x Hk Hf.
    assert (Hin : In k ks).
    { subst ks. apply (functions_In k ps Hnd). exists x. auto. }
    destruct (wrappers_lookup_In k ks Hin 0) as (i & Hi & Hl).
    destruct (Forall2_lookup_l _ _ _ _ _ Hcs Hi) as (cl & Hcl & Hcell).
    exists i, cl. rewrite Hprop, Hl. auto. }
  split.
  { intros k Hk. pose proof (not_listed k ps Hnd) as Hnl.
    rewrite <- Hks in Hnl. rewrite Hprop, Hnl, Hk; [reflexivity|].
    intros v Hv. congruence. }
  split.
  { intros k1 k2 a1 a2 Hne H1 H2 ->. rewrite Hprop in H1, H2.
    apply Hwrapped in H1, H2. congruence. }
  intros cbs es w a cl Hex Hcl.
  destruct (cells_fresh _ _ _ _ Hcs) as [Hfresh Hmax].
  assert (Hlim : max cl = mx).
  { pose proof (exec_limits cbs es _ _ Hex) as Hl. unfold limits in Hl.
    assert (H : (max <$> cells w) !! a = Some (max cl))
      by (rewrite list_lookup_fmap, Hcl; reflexivity).
    rewrite Hl in H. simpl in H. rewrite list_lookup_fmap in H.
    destruct (cs !! a) as [cl0|] eqn:Hcl0; [|discriminate].
    simpl in H. injection H as <-.
    exact (proj1 (Forall_lookup _ _) Hmax a cl0 Hcl0). }
  split; [exact Hlim|].
  rewrite <- Hlim.
  apply (running_within_limit cbs cs es w a cl Hfresh Hex Hcl). lia.
Qed.

Lemma members_throttled_separately_witness :
  let ps := [("get", VFun (App 0) "get" []); ("limit", VNum 3);
             ("put", VFun (App 1) "put" [])] in
  List.NoDup (List.map fst ps)
  /\ 0 <= 2
  /\ exists v s,
       throttle (VObj ps) 2 [] = Ok (v, s)
       /\ (forall k x, lookup k ps = Some x -> isFunction x = false ->
                      prop v k = x).
Proof.
  intros ps.
  assert (Hnd : List.NoDup (List.map fst ps)).
  { repeat constructor; simpl; intuition discriminate. }
  assert (H2 : 0 <= 2) by lia.
  split; [exact Hnd|]. split; [exact H2|].
  destruct (members_throttled_separately ps 2 Hnd H2) as (v & s & Hth & Hno & _).
  exists v, s. split; assumption.
Defined.

(** C8 (the code at the failing input): the member [get] of the
    collection named [db].  Wrapped by [retry] it carries the name
    [db.get]; wrapped by [throttle] it carries no name at all, although
    the [nbind] of the throttle computes the same [db.get] for the bound
    function it hands to [throttlefn].  The names of the collection and
    its members that are not callable are kept by both. *)
Lemma throttled_member_has_no_name :
  let o := VObj [("name", VStr "db"); ("get", VFun (App 0) "get" []);
                 ("limit", VNum 3)] in
  exists t s r b,
    throttle o 2 [] = Ok (t, s)
    /\ Retry.retry o None None None None None = Ok r
    /\ prop (prop r "get") "fname" = VStr "db.get"
    /\ isFunction (prop t "get") = true
    /\ prop (prop t "get") "fname" = VUndefined
    /\ prop (prop t "get") "name" = VStr ""
    /\ nbind o "get" = Ok b
    /\ fn <$> s = [b]
    /\ prop b "fname" = VStr "db.get"
    /\ prop t "name" = VStr "db" /\ prop t "limit" = VNum 3
    /\ prop r "name" = VStr "db" /\ prop r "limit" = VNum 3.
Proof.
  eexists _, _, _, _. split; [vm_compute; reflexivity|].
  split; [vm_compute; reflexivity|].
  repeat (split; [reflexivity|]). reflexivity.
Qed.

End ThrottleCollection.

(** ** Throttle: the ledger of calls *)

Module ThrottleLedgerFacts.
Import JS Throttle ThrottleNotions ThrottleAccounts ThrottleCompletion
  ThrottleOrder ThrottleLedger.

(** A call of a wrapper joins its line. *)
Lemma run_handed (a c : nat) (w w' : world) :
  run a c w = Some w' ->
  forall a', line a' w' ≡ₚ line a' w ++ at_wrapper a' [(a, c)].
Proof.
  intros Hrun a'. unfold run in Hrun.
  destruct (cells w !! a) as [cl|] eqn:Hcl; simpl in Hrun; [|discriminate].
  pose proof (lookup_lt_Some _ _ _ Hcl) as Hlt.
  destruct (running cl =? max cl); injection Hrun as <-; shape.
  - destruct (decide (a = a')) as [<-|Hna].
    + rewrite list_lookup_insert_eq by exact Hlt.
      rewrite Hcl, at_wrapper_same. tidy.
    + rewrite list_lookup_insert_ne by exact Hna.
      rewrite (at_wrapper_other _ _ _ Hna). tidy.
  - destruct (decide (a = a')) as [<-|Hna].
    + rewrite list_lookup_insert_eq by exact Hlt.
      rewrite Hcl, at_wrapper_same. tidy. solve_Permutation.
    + rewrite list_lookup_insert_ne by exact Hna.
      rewrite (at_wrapper_other _ _ _ Hna). tidy.
Qed.

Lemma run_all_handed (l : list (nat * nat)) :
  forall w w',
    run_all l w = Some w' ->
    forall a', line a' w' ≡ₚ line a' w ++ at_wrapper a' l.
Proof.
  induction l as [|[a c] l IH]; intros w w' Hrun a'; cbn [run_all] in Hrun.
  - injection Hrun as <-. change (at_wrapper a' []) with (@nil nat).
    rewrite app_nil_r. reflexivity.
  - destruct (run a c w) as [w1|] eqn:H1; simpl in Hrun; [|discriminate].
    rewrite (IH _ _ Hrun a'), (run_handed _ _ _ _ H1 a'), <- app_assoc.
    change ((a, c) :: l) with ([(a, c)] ++ l). rewrite at_wrapper_app.
    reflexivity.
Qed.

(** The decrement and the dequeue keep every line. *)
Lemma settle_handed (a : nat) (w w' : world) :
  settle a w = Some w' -> forall a', line a' w' ≡ₚ line a' w.
Proof.
  intros Hs a'. unfold settle in Hs.
  destruct (cells w !! a) as [cl|] eqn:Hcl; simpl in Hs; [|discriminate].
  pose proof (lookup_lt_Some _ _ _ Hcl) as Hlt.
  destruct (queue cl) as [|next rest] eqn:Hq; injection Hs as <-; shape.
  - destruct (decide (a = a')) as [<-|Hna].
    + rewrite list_lookup_insert_eq by exact Hlt. rewrite Hcl. tidy.
      rewrite Hq. tidy.
    + rewrite list_lookup_insert_ne by exact Hna. tidy.
  - destruct (decide (a = a')) as [<-|Hna].
    + rewrite list_lookup_insert_eq by exact Hlt.
      rewrite Hcl, at_wrapper_same. tidy. rewrite Hq. solve_Permutation.
    + rewrite list_lookup_insert_ne by exact Hna.
      rewrite (at_wrapper_other _ _ _ Hna). tidy.
Qed.

Lemma step_handed (cbs : nat -> cb_action) (e : event) (w w' : world) :
  step cbs w e = Some w' ->
  forall a', line a' w' ≡ₚ line a' w ++ handed cbs a' e.
Proof.
  intros Hstep a'. destruct e as [a c|a c err val|].
  - exact (run_handed _ _ _ _ Hstep a').
  - cbn [step] in Hstep.
    destruct (member (a, c) (flying w)); [|discriminate].
    unfold callback in Hstep. cbn [handed].
    set (w1 := emit (Forwarded a c err val) (touchdown (a, c) w)) in *.
    assert (Hline1 : line a' w1 = line a' w).
    { subst w1. shape. tidy. }
    destruct (cbs c) as [|exc|l|l].
    + rewrite (settle_handed _ _ _ Hstep a'), Hline1, app_nil_r. reflexivity.
    + injection Hstep as <-. subst w1. shape. tidy.
    + destruct (run_all l w1) as [w2|] eqn:H2; simpl in Hstep; [|discriminate].
      rewrite (settle_handed _ _ _ Hstep a'), (run_all_handed _ _ _ H2 a'), Hline1.
      reflexivity.
    + rewrite (settle_handed _ _ _ Hstep a'). subst w1. shape. tidy.
      solve_Permutation.
  - cbn [step] in Hstep. destruct (ticks w) as [|[a c] rest] eqn:Ht;
      [discriminate|].
    rewrite (run_handed _ _ _ _ Hstep a'). cbn [handed]. rewrite app_nil_r.
    unfold line. cbn [cells ticks trace]. rewrite Ht.
    change ((a, c) :: rest) with ([(a, c)] ++ rest). rewrite at_wrapper_app.
    solve_Permutation.
Qed.

Lemma exec_handed (cbs : nat -> cb_action) (es : list event) :
  forall w w',
    exec cbs w es = Some w' ->
    forall a, line a w' ≡ₚ line a w ++ flat_map (handed cbs a) es.
Proof.
  induction es as [|e es IH]; simpl; intros w w' Hex a.
  - injection Hex as <-. rewrite app_nil_r. reflexivity.
  - destruct (step cbs w e) as [w1|] eqn:H1; simpl in Hex; [|discriminate].
    rewrite (IH _ _ Hex a), (step_handed cbs e w w1 H1 a), <- app_assoc.
    reflexivity.
Qed.

Lemma limit_cell (w : world) (a : nat) (m : Z) :
  limits w !! a = Some m -> exists cl, cells w !! a = Some cl /\ max cl = m.
Proof.
  unfold limits. rewrite list_lookup_fmap.
  destruct (cells w !! a) as [cl|]; simpl; intros H; [|discriminate].
  injection H as <-. eauto.
Qed.

Lemma cell_limit (w : world) (a : nat) (cl : cell) :
  cells w !! a = Some cl -> limits w !! a = Some (max cl).
Proof. intros H. unfold limits. rewrite list_lookup_fmap, H. reflexivity. Qed.

Lemma one_at_nonneg (a a' : nat) : 0 <= one_at a a'.
Proof. unfold one_at. destruct (Nat.eqb a' a); lia. Qed.

(** [running] is never negative. *)
Lemma running_nonneg (owed : nat -> Z) (w : world) (a : nat) (cl : cell) :
  accounted owed w -> 0 <= owed a -> cells w !! a = Some cl -> 0 <= running cl.
Proof.
  intros Hacc Hown Hcl. destruct (Hacc a cl Hcl) as [Hr _].
  pose proof (count_nonneg a (flying w)). pose proof (count_nonneg a (leaked w)).
  lia.
Qed.

(** *** A limit of zero *)

Lemma run_limit_zero (owed : nat -> Z) (a c : nat) (w w' : world) (a0 : nat) :
  accounted owed w -> 0 <= owed a0 -> limits w !! a0 = Some 0 ->
  run a c w = Some w' -> started_at a0 w' = started_at a0 w.
Proof.
  intros Hacc Hown Hlim Hrun. unfold started_at.
  destruct (limit_cell _ _ _ Hlim) as (cl0 & Hcl0 & Hmax).
  pose proof (running_nonneg _ _ _ _ Hacc Hown Hcl0) as Hnn.
  destruct (Hacc a0 cl0 Hcl0) as [_ Hb].
  unfold run in Hrun.
  destruct (cells w !! a) as [cl|] eqn:Hcl; simpl in Hrun; [|discriminate].
  destruct (running cl =? max cl) eqn:Heq; injection Hrun as <-;
    cbn [trace emit set_cell takeoff]; rewrite started_snoc, at_wrapper_app.
  - apply app_nil_r.
  - destruct (decide (a = a0)) as [->|Hna].
    + exfalso. rewrite Hcl0 in Hcl. injection Hcl as <-.
      apply Z.eqb_neq in Heq. lia.
    + rewrite (at_wrapper_other _ _ _ Hna). apply app_nil_r.
Qed.

Lemma run_all_limit_zero (owed : nat -> Z) (a0 : nat) (l : list (nat * nat)) :
  forall w w',
    accounted owed w -> 0 <= owed a0 -> limits w !! a0 = Some 0 ->
    run_all l w = Some w' -> started_at a0 w' = started_at a0 w.
Proof.
  induction l as [|[a c] l IH]; intros w w' Hacc Hown Hlim Hrun;
    cbn [run_all] in Hrun.
  - injection Hrun as <-. reflexivity.
  - destruct (run a c w) as [w1|] eqn:H1; simpl in Hrun; [|discriminate].
    rewrite (IH w1 w' (run_accounted _ _ _ _ _ Hacc H1) Hown); [| |exact Hrun].
    + exact (run_limit_zero _ _ _ _ _ _ Hacc Hown Hlim H1).
    + rewrite (run_limits _ _ _ _ H1). exact Hlim.
Qed.

(** The decrement and the dequeue start nothing. *)
Lemma settle_started (a : nat) (w w' : world) :
  settle a w = Some w' -> started (trace w') = started (trace w).
Proof.
  intros Hs. unfold settle in Hs.
  destruct (cells w !! a) as [cl|]; simpl in Hs; [|discriminate].
  destruct (queue cl); injection Hs as <-; cbn [trace emit set_cell defer];
    rewrite ?started_snoc, ?app_nil_r; reflexivity.
Qed.

Lemma step_limit_zero (cbs : nat -> cb_action) (e : event) (w w' : world)
  (a0 : nat) :
  accounted nothing w -> limits w !! a0 = Some 0 ->
  step cbs w e = Some w' -> started_at a0 w' = started_at a0 w.
Proof.
  intros Hacc Hlim Hstep.
  assert (H0 : 0 <= nothing a0) by (unfold nothing; lia).
  destruct e as [a c|a c err val|].
  - exact (run_limit_zero _ _ _ _ _ _ Hacc H0 Hlim Hstep).
  - cbn [step] in Hstep.
    destruct (member (a, c) (flying w)) eqn:Hm; [|discriminate].
    pose proof (emit_accounted _ (Forwarded a c err val) _
                  (touchdown_accounted a c w Hacc Hm)) as Hacc1.
    unfold callback in Hstep.
    set (w1 := emit (Forwarded a c err val) (touchdown (a, c) w)) in *.
    assert (Hst1 : started_at a0 w1 = started_at a0 w).
    { subst w1. unfold started_at. cbn [trace emit touchdown].
      rewrite started_snoc, app_nil_r. reflexivity. }
    destruct (cbs c) as [|exc|l|l].
    + unfold started_at. rewrite (settle_started _ _ _ Hstep). exact Hst1.
    + injection Hstep as <-. rewrite <- Hst1. unfold started_at.
      cbn [trace emit leak]. rewrite started_snoc, app_nil_r. reflexivity.
    + destruct (run_all l w1) as [w2|] eqn:H2; simpl in Hstep; [|discriminate].
      rewrite <- Hst1,
        <- (run_all_limit_zero _ a0 l w1 w2 Hacc1 (one_at_nonneg a a0) Hlim H2).
      unfold started_at. rewrite (settle_started _ _ _ Hstep). reflexivity.
    + unfold started_at. rewrite (settle_started _ _ _ Hstep). exact Hst1.
  - cbn [step] in Hstep. destruct (ticks w) as [|[a c] rest]; [discriminate|].
    exact (run_limit_zero nothing a c
             (World (cells w) rest (flying w) (leaked w) (trace w)) w' a0
             Hacc H0 Hlim Hstep).
Qed.

Lemma exec_limit_zero (cbs : nat -> cb_action) (a0 : nat) (es : list event) :
  forall w w',
    accounted nothing w -> limits w !! a0 = Some 0 ->
    exec cbs w es = Some w' -> started_at a0 w' = started_at a0 w.
Proof.
  induction es as [|e es IH]; simpl; intros w w' Hacc Hlim Hex.
  - injection Hex as <-. reflexivity.
  - destruct (step cbs w e) as [w1|] eqn:H1; simpl in Hex; [|discriminate].
    rewrite (IH w1 w' (step_accounted _ _ _ _ Hacc H1)); [| |exact Hex].
    + exact (step_limit_zero _ _ _ _ _ Hacc Hlim H1).
    + rewrite (step_limits _ _ _ _ H1). exact Hlim.
Qed.

(** *** A negative limit *)

Lemma run_limit_negative (owed : nat -> Z) (a c : nat) (w w' : world)
  (a0 : nat) (m : Z) :
  accounted owed w -> 0 <= owed a0 -> limits w !! a0 = Some m -> m < 0 ->
  queue_at a0 w = [] -> run a c w = Some w' -> queue_at a0 w' = [].
Proof.
  intros Hacc Hown Hlim Hneg Hq Hrun.
  destruct (limit_cell _ _ _ Hlim) as (cl0 & Hcl0 & Hmax).
  pose proof (running_nonneg _ _ _ _ Hacc Hown Hcl0) as Hnn.
  unfold queue_at in *. rewrite Hcl0 in Hq. cbn in Hq.
  unfold run in Hrun.
  destruct (cells w !! a) as [cl|] eqn:Hcl; simpl in Hrun; [|discriminate].
  pose proof (lookup_lt_Some _ _ _ Hcl) as Hlt.
  destruct (decide (a = a0)) as [->|Hna].
  - rewrite Hcl0 in Hcl. injection Hcl as <-.
    destruct (running cl0 =? max cl0) eqn:Heq.
    + apply Z.eqb_eq in Heq. lia.
    + injection Hrun as <-. cbn [cells emit set_cell takeoff].
      rewrite list_lookup_insert_eq by exact Hlt. exact Hq.
  - destruct (running cl =? max cl); injection Hrun as <-;
      cbn [cells emit set_cell takeoff];
      rewrite list_lookup_insert_ne by exact Hna; rewrite Hcl0; exact Hq.
Qed.

Lemma run_all_limit_negative (owed : nat -> Z) (a0 : nat) (m : Z)
  (l : list (nat * nat)) :
  forall w w',
    accounted owed w -> 0 <= owed a0 -> limits w !! a0 = Some m -> m < 0 ->
    queue_at a0 w = [] -> run_all l w = Some w' -> queue_at a0 w' = [].
Proof.
  induction l as [|[a c] l IH]; intros w w' Hacc Hown Hlim Hneg Hq Hrun;
    cbn [run_all] in Hrun.
  - injection Hrun as <-. exact Hq.
  - destruct (run a c w) as [w1|] eqn:H1; simpl in Hrun; [|discriminate].
    apply (IH w1 w' (run_accounted _ _ _ _ _ Hacc H1) Hown); [|exact Hneg| |exact Hrun].
    + rewrite (run_limits _ _ _ _ H1). exact Hlim.
    + exact (run_limit_negative _ _ _ _ _ _ _ Hacc Hown Hlim Hneg Hq H1).
Qed.

(** The dequeue leaves an empty queue empty. *)
Lemma settle_queue_empty (a : nat) (w w' : world) (a0 : nat) :
  queue_at a0 w = [] -> settle a w = Some w' -> queue_at a0 w' = [].
Proof.
  intros Hq Hs. unfold queue_at in *. unfold settle in Hs.
  destruct (cells w !! a) as [cl|] eqn:Hcl; simpl in Hs; [|discriminate].
  pose proof (lookup_lt_Some _ _ _ Hcl) as Hlt.
  destruct (decide (a = a0)) as [->|Hna].
  - rewrite Hcl in Hq. cbn in Hq. rewrite Hq in Hs. injection Hs as <-.
    cbn [cells emit set_cell]. rewrite list_lookup_insert_eq by exact Hlt.
    reflexivity.
  - destruct (queue cl); injection Hs as <-; cbn [cells emit set_cell defer];
      rewrite !list_lookup_insert_ne by exact Hna; exact Hq.
Qed.

Lemma step_limit_negative (cbs : nat -> cb_action) (e : event) (w w' : world)
  (a0 : nat) (m : Z) :
  accounted nothing w -> limits w !! a0 = Some m -> m < 0 ->
  queue_at a0 w = [] -> step cbs w e = Some w' -> queue_at a0 w' = [].
Proof.
  intros Hacc Hlim Hneg Hq Hstep.
  assert (H0 : 0 <= nothing a0) by (unfold nothing; lia).
  destruct e as [a c|a c err val|].
  - exact (run_limit_negative _ _ _ _ _ _ _ Hacc H0 Hlim Hneg Hq Hstep).
  - cbn [step] in Hstep.
    destruct (member (a, c) (flying w)) eqn:Hm; [|discriminate].
    pose proof (emit_accounted _ (Forwarded a c err val) _
                  (touchdown_accounted a c w Hacc Hm)) as Hacc1.
    unfold callback in Hstep.
    set (w1 := emit (Forwarded a c err val) (touchdown (a, c) w)) in *.
    assert (Hq1 : queue_at a0 w1 = []) by exact Hq.
    assert (Hlim1 : limits w1 !! a0 = Some m) by exact Hlim.
    destruct (cbs c) as [|exc|l|l].
    + exact (settle_queue_empty _ _ _ _ Hq1 Hstep).
    + injection Hstep as <-. exact Hq.
    + destruct (run_all l w1) as [w2|] eqn:H2; simpl in Hstep; [|discriminate].
      apply (settle_queue_empty _ _ _ _ 
               (run_all_limit_negative _ a0 m l w1 w2 Hacc1 (one_at_nonneg a a0)
                  Hlim1 Hneg Hq1 H2) Hstep).
    + apply (settle_queue_empty a (defer_all l w1) w' a0); [exact Hq|exact Hstep].
  - cbn [step] in Hstep. destruct (ticks w) as [|[a c] rest]; [discriminate|].
    exact (run_limit_negative nothing a c
             (World (cells w) rest (flying w) (leaked w) (trace w)) w' a0 m
             Hacc H0 Hlim Hneg Hq Hstep).
Qed.

Lemma exec_limit_negative (cbs : nat -> cb_action) (a0 : nat) (m : Z)
  (es : list event) :
  forall w w',
    accounted nothing w -> limits w !! a0 = Some m -> m < 0 ->
    queue_at a0 w = [] -> exec cbs w es = Some w' -> queue_at a0 w' = [].
Proof.
  induction es as [|e es IH]; simpl; intros w w' Hacc Hlim Hneg Hq Hex.
  - injection Hex as <-. exact Hq.
  - destruct (step cbs w e) as [w1|] eqn:H1; simpl in Hex; [|discriminate].
    apply (IH w1 w' (step_accounted _ _ _ _ Hacc H1)); [|exact Hneg| |exact Hex].
    + rewrite (step_limits _ _ _ _ H1). exact Hlim.
    + exact (step_limit_negative _ _ _ _ _ _ Hacc Hlim Hneg Hq H1).
Qed.

Lemma boot_queue (s : store) (a : nat) : fresh s -> queue_at a (boot s) = [].
Proof.
  intros Hfresh. unfold queue_at. cbn [cells boot].
  destruct (s !! a) as [cl|] eqn:Hcl; [|reflexivity]. cbn.
  exact (proj2 (proj1 (Forall_lookup _ _) Hfresh a cl Hcl)).
Qed.

(** *** No slot stays idle *)

Lemma run_busy (a c : nat) (w w' : world) :
  (forall a' cl, cells w !! a' = Some cl -> queue cl <> [] ->
     max cl <= running cl + Z.of_nat (length (waiting_at a' w)) + one_at a a') ->
  run a c w = Some w' -> no_idle_slot w'.
Proof.
  intros Hb Hrun a' cl' Hcl' Hq'. unfold run in Hrun.
  destruct (cells w !! a) as [cl|] eqn:Hcl; simpl in Hrun; [|discriminate].
  pose proof (lookup_lt_Some _ _ _ Hcl) as Hlt.
  destruct (running cl =? max cl) eqn:Heq; injection Hrun as <-;
    unfold waiting_at in *; cbn [cells ticks emit set_cell takeoff] in *.
  - destruct (decide (a = a')) as [<-|Hna].
    + rewrite list_lookup_insert_eq in Hcl' by exact Hlt. injection Hcl' as <-.
      cbn [max running]. apply Z.eqb_eq in Heq. lia.
    + rewrite list_lookup_insert_ne in Hcl' by exact Hna.
      specialize (Hb a' cl' Hcl' Hq'). rewrite (one_at_other _ _ Hna) in Hb. lia.
  - destruct (decide (a = a')) as [<-|Hna].
    + rewrite list_lookup_insert_eq in Hcl' by exact Hlt. injection Hcl' as <-.
      cbn [max running queue] in *. specialize (Hb a cl Hcl Hq').
      rewrite one_at_same in Hb. lia.
    + rewrite list_lookup_insert_ne in Hcl' by exact Hna.
      specialize (Hb a' cl' Hcl' Hq'). rewrite (one_at_other _ _ Hna) in Hb. lia.
Qed.

Lemma run_busy_idle (a c : nat) (w w' : world) :
  no_idle_slot w -> run a c w = Some w' -> no_idle_slot w'.
Proof.
  intros Hb. apply run_busy. intros a' cl Hcl Hq.
  pose proof (Hb a' cl Hcl Hq). pose proof (one_at_nonneg a a'). lia.
Qed.

Lemma run_all_busy (l : list (nat * nat)) :
  forall w w', no_idle_slot w -> run_all l w = Some w' -> no_idle_slot w'.
Proof.
  induction l as [|[a c] l IH]; intros w w' Hb Hrun; cbn [run_all] in Hrun.
  - injection Hrun as <-. exact Hb.
  - destruct (run a c w) as [w1|] eqn:H1; simpl in Hrun; [|discriminate].
    exact (IH w1 w' (run_busy_idle _ _ _ _ Hb H1) Hrun).
Qed.

Lemma settle_busy (a : nat) (w w' : world) :
  no_idle_slot w -> settle a w = Some w' -> no_idle_slot w'.
Proof.
  intros Hb Hs a' cl' Hcl' Hq'. unfold settle in Hs.
  destruct (cells w !! a) as [cl|] eqn:Hcl; simpl in Hs; [|discriminate].
  pose proof (lookup_lt_Some _ _ _ Hcl) as Hlt.
  destruct (queue cl) as [|next rest] eqn:Hqc; injection Hs as <-;
    unfold waiting_at; cbn [cells ticks emit set_cell defer] in *;
    rewrite ?list_insert_insert_eq in Hcl'.
  - destruct (decide (a = a')) as [<-|Hna].
    + rewrite list_lookup_insert_eq in Hcl' by exact Hlt. injection Hcl' as <-.
      exfalso. apply Hq'. reflexivity.
    + rewrite list_lookup_insert_ne in Hcl' by exact Hna.
      exact (Hb a' cl' Hcl' Hq').
  - destruct (decide (a = a')) as [<-|Hna].
    + rewrite list_lookup_insert_eq in Hcl' by exact Hlt. injection Hcl' as <-.
      cbn [max running]. rewrite at_wrapper_app, at_wrapper_same, length_app.
      cbn [length].
      assert (Hne : queue cl <> []) by (rewrite Hqc; discriminate).
      specialize (Hb a cl Hcl Hne). unfold waiting_at in Hb. lia.
    + rewrite list_lookup_insert_ne in Hcl' by exact Hna.
      rewrite at_wrapper_app, (at_wrapper_other _ _ _ Hna), app_nil_r.
      exact (Hb a' cl' Hcl' Hq').
Qed.

Lemma defer_all_busy (l : list (nat * nat)) (w : world) :
  no_idle_slot w -> no_idle_slot (defer_all l w).
Proof.
  intros Hb a cl Hcl Hq. specialize (Hb a cl Hcl Hq).
  unfold waiting_at in *. cbn [ticks defer_all].
  rewrite at_wrapper_app, length_app. lia.
Qed.

Lemma step_busy (cbs : nat -> cb_action) (e : event) (w w' : world) :
  no_idle_slot w -> step cbs w e = Some w' -> no_idle_slot w'.
Proof.
  intros Hb Hstep. destruct e as [a c|a c err val|].
  - exact (run_busy_idle _ _ _ _ Hb Hstep).
  - cbn [step] in Hstep.
    destruct (member (a, c) (flying w)); [|discriminate].
    unfold callback in Hstep.
    set (w1 := emit (Forwarded a c err val) (touchdown (a, c) w)) in *.
    assert (Hb1 : no_idle_slot w1) by exact Hb.
    destruct (cbs c) as [|exc|l|l].
    + exact (settle_busy _ _ _ Hb1 Hstep).
    + injection Hstep as <-. exact Hb.
    + destruct (run_all l w1) as [w2|] eqn:H2; simpl in Hstep; [|discriminate].
      exact (settle_busy _ _ _ (run_all_busy l w1 w2 Hb1 H2) Hstep).
    + exact (settle_busy _ _ _ (defer_all_busy l w1 Hb1) Hstep).
  - cbn [step] in Hstep. destruct (ticks w) as [|[a c] rest] eqn:Ht;
      [discriminate|].
    apply (run_busy a c
             (World (cells w) rest (flying w) (leaked w) (trace w)) w');
      [|exact Hstep].
    intros a' cl Hcl Hq. specialize (Hb a' cl Hcl Hq).
    unfold waiting_at in *. cbn [cells ticks] in *. rewrite Ht in Hb.
    change ((a, c) :: rest) with ([(a, c)] ++ rest) in Hb.
    rewrite at_wrapper_app, length_app in Hb.
    destruct (decide (a = a')) as [<-|Hna].
    + rewrite at_wrapper_same in Hb. rewrite one_at_same. cbn [length] in Hb. lia.
    + rewrite (at_wrapper_other _ _ _ Hna) in Hb. cbn [length] in Hb.
      pose proof (one_at_nonneg a a'). lia.
Qed.

Lemma exec_busy (cbs : nat -> cb_action) (es : list event) :
  forall w w', no_idle_slot w -> exec cbs w es = Some w' -> no_idle_slot w'.
Proof.
  induction es as [|e es IH]; simpl; intros w w' Hb Hex.
  - injection Hex as <-. exact Hb.
  - destruct (step cbs w e) as [w1|] eqn:H1; simpl in Hex; [|discriminate].
    exact (IH w1 w' (step_busy _ _ _ _ Hb H1) Hex).
Qed.

Lemma boot_busy (s : store) : fresh s -> no_idle_slot (boot s).
Proof.
  intros Hfresh a cl Hcl Hq. exfalso. apply Hq.
  exact (proj2 (proj1 (Forall_lookup _ _) Hfresh a cl Hcl)).
Qed.

End ThrottleLedgerFacts.

(** ** Throttle: steady schedules *)

Module ThrottleSteady.
Import JS Throttle ThrottleNotions ThrottleAccounts ThrottleCompletion
  ThrottleOrder ThrottleLedger.

Lemma run_ticks (a c : nat) (w w' : world) :
  run a c w = Some w' -> ticks w' = ticks w.
Proof.
  unfold run. intros Hrun.
  destruct (cells w !! a) as [cl|]; simpl in Hrun; [|discriminate].
  destruct (running cl =? max cl); injection Hrun as <-; reflexivity.
Qed.

Lemma boot_paced (s : store) : fresh s -> paced (boot s).
Proof.
  intros Hfresh a cl Hcl. split.
  - intros Hq. exfalso. apply Hq.
    exact (proj2 (proj1 (Forall_lookup _ _) Hfresh a cl Hcl)).
  - intros Hw. exfalso. apply Hw. reflexivity.
Qed.

(** A call of a wrapper none of whose calls waits for its tick goes to
    the end of the line. *)
Lemma run_steady (a c : nat) (w w' : world) :
  paced w -> waiting_at a w = [] -> run a c w = Some w' ->
  paced w'
  /\ forall a', line a' w' = line a' w ++ at_wrapper a' [(a, c)].
Proof.
  intros Hp Hwait Hrun. pose proof (run_ticks _ _ _ _ Hrun) as Ht.
  unfold run in Hrun.
  destruct (cells w !! a) as [cl|] eqn:Hcl; simpl in Hrun; [|discriminate].
  pose proof (lookup_lt_Some _ _ _ Hcl) as Hlt.
  destruct (Hp a cl Hcl) as [Hfull _]. rewrite Hwait in Hfull.
  cbn [length] in Hfull.
  destruct (running cl =? max cl) eqn:Heq; injection Hrun as <-.
  - apply Z.eqb_eq in Heq. split.
    + intros a' cl' Hcl'. unfold waiting_at. cbn [cells ticks emit set_cell] in *.
      destruct (decide (a = a')) as [<-|Hna].
      * rewrite list_lookup_insert_eq in Hcl' by exact Hlt.
        injection Hcl' as <-. cbn [queue running max].
        unfold waiting_at in Hwait. rewrite Hwait. cbn [length].
        split; [intros _; lia|intros H; exfalso; apply H; reflexivity].
      * rewrite list_lookup_insert_ne in Hcl' by exact Hna.
        exact (Hp a' cl' Hcl').
    + intros a'. shape. destruct (decide (a = a')) as [<-|Hna].
      * rewrite list_lookup_insert_eq by exact Hlt.
        rewrite Hcl, at_wrapper_same. tidy.
      * rewrite list_lookup_insert_ne by exact Hna.
        rewrite (at_wrapper_other _ _ _ Hna). tidy.
  - apply Z.eqb_neq in Heq.
    assert (Hq : queue cl = []).
    { destruct (queue cl) as [|c0 q] eqn:Hq; [reflexivity|].
      exfalso. apply Heq. rewrite <- Hfull by discriminate. lia. }
    split.
    + intros a' cl' Hcl'. unfold waiting_at.
      cbn [cells ticks emit set_cell takeoff] in *.
      destruct (decide (a = a')) as [<-|Hna].
      * rewrite list_lookup_insert_eq in Hcl' by exact Hlt.
        injection Hcl' as <-. cbn [queue running max].
        unfold waiting_at in Hwait. rewrite Hwait, Hq.
        split; intros H; exfalso; apply H; reflexivity.
      * rewrite list_lookup_insert_ne in Hcl' by exact Hna.
        exact (Hp a' cl' Hcl').
    + intros a'. shape. destruct (decide (a = a')) as [<-|Hna].
      * rewrite list_lookup_insert_eq by exact Hlt.
        rewrite Hcl, at_wrapper_same. unfold waiting_at in Hwait.
        rewrite Hwait. tidy. rewrite Hq. reflexivity.
      * rewrite list_lookup_insert_ne by exact Hna.
        rewrite (at_wrapper_other _ _ _ Hna). tidy.
Qed.

Lemma run_all_steady (l : list (nat * nat)) :
  forall w w',
    paced w -> Forall (fun t => waiting_at (fst t) w = []) l ->
    run_all l w = Some w' ->
    paced w' /\ forall a', line a' w' = line a' w ++ at_wrapper a' l.
Proof.
  induction l as [|[a c] l IH]; intros w w' Hp Hall Hrun; cbn [run_all] in Hrun.
  - injection Hrun as <-. split; [exact Hp|]. intros a'.
    change (at_wrapper a' []) with (@nil nat). rewrite app_nil_r. reflexivity.
  - destruct (run a c w) as [w1|] eqn:H1; simpl in Hrun; [|discriminate].
    inversion Hall as [|t l' Ha Hl]; subst. cbn [fst] in Ha.
    destruct (run_steady _ _ _ _ Hp Ha H1) as [Hp1 Hline1].
    destruct (IH w1 w' Hp1) as [Hp' Hline']; [|exact Hrun|].
    { unfold waiting_at in *. rewrite (run_ticks _ _ _ _ H1). exact Hl. }
    split; [exact Hp'|]. intros a'.
    rewrite Hline', Hline1, <- app_assoc.
    change ((a, c) :: l) with ([(a, c)] ++ l). rewrite at_wrapper_app.
    reflexivity.
Qed.

(** The decrement and the dequeue keep the pace and every line. *)
Lemma settle_steady (a : nat) (w w' : world) :
  paced w -> settle a w = Some w' ->
  paced w' /\ forall a', line a' w' = line a' w.
Proof.
  intros Hp Hs. unfold settle in Hs.
  destruct (cells w !! a) as [cl|] eqn:Hcl; simpl in Hs; [|discriminate].
  pose proof (lookup_lt_Some _ _ _ Hcl) as Hlt.
  destruct (Hp a cl Hcl) as [Hfull Hin].
  destruct (queue cl) as [|next rest] eqn:Hq; injection Hs as <-.
  - split.
    + intros a' cl' Hcl'. unfold waiting_at in *.
      cbn [cells ticks emit set_cell] in *.
      destruct (decide (a = a')) as [<-|Hna].
      * rewrite list_lookup_insert_eq in Hcl' by exact Hlt.
        injection Hcl' as <-. cbn [queue running max].
        split; [intros H; exfalso; apply H; reflexivity|].
        intros Hw. specialize (Hin Hw). lia.
      * rewrite list_lookup_insert_ne in Hcl' by exact Hna.
        exact (Hp a' cl' Hcl').
    + intros a'. shape. destruct (decide (a = a')) as [<-|Hna].
      * rewrite list_lookup_insert_eq by exact Hlt. rewrite Hcl. tidy.
        rewrite Hq. tidy.
      * rewrite list_lookup_insert_ne by exact Hna. tidy.
  - assert (Hsum : running cl + Z.of_nat (length (waiting_at a w)) = max cl)
      by (apply Hfull; discriminate).
    split.
    + intros a' cl' Hcl'. unfold waiting_at in *.
      cbn [cells ticks emit set_cell defer] in *.
      rewrite list_insert_insert_eq in Hcl'. rewrite at_wrapper_app.
      destruct (decide (a = a')) as [<-|Hna].
      * rewrite list_lookup_insert_eq in Hcl' by exact Hlt.
        injection Hcl' as <-. cbn [queue running max].
        rewrite at_wrapper_same, length_app. cbn [length].
        split; intros _; lia.
      * rewrite list_lookup_insert_ne in Hcl' by exact Hna.
        rewrite (at_wrapper_other _ _ _ Hna), app_nil_r.
        exact (Hp a' cl' Hcl').
    + intros a'. shape. destruct (decide (a = a')) as [<-|Hna].
      * rewrite list_lookup_insert_eq by exact Hlt.
        rewrite Hcl, at_wrapper_same. tidy. rewrite Hq. reflexivity.
      * rewrite list_lookup_insert_ne by exact Hna.
        rewrite (at_wrapper_other _ _ _ Hna). tidy.
Qed.

(** The tick of a dequeued call starts it: its wrapper has a slot. *)
Lemma tick_steady (a c : nat) (rest : list (nat * nat)) (w w' : world) :
  paced w -> ticks w = (a, c) :: rest ->
  run a c (World (cells w) rest (flying w) (leaked w) (trace w)) = Some w' ->
  paced w' /\ forall a', line a' w' = line a' w.
Proof.
  intros Hp Ht Hrun. unfold run in Hrun. cbn [cells] in Hrun.
  destruct (cells w !! a) as [cl|] eqn:Hcl; simpl in Hrun; [|discriminate].
  pose proof (lookup_lt_Some _ _ _ Hcl) as Hlt.
  destruct (Hp a cl Hcl) as [Hfull Hin].
  assert (Hwa : waiting_at a w = c :: at_wrapper a rest).
  { unfold waiting_at. rewrite Ht.
    change ((a, c) :: rest) with ([(a, c)] ++ rest).
    rewrite at_wrapper_app, at_wrapper_same. reflexivity. }
  rewrite Hwa in Hfull, Hin. cbn [length] in Hfull, Hin.
  assert (Hlt' : running cl + Z.of_nat (S (length (at_wrapper a rest)))
                 <= max cl) by (apply Hin; discriminate).
  destruct (running cl =? max cl) eqn:Heq; [apply Z.eqb_eq in Heq; lia|].
  injection Hrun as <-. split.
  - intros a' cl' Hcl'. unfold waiting_at.
    cbn [cells ticks emit set_cell takeoff] in *.
    destruct (decide (a = a')) as [<-|Hna].
    + rewrite list_lookup_insert_eq in Hcl' by exact Hlt.
      injection Hcl' as <-. cbn [queue running max].
      split; [intros Hq; specialize (Hfull Hq); lia|intros _; lia].
    + rewrite list_lookup_insert_ne in Hcl' by exact Hna.
      pose proof (Hp a' cl' Hcl') as H. unfold waiting_at in H.
      rewrite Ht in H. change ((a, c) :: rest) with ([(a, c)] ++ rest) in H.
      rewrite at_wrapper_app, (at_wrapper_other _ _ _ Hna) in H. exact H.
  - intros a'. shape. rewrite Ht.
    change ((a, c) :: rest) with ([(a, c)] ++ rest). rewrite at_wrapper_app.
    destruct (decide (a = a')) as [<-|Hna].
    + rewrite list_lookup_insert_eq by exact Hlt.
      rewrite Hcl, at_wrapper_same. tidy.
    + rewrite list_lookup_insert_ne by exact Hna.
      rewrite (at_wrapper_other _ _ _ Hna). tidy.
Qed.

Lemma step_steady (cbs : nat -> cb_action) (e : event) (w w' : world) :
  paced w -> steady cbs w e -> step cbs w e = Some w' ->
  paced w' /\ forall a', line a' w' = line a' w ++ arrivals cbs a' e.
Proof.
  intros Hp Hst Hstep. destruct e as [a c|a c err val|].
  - exact (run_steady _ _ _ _ Hp Hst Hstep).
  - cbn [step] in Hstep. cbn [steady arrivals] in *.
    destruct (member (a, c) (flying w)); [|discriminate].
    unfold callback in Hstep.
    set (w1 := emit (Forwarded a c err val) (touchdown (a, c) w)) in *.
    assert (Hp1 : paced w1) by exact Hp.
    assert (Hline1 : forall a', line a' w1 = line a' w).
    { intros a'. subst w1. shape. tidy. }
    destruct (cbs c) as [|exc|l|l].
    + destruct (settle_steady _ _ _ Hp1 Hstep) as [Hp' Hline'].
      split; [exact Hp'|]. intros a'.
      rewrite Hline', Hline1, app_nil_r. reflexivity.
    + injection Hstep as <-. split; [exact Hp|]. intros a'.
      subst w1. shape. tidy.
    + destruct (run_all l w1) as [w2|] eqn:H2; simpl in Hstep; [|discriminate].
      destruct (run_all_steady l w1 w2 Hp1 Hst H2) as [Hp2 Hline2].
      destruct (settle_steady _ _ _ Hp2 Hstep) as [Hp' Hline'].
      split; [exact Hp'|]. intros a'. rewrite Hline', Hline2, Hline1.
      reflexivity.
    + subst l. unfold defer_all in Hstep. rewrite app_nil_r in Hstep.
      destruct (settle_steady a
                  (World (cells w1) (ticks w1) (flying w1) (leaked w1) (trace w1))
                  w' Hp1 Hstep) as [Hp' Hline'].
      split; [exact Hp'|]. intros a'. rewrite Hline', app_nil_r.
      exact (Hline1 a').
  - cbn [step] in Hstep. destruct (ticks w) as [|[a c] rest] eqn:Ht;
      [discriminate|].
    destruct (tick_steady a c rest w w' Hp Ht Hstep) as [Hp' Hline'].
    split; [exact Hp'|]. intros a'. cbn [arrivals]. rewrite app_nil_r.
    exact (Hline' a').
Qed.

Lemma exec_steady (cbs : nat -> cb_action) (es : list event) :
  forall w w',
    paced w -> steadily cbs w es -> exec cbs w es = Some w' ->
    forall a, line a w' = line a w ++ flat_map (arrivals cbs a) es.
Proof.
  induction es as [|e es IH]; simpl; intros w w' Hp Hst Hex a.
  - injection Hex as <-. rewrite app_nil_r. reflexivity.
  - destruct Hst as [He Hrest].
    destruct (step cbs w e) as [w1|] eqn:H1; simpl in Hex; [|discriminate].
    destruct (step_steady cbs e w w1 Hp He H1) as [Hp1 Hline1].
    rewrite (IH w1 w' Hp1 Hrest Hex a), Hline1, <- app_assoc. reflexivity.
Qed.

End ThrottleSteady.

(** ** Throttle: what every schedule guarantees *)

Module ThrottleGuarantees.
Import JS Throttle ThrottleNotions ThrottleAccounts ThrottleCompletion
  ThrottleOrder ThrottleLedger ThrottleLedgerFacts ThrottleSteady.

(** X1: on every schedule of submissions, completions and ticks, whatever
    the callers' callbacks do (return, throw, submit or defer further
    calls), a wrapper created with a limit that is not negative keeps its
    limit, its [running] count is the number of executions in flight plus
    the number of completions whose callback threw, and neither [running]
    nor the number of executions in flight ever exceeds the limit. *)
Theorem limit_holds_on_every_schedule (cbs : nat -> cb_action) (s : store)
  (es : list event) (w : world) (a : nat) (cl0 : cell) :
  fresh s -> s !! a = Some cl0 -> 0 <= max cl0 ->
  exec cbs (boot s) es = Some w ->
  exists cl,
    cells w !! a = Some cl /\ max cl = max cl0
    /\ running cl = count a (flying w) + count a (leaked w)
    /\ 0 <= running cl <= max cl0
    /\ count a (flying w) <= max cl0.
Proof.
  intros Hfresh Hcl0 Hmax Hex.
  pose proof (exec_accounted cbs es _ _ (boot_accounted s Hfresh) Hex) as Hacc.
  destruct (limit_kept (boot s) w a cl0 (exec_limits cbs es _ _ Hex) Hcl0)
    as (cl & Hcl & Hm).
  destruct (Hacc a cl Hcl) as [Hr Hb]. unfold nothing in Hr.
  pose proof (count_nonneg a (flying w)). pose proof (count_nonneg a (leaked w)).
  exists cl. split; [exact Hcl|]. split; [exact Hm|].
  rewrite Hm in Hb. specialize (Hb Hmax). repeat split; lia.
Qed.

Lemma limit_holds_on_every_schedule_witness :
  let cbs (c : nat) := CbReturn in
  let s := [Cell (VFun (App 0) "get" []) 1 0 []] in
  fresh s
  /\ exec cbs (boot s) [Submit 0 1; Submit 0 2; Submit 0 3] = Some one_at_a_time
  /\ exists cl, cells one_at_a_time !! 0%nat = Some cl /\ 0 <= running cl <= 1.
Proof.
  intros cbs s.
  assert (Hfresh : fresh s) by (repeat constructor).
  assert (H1 : 0 <= 1) by lia.
  split; [exact Hfresh|]. split; [reflexivity|].
  destruct (limit_holds_on_every_schedule cbs s
              [Submit 0 1; Submit 0 2; Submit 0 3] one_at_a_time 0
              (Cell (VFun (App 0) "get" []) 1 0 []) Hfresh eq_refl H1 eq_refl)
    as (cl & Hcl & _ & _ & Hr & _).
  exists cl. split; assumption.
Defined.

(** X2: as long as no call is handed to a wrapper while one of its
    dequeued calls waits for its tick (and no callback defers a call), a
    wrapper serves its calls first come, first served, whatever
    completes in the meantime: the calls it has started, then its
    dequeued calls that wait for their tick, then its queue, are exactly
    the calls that reached it, in the order in which they reached it. *)
Theorem steady_schedule_serves_in_arrival_order (cbs : nat -> cb_action)
  (s : store) (es : list event) (w : world) (a : nat) :
  fresh s -> steadily cbs (boot s) es -> exec cbs (boot s) es = Some w ->
  started_at a w ++ waiting_at a w ++ queue_at a w
  = flat_map (arrivals cbs a) es.
Proof.
  intros Hfresh Hst Hex.
  pose proof (exec_steady cbs es _ _ (boot_paced s Hfresh) Hst Hex a) as H.
  rewrite (boot_line s a Hfresh) in H. exact H.
Qed.

Lemma steady_schedule_serves_in_arrival_order_witness :
  let cbs (c : nat) := CbReturn in
  let s := [Cell (VFun (App 0) "get" []) 2 0 []] in
  let es := [Submit 0 1; Submit 0 2; Submit 0 3; Submit 0 4;
             Complete 0 1 VUndefined VUndefined;
             Complete 0 2 VUndefined VUndefined; Tick; Tick] in
  fresh s /\ steadily cbs (boot s) es
  /\ exec cbs (boot s) es = Some two_in_turn
  /\ started_at 0 two_in_turn ++ waiting_at 0 two_in_turn
       ++ queue_at 0 two_in_turn = [1; 2; 3; 4]%nat.
Proof.
  intros cbs s es.
  assert (Hfresh : fresh s) by (repeat constructor).
  assert (Hst : steadily cbs (boot s) es).
  { vm_compute. repeat split. }
  split; [exact Hfresh|]. split; [exact Hst|]. split; [reflexivity|].
  exact (steady_schedule_serves_in_arrival_order cbs s es two_in_turn 0
           Hfresh Hst eq_refl).
Defined.

(** X3: on every schedule, no call is lost and none is run twice: the
    calls a wrapper has started, those that wait for their tick and those
    in its queue are, up to their order, exactly the calls handed to the
    wrapper (submitted, or submitted or deferred by a callback), each as
    often as it was handed. *)
Theorem no_call_lost_or_doubled (cbs : nat -> cb_action) (s : store)
  (es : list event) (w : world) (a : nat) :
  fresh s -> exec cbs (boot s) es = Some w ->
  started_at a w ++ waiting_at a w ++ queue_at a w
  ≡ₚ flat_map (handed cbs a) es.
Proof.
  intros Hfresh Hex.
  pose proof (exec_handed cbs es _ _ Hex a) as H.
  rewrite (boot_line s a Hfresh) in H. exact H.
Qed.

Lemma no_call_lost_or_doubled_witness :
  let cbs (c : nat) := CbReturn in
  let s := [Cell (VFun (App 0) "get" []) 1 0 []] in
  let es := [Submit 0 1; Submit 0 2; Submit 0 3] in
  fresh s /\ exec cbs (boot s) es = Some one_at_a_time
  /\ started_at 0 one_at_a_time ++ waiting_at 0 one_at_a_time
       ++ queue_at 0 one_at_a_time ≡ₚ [1; 2; 3]%nat.
Proof.
  intros cbs s es.
  assert (Hfresh : fresh s) by (repeat constructor).
  split; [exact Hfresh|]. split; [reflexivity|].
  exact (no_call_lost_or_doubled cbs s es one_at_a_time 0 Hfresh eq_refl).
Defined.

(** X4: a wrapper created with the limit 0 never applies its function:
    on every schedule it has started nothing, and every call handed to it
    sits in its queue (or waits for a tick, to be queued then). *)
Theorem limit_zero_starts_nothing (cbs : nat -> cb_action) (s : store)
  (es : list event) (w : world) (a : nat) (cl0 : cell) :
  fresh s -> s !! a = Some cl0 -> max cl0 = 0 ->
  exec cbs (boot s) es = Some w ->
  started_at a w = []
  /\ waiting_at a w ++ queue_at a w ≡ₚ flat_map (handed cbs a) es.
Proof.
  intros Hfresh Hcl0 Hmax Hex.
  assert (Hst : started_at a w = []).
  { rewrite (exec_limit_zero cbs a es (boot s) w (boot_accounted s Hfresh));
      [reflexivity| |exact Hex].
    rewrite (cell_limit (boot s) a cl0 Hcl0), Hmax. reflexivity. }
  split; [exact Hst|].
  pose proof (exec_handed cbs es _ _ Hex a) as H.
  rewrite (boot_line s a Hfresh) in H. unfold line in H.
  fold (started_at a w) in H. rewrite Hst in H. exact H.
Qed.

Lemma limit_zero_starts_nothing_witness :
  let cbs (c : nat) := CbReturn in
  let s := [Cell (VFun (App 0) "get" []) 0 0 []] in
  let es := [Submit 0 1; Submit 0 2] in
  fresh s /\ exec cbs (boot s) es = Some both_queued
  /\ started_at 0 both_queued = [].
Proof.
  intros cbs s es.
  assert (Hfresh : fresh s) by (repeat constructor).
  split; [exact Hfresh|]. split; [reflexivity|].
  exact (proj1 (limit_zero_starts_nothing cbs s es both_queued 0
                  (Cell (VFun (App 0) "get" []) 0 0 [])
                  Hfresh eq_refl eq_refl eq_refl)).
Defined.

(** X5: a wrapper created with a negative limit does not throttle at
    all: [running] is never negative, so [running === max] never holds;
    on every schedule its queue is empty, and every call handed to it has
    been started (or waits for the tick on which a callback deferred
    it). *)
Theorem negative_limit_never_queues (cbs : nat -> cb_action) (s : store)
  (es : list event) (w : world) (a : nat) (cl0 : cell) :
  fresh s -> s !! a = Some cl0 -> max cl0 < 0 ->
  exec cbs (boot s) es = Some w ->
  queue_at a w = []
  /\ started_at a w ++ waiting_at a w ≡ₚ flat_map (handed cbs a) es.
Proof.
  intros Hfresh Hcl0 Hmax Hex.
  assert (Hq : queue_at a w = []).
  { exact (exec_limit_negative cbs a (max cl0) es (boot s) w
             (boot_accounted s Hfresh) (cell_limit (boot s) a cl0 Hcl0) Hmax
             (boot_queue s a Hfresh) Hex). }
  split; [exact Hq|].
  pose proof (exec_handed cbs es _ _ Hex a) as H.
  rewrite (boot_line s a Hfresh) in H. unfold line in H.
  fold (queue_at a w) in H. rewrite Hq, app_nil_r in H. exact H.
Qed.

Lemma negative_limit_never_queues_witness :
  let cbs (c : nat) := CbReturn in
  let s := [Cell (VFun (App 0) "get" []) (-1) 0 []] in
  let es := [Submit 0 1; Submit 0 2] in
  fresh s /\ -1 < 0 /\ exec cbs (boot s) es = Some both_started
  /\ queue_at 0 both_started = [].
Proof.
  intros cbs s es.
  assert (Hfresh : fresh s) by (repeat constructor).
  assert (Hneg : -1 < 0) by lia.
  split; [exact Hfresh|]. split; [exact Hneg|]. split; [reflexivity|].
  exact (proj1 (negative_limit_never_queues cbs s es both_started 0
                  (Cell (VFun (App 0) "get" []) (-1) 0 [])
                  Hfresh eq_refl Hneg eq_refl)).
Defined.

(** X6: no call waits in a queue while its wrapper has a slot to spare:
    on every schedule, a wrapper with a queued call has a limit that is
    not negative and, counting the dequeued calls that wait for their
    tick, is at its limit or above; when none of its calls waits for a
    tick it runs exactly [max] executions (in flight, or stuck behind a
    callback that threw). *)
Theorem queued_call_means_no_idle_slot (cbs : nat -> cb_action) (s : store)
  (es : list event) (w : world) (a : nat) (cl : cell) :
  fresh s -> exec cbs (boot s) es = Some w ->
  cells w !! a = Some cl -> queue cl <> [] ->
  0 <= max cl
  /\ max cl <= running cl + Z.of_nat (length (waiting_at a w))
  /\ (waiting_at a w = [] -> running cl = max cl).
Proof.
  intros Hfresh Hex Hcl Hq.
  pose proof (exec_busy cbs es _ _ (boot_busy s Hfresh) Hex a cl Hcl Hq) as Hb.
  pose proof (exec_accounted cbs es _ _ (boot_accounted s Hfresh) Hex) as Hacc.
  assert (Hmax : 0 <= max cl).
  { destruct (Z.lt_ge_cases (max cl) 0) as [Hneg|Hge]; [|exact Hge].
    exfalso. apply Hq.
    pose proof (cell_limit w a cl Hcl) as Hlim.
    rewrite (exec_limits cbs es _ _ Hex) in Hlim.
    pose proof (exec_limit_negative cbs a (max cl) es (boot s) w
                  (boot_accounted s Hfresh) Hlim Hneg (boot_queue s a Hfresh) Hex)
      as Hempty.
    unfold queue_at in Hempty. rewrite Hcl in Hempty. exact Hempty. }
  split; [exact Hmax|]. split; [exact Hb|].
  intros Hw. rewrite Hw in Hb. cbn [length] in Hb.
  destruct (Hacc a cl Hcl) as [_ Hbound]. specialize (Hbound Hmax). lia.
Qed.

Lemma queued_call_means_no_idle_slot_witness :
  let cbs (c : nat) := CbReturn in
  let s := [Cell (VFun (App 0) "get" []) 1 0 []] in
  let es := [Submit 0 1; Submit 0 2; Submit 0 3] in
  let cl := Cell (VFun (App 0) "get" []) 1 1 [2; 3]%nat in
  fresh s /\ exec cbs (boot s) es = Some one_at_a_time
  /\ cells one_at_a_time !! 0%nat = Some cl /\ queue cl <> []
  /\ 0 <= max cl.
Proof.
  intros cbs s es cl.
  assert (Hfresh : fresh s) by (repeat constructor).
  assert (Hq : queue cl <> []) by (intros H; discriminate H).
  split; [exact Hfresh|]. split; [reflexivity|]. split; [reflexivity|].
  split; [exact Hq|].
  exact (proj1 (queued_call_means_no_idle_slot cbs s es one_at_a_time 0 cl
                  Hfresh eq_refl eq_refl Hq)).
Defined.

End ThrottleGuarantees.

(** ** Router: what an adapted handler can make of a request *)

Module RouterLedgerFacts.
Import JS JSFacts Router RouterNotions RouterLedger RouterFacts.





Lemma error_done (trusted : bool) (err : value) (st : state) :
  trusted = true \/ takes err "bailout" = true ->
  error trusted err st = (call_next Chain (Some (flagged trusted err)) st, Done).
Proof.
  intros [->|Htakes]; [reflexivity|]. unfold error.
  rewrite (mark_takes trusted err Htakes). reflexivity.
Qed.



Lemma attached_response (res val : value) (st : state) :
  args st !! 1%nat = Some res -> is_object res = true ->
  exists res', args (attached res val st) !! 1%nat = Some res'
               /\ is_object res' = true.
Proof.
  intros Hres Hobj. unfold attached. cbn [args call_next].
  rewrite list_lookup_insert_eq by exact (lookup_lt_Some _ _ _ Hres).
  eexists. split; [reflexivity|]. destruct res; try discriminate; reflexivity.
Qed.

(** The calls of [next] that a handler causes while it is applied. *)
Lemma apply_ledger (trusted : bool) (m : handler) :
  trusted = true \/ proper m = true ->
  forall st res st' out,
    args st !! 1%nat = Some res -> is_object res = true ->
    apply trusted m st = (st', out) ->
    (length (nexts st') + match out with Raised _ => 1 | Done => 0 end
     = length (nexts st) + effective m)%nat
    /\ delivered st'
         ++ match out with Raised exc => [flagged trusted exc] | Done => [] end
       = delivered st ++ List.map (flagged trusted) (reported m)
    /\ match out with
       | Raised exc => trusted = true \/ takes exc "bailout" = true
       | Done => True
       end.
Proof.
  induction m as [|e|err val rest IH];
    cbn [apply proper effective reported List.map];
    intros Hok st res st' out Hres Hobj Ha.
  - injection Ha as <- <-. rewrite !app_nil_r. repeat split; lia.
  - injection Ha as <- <-. repeat split; try lia. exact Hok.
  - assert (Hrest : trusted = true \/ proper rest = true).
    { destruct Hok as [Ht|Hp]; [left; exact Ht|right].
      apply andb_true_iff in Hp. exact (proj2 Hp). }
    destruct (truthy err) eqn:Herr.
    + assert (Herrobj : trusted = true \/ takes err "bailout" = true).
      { destruct Hok as [Ht|Hp]; [left; exact Ht|right].
        apply andb_true_iff in Hp. destruct Hp as [Hp _].
        exact Hp. }
      unfold callback in Ha. rewrite Herr, (error_done _ _ _ Herrobj) in Ha.
      destruct (IH Hrest (call_next Chain (Some (flagged trusted err)) st)
                  res _ _ Hres Hobj Ha) as (Hlen & Hdel & Hout).
      rewrite delivered_call_next in Hdel. cbn [nexts call_next] in Hlen.
      rewrite length_app in Hlen. cbn [length] in Hlen.
      cbn [orb List.map]. rewrite <- app_assoc in Hdel.
      repeat split; [lia|exact Hdel|exact Hout].
    + rewrite (callback_success trusted err val res st Herr Hres Hobj) in Ha.
      destruct (truthy val) eqn:Hval; cbn [orb].
      * destruct (attached_response res val st Hres Hobj) as (res' & Hres' & Hobj').
        destruct (IH Hrest (attached res val st) res' _ _ Hres' Hobj' Ha)
          as (Hlen & Hdel & Hout).
        unfold attached in Hlen, Hdel. rewrite delivered_call_next in Hdel.
        cbn [nexts call_next] in Hlen. rewrite length_app in Hlen.
        cbn [length] in Hlen. rewrite app_nil_r in Hdel.
        repeat split; [lia|exact Hdel|exact Hout].
      * destruct (IH Hrest st res _ _ Hres Hobj Ha) as (Hlen & Hdel & Hout).
        repeat split; [lia|exact Hdel|exact Hout].
Qed.

End RouterLedgerFacts.

Module RouterGuarantees.
Import JS JSFacts Router RouterNotions RouterLedger RouterFacts
  RouterLedgerFacts.



(** X8: the adapter calls [next] once for every callback that carries an
    error or a value and once for a throw, with no guard against a
    handler that calls back more than once.  When the router is trusted
    or the errors can take the bailout flag, and the response is an
    object in its ordinary state, the middleware ends normally, the
    number of calls of [next] grows by the number of such callbacks and
    throws, and the errors delivered to [next] are exactly the errors
    reported or thrown, in their order, each flagged by the bailout
    rule. *)
Theorem next_called_once_per_report (trusted : bool) (m : handler)
  (st : state) (res : value) :
  trusted = true \/ proper m = true ->
  args st !! 1%nat = Some res -> is_object res = true ->
  exists st',
    callbackify m trusted st = (st', Done)
    /\ length (nexts st') = (length (nexts st) + effective m)%nat
    /\ delivered st' = delivered st ++ List.map (flagged trusted) (reported m).
Proof.
  intros Hok Hres Hobj. unfold callbackify.
  destruct (apply trusted m st) as [st1 out] eqn:Ha.
  destruct (apply_ledger trusted m Hok st res st1 out Hres Hobj Ha)
    as (Hlen & Hdel & Hout).
  destruct out as [|exc].
  - exists st1. rewrite app_nil_r in Hdel. repeat split; [lia|exact Hdel].
  - rewrite (error_done _ _ _ Hout). eexists. split; [reflexivity|].
    rewrite delivered_call_next. cbn [nexts call_next].
    rewrite length_app. cbn [length]. split; [lia|exact Hdel].
Qed.

Lemma next_called_once_per_report_witness :
  let m := CallBack (VObj [("status", VNum 404)]) VUndefined
             (CallBack VUndefined (VStr "ok") Return) in
  (false = true \/ proper m = true)
  /\ exists st',
       callbackify m false fresh_request = (st', Done)
       /\ length (nexts st') = 2%nat.
Proof.
  intros m.
  assert (Hok : false = true \/ proper m = true) by (right; reflexivity).
  split; [exact Hok|].
  destruct (next_called_once_per_report false m fresh_request (VObj [])
              Hok eq_refl eq_refl) as (st' & Hcb & Hlen & _).
  exists st'. split; [exact Hcb|exact Hlen].
Defined.

End RouterGuarantees.

(** ** The names that the wrappers give *)

Module WrapperNames.
Import JS JSFacts Underscore UnderscoreFacts Adapter Throttle.

Lemma not_among_keys (k : string) (ps : list (string * value)) :
  lookup k ps = None -> ~ In k (List.map fst ps).
Proof.
  intros Hnone Hin. destruct (lookup_listed k ps Hin) as [v Hv]. congruence.
Qed.

Lemma no_functions (o : value) :
  Forall (fun p => isFunction (snd p) = false) (own_props o) ->
  functions o = [].
Proof.
  intros Hall. unfold functions.
  assert (Hnil : List.filter (fun p => isFunction (snd p)) (own_props o) = []).
  { induction Hall as [|p l Hp _ IH]; simpl; [reflexivity|].
    rewrite Hp. exact IH. }
  rewrite Hnil. reflexivity.
Qed.

(** [retry] and [throttle] of a function that has no callable member. *)
Lemma retry_plain_function (c : code) (n : string) (ps : list (string * value))
  (retries : option Z) (min max factor : option Q) (random : option bool) :
  List.NoDup (List.map fst ps) ->
  Forall (fun p => isFunction (snd p) = false) ps ->
  lookup "fname" ps = None ->
  exists c',
    Retry.retry (VFun c n ps) retries min max factor random
    = Ok (VFun c' "wrapper" (("fname", VStr n) :: ps)).
Proof.
  intros Hnd Hall Hnone. eexists. unfold Retry.retry, Retry.retryfn.
  cbn [isFunction get String.eqb Ascii.eqb Bool.eqb]. rewrite Hnone.
  cbn [default from_option id truthy mbind mret result_bind result_ret
       JS.set update String.eqb Ascii.eqb Bool.eqb].
  rewrite (no_functions (VFun c n ps) Hall).
  cbn [Retry.wrap_members mbind mret result_bind result_ret].
  unfold extend, pairs. cbn [own_props with_props fold_left].
  rewrite (object_copy ps Hnd). cbn [own_props object fold_left].
  rewrite (fold_assign_fresh ps [("fname", VStr n)]); [reflexivity|].
  cbn [app List.map fst]. constructor; [|exact Hnd].
  exact (not_among_keys _ _ Hnone).
Qed.

Lemma throttle_plain_function (c : code) (n : string)
  (ps : list (string * value)) (mx : Z) (s : store) :
  List.NoDup (List.map fst ps) ->
  Forall (fun p => isFunction (snd p) = false) ps ->
  throttle (VFun c n ps) mx s
  = Ok (VFun (ThrottleWrapper (length s)) "" ps,
        s ++ [Cell (VFun c n ps) mx 0 []]).
Proof.
  intros Hnd Hall. unfold throttle, throttlefn. cbn [isFunction].
  rewrite (no_functions (VFun c n ps) Hall).
  cbn [wrap_members mbind mret result_bind result_ret fst snd].
  unfold extend, pairs. cbn [own_props with_props fold_left].
  rewrite (object_copy ps Hnd). cbn [own_props object fold_left].
  rewrite (fold_assign_fresh ps []); [reflexivity|exact Hnd].
Qed.

End WrapperNames.

Module WrapperGuarantees.
Import JS JSFacts Underscore UnderscoreFacts Adapter Throttle WrapperNames.

(** X9: [retry] of a collection answers a collection of the same shape:
    every member that is not callable is there unchanged, no name is
    added, and every callable member is replaced by a callable wrapper.
    With [owner] for [o.name || o.fname] and [m] for
    [o[k].name || o[k].fname || k], both of them primitive values, the
    wrapper of member [k] carries as [fname] the text of [owner] and a
    dot, or nothing when [owner] is falsy, followed by the text of [m];
    if that is the empty string, it carries the name of the bound
    function. *)
Theorem retry_names_every_member (ps : list (string * value))
  (retries : option Z) (min max factor : option Q) (random : option bool) :
  List.NoDup (List.map fst ps) ->
  let o := VObj ps in
  let owner := JS.or (prop o "name") (prop o "fname") in
  exists r,
    Retry.retry o retries min max factor random = Ok r
    /\ (forall k x, lookup k ps = Some x -> isFunction x = false ->
                   prop r k = x)
    /\ (forall k, lookup k ps = None -> prop r k = VUndefined)
    /\ (forall k c n p, lookup k ps = Some (VFun c n p) ->
          let m := JS.or (JS.or (VStr n) (prop (VFun c n p) "fname")) (VStr k) in
          isFunction (prop r k) = true
          /\ (primitive owner = true -> primitive m = true ->
              prop (prop r k) "fname"
              = JS.or (VStr ((if truthy owner then to_str owner ++ "." else "")
                             ++ to_str m))
                      (VStr ("bound " ++ n)))).
Proof.
  intros Hnd o owner.
  destruct (RetryFacts.retry_collection ps retries min max factor random Hnd)
    as (r & Hr & Hplain & Hnone & Hfun).
  exists r. split; [exact Hr|]. split; [exact Hplain|]. split; [exact Hnone|].
  intros k c n p Hk m. destruct (Hfun k c n p Hk) as [Hf Hname].
  split; [exact Hf|]. intros _ _. rewrite Hname. f_equal.
  unfold nbind_fname, owner_prefix, member_name, concat. fold o. fold owner.
  assert (Hm : prop o k = VFun c n p).
  { unfold prop, o. cbn [get]. rewrite Hk. reflexivity. }
  rewrite Hm. change (prop (VFun c n p) "name") with (VStr n). fold m.
  destruct (truthy owner); reflexivity.
Qed.

Lemma retry_names_every_member_witness :
  let ps := [("fname", VStr "db"); ("get", VFun (App 0) "get" []);
             ("limit", VNum 3); ("put", VFun (App 1) "" [])] in
  List.NoDup (List.map fst ps)
  /\ exists r,
       Retry.retry (VObj ps) None None None None None = Ok r
       /\ prop r "limit" = VNum 3
       /\ prop (prop r "get") "fname" = VStr "db.get"
       /\ prop (prop r "put") "fname" = VStr "db.put".
Proof.
  intros ps.
  assert (Hnd : List.NoDup (List.map fst ps)).
  { repeat constructor; simpl; intuition discriminate. }
  split; [exact Hnd|].
  destruct (retry_names_every_member ps None None None None None Hnd)
    as (r & Hr & Hplain & _ & Hfun).
  exists r. split; [exact Hr|].
  split; [exact (Hplain "limit" (VNum 3) eq_refl eq_refl)|].
  split.
  - exact (proj2 (Hfun "get" (App 0) "get" [] eq_refl) eq_refl eq_refl).
  - exact (proj2 (Hfun "put" (App 1) "" [] eq_refl) eq_refl eq_refl).
Defined.

(** X10: the order in which a function is wrapped decides whether its
    name survives.  [retry] stores the name of the function as [fname]
    and [throttle] copies the properties of what it wraps, so
    [throttle(retry(f))] carries the name of [f]; [throttle(f)] carries
    no [fname] and its wrapper is anonymous, so [retry(throttle(f))]
    carries the empty name.  Here [f] is a function with no [fname] and
    no callable member of its own. *)
Theorem wrapping_order_decides_the_name (c : code) (n : string)
  (ps : list (string * value)) (retries : option Z) (min max factor : option Q)
  (random : option bool) (mx : Z) (s : store) :
  List.NoDup (List.map fst ps) ->
  Forall (fun p => isFunction (snd p) = false) ps ->
  lookup "fname" ps = None ->
  exists r t t0 r0,
    Retry.retry (VFun c n ps) retries min max factor random = Ok r
    /\ prop r "fname" = VStr n
    /\ throttle r mx s = Ok (t, s ++ [Cell r mx 0 []])
    /\ prop t "fname" = VStr n
    /\ throttle (VFun c n ps) mx s = Ok (t0, s ++ [Cell (VFun c n ps) mx 0 []])
    /\ prop t0 "fname" = VUndefined
    /\ prop t0 "name" = VStr ""
    /\ Retry.retry t0 retries min max factor random = Ok r0
    /\ prop r0 "fname" = VStr "".
Proof.
  intros Hnd Hall Hnone.
  destruct (retry_plain_function c n ps retries min max factor random
              Hnd Hall Hnone) as [c' Hr].
  assert (Hnd' : List.NoDup (List.map fst (("fname", VStr n) :: ps))).
  { cbn [List.map fst]. constructor; [exact (not_among_keys _ _ Hnone)|exact Hnd]. }
  assert (Hall' : Forall (fun p => isFunction (snd p) = false)
                    (("fname", VStr n) :: ps)).
  { constructor; [reflexivity|exact Hall]. }
  destruct (retry_plain_function (ThrottleWrapper (length s)) "" ps
              retries min max factor random Hnd Hall Hnone) as [c0 Hr0].
  exists (VFun c' "wrapper" (("fname", VStr n) :: ps)),
         (VFun (ThrottleWrapper (length s)) "" (("fname", VStr n) :: ps)),
         (VFun (ThrottleWrapper (length s)) "" ps),
         (VFun c0 "wrapper" (("fname", VStr "") :: ps)).
  split; [exact Hr|]. split; [reflexivity|].
  split; [exact (throttle_plain_function c' "wrapper" _ mx s Hnd' Hall')|].
  split; [reflexivity|].
  split; [exact (throttle_plain_function c n ps mx s Hnd Hall)|].
  split; [unfold prop; cbn [get String.eqb Ascii.eqb Bool.eqb];
          rewrite Hnone; reflexivity|].
  split; [reflexivity|]. split; [exact Hr0|reflexivity].
Qed.

Lemma wrapping_order_decides_the_name_witness :
  let ps := [("timeout", VNum 3)] in
  List.NoDup (List.map fst ps)
  /\ Forall (fun p => isFunction (snd p) = false) ps
  /\ lookup "fname" ps = None
  /\ exists r t,
       Retry.retry (VFun (App 0) "get" ps) None None None None None = Ok r
       /\ throttle r 2 [] = Ok (t, [Cell r 2 0 []])
       /\ prop t "fname" = VStr "get".
Proof.
  intros ps.
  assert (Hnd : List.NoDup (List.map fst ps)).
  { repeat constructor; simpl; intuition discriminate. }
  assert (Hall : Forall (fun p => isFunction (snd p) = false) ps).
  { repeat constructor. }
  split; [exact Hnd|]. split; [exact Hall|]. split; [reflexivity|].
  destruct (wrapping_order_decides_the_name (App 0) "get" ps
              None None None None None 2 [] Hnd Hall eq_refl)
    as (r & t & _ & _ & Hr & _ & Ht & Hname & _).
  exists r, t. split; [exact Hr|]. split; [exact Ht|exact Hname].
Defined.

End WrapperGuarantees.

(** ** Throttle: a function with members *)

Module ThrottleFunction.
Import JS JSFacts Underscore UnderscoreFacts Adapter Throttle ThrottleNotions
  ThrottleAccounts ThrottleCollection WrapperNames.

(** The properties of a wrapper that has received those of [ps] and
    then the wrapped members [ws]. *)
Lemma extend_wrapper_lookup (k : string) (c : code) (n : string)
  (ps ws : list (string * value)) :
  List.NoDup (List.map fst ps) ->
  List.NoDup (List.map fst ws) ->
  k <> "name" ->
  prop (extend (VFun c n []) [object ps; object ws]) k
  = default VUndefined
      (match lookup k ws with Some v => Some v | None => lookup k ps end).
Proof.
  intros Hps Hws Hk.
  rewrite (object_copy ps Hps), (object_copy ws Hws).
  unfold prop, extend. cbn [own_props with_props fold_left get].
  rewrite (proj2 (String.eqb_neq k "name") Hk). f_equal.
  rewrite (lookup_fold_assign k ws Hws).
  rewrite (fold_assign_fresh ps [] Hps). reflexivity.
Qed.

Lemma listed_is_not_name (k : string) (x : value) (ps : list (string * value)) :
  lookup "name" ps = None -> lookup k ps = Some x -> k <> "name".
Proof. intros Hnone Hk ->. congruence. Qed.

End ThrottleFunction.

Module ThrottleFunctionGuarantees.
Import JS JSFacts Underscore UnderscoreFacts Adapter Throttle ThrottleNotions
  ThrottleAccounts ThrottleCollection WrapperNames ThrottleFunction.

(** X11: [throttle] of a function that has members of its own (a
    function used as a module) throttles the function and each callable
    member separately.  The result is a wrapper whose cell holds the
    function itself; each callable member is replaced by a wrapper with
    a cell of its own, which holds the member bound to the function; the
    other members are copied unchanged; every cell starts with
    [running = 0] and an empty queue under the same limit, and on every
    schedule no cell exceeds it. *)
Theorem function_and_members_throttled_separately (c : code) (n : string)
  (ps : list (string * value)) (mx : Z) :
  List.NoDup (List.map fst ps) ->
  lookup "name" ps = None ->
  0 <= mx ->
  exists t cs,
    throttle (VFun c n ps) mx [] = Ok (t, Cell (VFun c n ps) mx 0 [] :: cs)
    /\ (exists p, t = VFun (ThrottleWrapper 0) "" p)
    /\ (forall k x, lookup k ps = Some x -> isFunction x = false ->
                   prop t k = x)
    /\ (forall k x, lookup k ps = Some x -> isFunction x = true ->
          exists a cl,
            prop t k = VFun (ThrottleWrapper (S a)) "" []
            /\ cs !! a = Some cl /\ cell_of (VFun c n ps) mx k cl)
    /\ (forall cbs es w a cl,
          exec cbs (boot (Cell (VFun c n ps) mx 0 [] :: cs)) es = Some w ->
          cells w !! a = Some cl ->
          max cl = mx /\ running cl <= mx /\ count a (flying w) <= mx).
Proof.
  intros Hnd Hname Hmx.
  set (f := VFun c n ps).
  assert (Hfuns : functions f = functions (VObj ps)) by reflexivity.
  remember (functions (VObj ps)) as ks eqn:Hks.
  assert (Hin : forall k, In k ks <->
                  exists v, lookup k ps = Some v /\ isFunction v = true).
  { intros k. subst ks. exact (functions_In k ps Hnd). }
  assert (Hprop : forall k x, lookup k ps = Some x -> prop f k = x).
  { intros k x Hk. unfold prop, f. cbn [get].
    rewrite (proj2 (String.eqb_neq k "name") (listed_is_not_name k x ps Hname Hk)).
    rewrite Hk. reflexivity. }
  destruct (throttled_members_ok f mx ks [Cell f mx 0 []]) as (cs & Hwm & Hcs).
  { intros k Hk. apply Hin in Hk as (v & Hv & Hf). rewrite (Hprop k v Hv).
    exact Hf. }
  cbn [length app] in Hwm.
  assert (Hwnd : List.NoDup (List.map fst (wrappers 1 ks))).
  { rewrite wrappers_keys. subst ks. exact (functions_NoDup ps Hnd). }
  exists (extend (VFun (ThrottleWrapper 0) "" []) [object ps; object (wrappers 1 ks)]),
         cs.
  split.
  { unfold throttle, throttlefn. fold f. cbn [isFunction f]. fold f.
    rewrite Hfuns. cbn [length app]. rewrite Hwm.
    cbn [mbind mret result_bind result_ret fst snd]. reflexivity. }
  split.
  { unfold extend. cbn [with_props]. eexists. reflexivity. }
  split.
  { intros k x Hk Hf.
    rewrite (extend_wrapper_lookup k _ _ ps _ Hnd Hwnd
               (listed_is_not_name k x ps Hname Hk)).
    rewrite (lookup_None k (wrappers 1 ks)), Hk; [reflexivity|].
    rewrite wrappers_keys. intros Hk'. apply Hin in Hk' as (v & Hv & Hfv).
    congruence. }
  split.
  { intros k x Hk Hf.
    assert (Hk' : In k ks) by (apply Hin; exists x; auto).
    destruct (wrappers_lookup_In k ks Hk' 1) as (i & Hi & Hl).
    destruct (Forall2_lookup_l _ _ _ _ _ Hcs Hi) as (cl & Hcl & Hcell).
    exists i, cl.
    rewrite (extend_wrapper_lookup k _ _ ps _ Hnd Hwnd
               (listed_is_not_name k x ps Hname Hk)).
    rewrite Hl. auto. }
  intros cbs es w a cl Hex Hcl.
  destruct (cells_fresh _ _ _ _ Hcs) as [Hfresh Hmax].
  assert (Hfresh' : fresh (Cell f mx 0 [] :: cs)).
  { constructor; [split; reflexivity|exact Hfresh]. }
  assert (Hmax' : Forall (fun cl => max cl = mx) (Cell f mx 0 [] :: cs)).
  { constructor; [reflexivity|exact Hmax]. }
  destruct (limit_kept w (boot (Cell f mx 0 [] :: cs)) a cl) as (cl0 & Hcl0 & Hm).
  { symmetry. exact (exec_limits cbs es _ _ Hex). }
  { exact Hcl. }
  assert (Hlim : max cl = mx).
  { rewrite <- Hm. exact (proj1 (Forall_lookup _ _) Hmax' a cl0 Hcl0). }
  split; [exact Hlim|]. rewrite <- Hlim.
  apply (running_within_limit cbs _ es w a cl Hfresh' Hex Hcl). lia.
Qed.

Lemma function_and_members_throttled_separately_witness :
  let ps := [("get", VFun (App 1) "get" []); ("timeout", VNum 3)] in
  List.NoDup (List.map fst ps)
  /\ lookup "name" ps = None
  /\ 0 <= 2
  /\ exists t cs,
       throttle (VFun (App 0) "request" ps) 2 []
       = Ok (t, Cell (VFun (App 0) "request" ps) 2 0 [] :: cs)
       /\ prop t "timeout" = VNum 3.
Proof.
  intros ps.
  assert (Hnd : List.NoDup (List.map fst ps)).
  { repeat constructor; simpl; intuition discriminate. }
  assert (H2 : 0 <= 2) by lia.
  split; [exact Hnd|]. split; [reflexivity|]. split; [exact H2|].
  destruct (function_and_members_throttled_separately (App 0) "request" ps 2
              Hnd eq_refl H2) as (t & cs & Hth & _ & Hplain & _).
  exists t, cs. split; [exact Hth|].
  exact (Hplain "timeout" (VNum 3) eq_refl eq_refl).
Defined.

End ThrottleFunctionGuarantees.
